(** * yt-cipher: a shallow embedding of the resolver service

    The TypeScript sources are embedded function by function.  JavaScript
    strings are [string]s whose characters stand for one UTF-16 code unit
    below 256 each; [Date.now()] readings are integers passed explicitly;
    mutable objects (the caches, the player directory, the counters) are
    threaded through as explicit state.  A value that may be [undefined] or
    [null] is an [option]; a call that may throw returns an [outcome]. *)

From Stdlib Require Import ZArith String Ascii Lia Bool DecimalString.
From stdpp Require Import gmap strings list fin_maps.

Local Open Scope string_scope.
Local Open Scope Z_scope.

(** ** JavaScript helpers *)

Module JS.

(** [!!s] for a string: only the empty string is falsy. *)
Definition truthy (s : string) : bool := negb (String.eqb s "").

(** [!!x] for [x : string | undefined | null]. *)
Definition truthy_opt (o : option string) : bool :=
  match o with Some s => truthy s | None => false end.

(** [a || b] on strings that may be absent. *)
Definition or_else (o : option string) (d : string) : string :=
  match o with Some s => if truthy s then s else d | None => d end.

(** [n || d] on numbers that may be absent: [0] is falsy. *)
Definition num_or (o : option Z) (d : Z) : Z :=
  match o with Some n => if n =? 0 then d else n | None => d end.

(** [s.startsWith(p)] *)
Definition startsWith (s p : string) : bool := String.prefix p s.

(** [s.substring(n)] *)
Definition substring_from (n : nat) (s : string) : string :=
  String.substring n (String.length s - n)%nat s.

(** [s.includes(p)] *)
Fixpoint includes (s p : string) : bool :=
  String.prefix p s ||
  match s with
  | EmptyString => false
  | String _ s' => includes s' p
  end.

(** The result of evaluating a call that may throw. *)
Inductive outcome (A : Type) : Type :=
| Returned (v : A)
| Threw (msg : string).
Arguments Returned {A} v.
Arguments Threw {A} msg.

End JS.

(** ** The LRU base class

    [InstrumentedLRU] extends the class [LRU] of the third-party module
    [lru@1.0.2], which is not part of the repository. *)

Module LRU.

(** Modelled from the spec: the base class [LRU] imported from
    [deno.land/x/lru], missing from the sources.  A size-bounded map in
    access order, most recently used first: [get] and [set] move the key
    to the front, and a [set] beyond the capacity evicts the least
    recently used remaining entries. *)
Record t (T : Type) : Type := mk {
  maxSize : Z;
  items : list (string * T)
}.
Arguments mk {T} maxSize items.
Arguments maxSize {T} _.
Arguments items {T} _.

Section ops.
Context {T : Type}.

Fixpoint lookup (k : string) (l : list (string * T)) : option T :=
  match l with
  | [] => None
  | (k', v) :: l' => if String.eqb k k' then Some v else lookup k l'
  end.

Fixpoint remove_key (k : string) (l : list (string * T)) : list (string * T) :=
  match l with
  | [] => []
  | (k', v) :: l' =>
      if String.eqb k k' then remove_key k l' else (k', v) :: remove_key k l'
  end.

Definition new (maxSize : Z) : t T := mk maxSize [].

Definition size (c : t T) : Z := Z.of_nat (length (items c)).

Definition has (k : string) (c : t T) : bool :=
  match lookup k (items c) with Some _ => true | None => false end.

Definition get (k : string) (c : t T) : option T * t T :=
  match lookup k (items c) with
  | Some v => (Some v, mk (maxSize c) ((k, v) :: remove_key k (items c)))
  | None => (None, c)
  end.

Definition set (k : string) (v : T) (c : t T) : t T :=
  mk (maxSize c) (take (Z.to_nat (maxSize c)) ((k, v) :: remove_key k (items c))).

(** [remove(key)], as to the store; what the call returns is not given
    by the specification. *)
Definition remove (k : string) (c : t T) : t T :=
  mk (maxSize c) (remove_key k (items c)).

Definition clear (c : t T) : t T := mk (maxSize c) [].

End ops.

End LRU.

(** ** src/instrumentedCache.ts *)

Module InstrumentedLRU.

(** [{ value: T; timestamp: number }] *)
Record entry (T : Type) : Type := Entry {
  value : T;
  timestamp : Z
}.
Arguments Entry {T} value timestamp.
Arguments value {T} _.
Arguments timestamp {T} _.

(** [Partial<CacheConfig>] *)
Record CacheConfig : Type := {
  cfg_maxSize : option Z;
  cfg_ttl : option Z;
  cfg_cleanupInterval : option Z
}.

(** The fields of [InstrumentedLRU<T>]; [lru] is the inherited state. *)
Record t (T : Type) : Type := mk {
  cacheName : string;
  lru : LRU.t T;
  entries : gmap string (entry T);
  ttl : Z;
  cleanupInterval : Z;
  hits : nat;
  misses : nat;
  operations : nat;
  errors : nat;
  lastCleanup : Z
}.
Arguments mk {T}.
Arguments cacheName {T} _.
Arguments lru {T} _.
Arguments entries {T} _.
Arguments ttl {T} _.
Arguments cleanupInterval {T} _.
Arguments hits {T} _.
Arguments misses {T} _.
Arguments operations {T} _.
Arguments errors {T} _.
Arguments lastCleanup {T} _.

Section methods.
Context {T : Type}.

(** The constructor; [now] is the [Date.now()] read for [lastCleanup]. *)
Definition new (now : Z) (name : string) (maxSize : Z) (config : CacheConfig) : t T :=
  mk name (LRU.new maxSize) ∅
     (JS.num_or (cfg_ttl config) 3600000)
     (JS.num_or (cfg_cleanupInterval config) 300000)
     0 0 0 0 now.

Definition with_store (c : t T) (l : LRU.t T) (m : gmap string (entry T)) : t T :=
  mk (cacheName c) l m (ttl c) (cleanupInterval c)
     (hits c) (misses c) (operations c) (errors c) (lastCleanup c).

Definition with_counters (c : t T) (h m o e : nat) : t T :=
  mk (cacheName c) (lru c) (entries c) (ttl c) (cleanupInterval c)
     h m o e (lastCleanup c).

Definition with_lastCleanup (c : t T) (now : Z) : t T :=
  mk (cacheName c) (lru c) (entries c) (ttl c) (cleanupInterval c)
     (hits c) (misses c) (operations c) (errors c) now.

(** [this.size], inherited from the base class. *)
Definition size (c : t T) : Z := LRU.size (lru c).

Definition recordOperation (success : bool) (c : t T) : t T :=
  with_counters c (hits c) (misses c) (S (operations c))
    (if success then errors c else S (errors c)).

(** [now - entry.timestamp > this.ttl] *)
Definition expired (now : Z) (c : t T) (e : entry T) : bool :=
  now - timestamp e >? ttl c.

(** [delete(key)], as to the state.  The method answers
    [Boolean(super.remove(key))]; what the library's [remove] returns is not
    in the sources, and no caller in the repository reads the answer, so it
    is left out. *)
Definition delete (key : string) (c : t T) : t T :=
  let m := base.delete key (entries c) in
  let l := LRU.remove key (lru c) in
  recordOperation true (with_store c l m).

Definition super_get (key : string) (c : t T) : option T * t T :=
  let '(r, l) := LRU.get key (lru c) in (r, with_store c l (entries c)).

Definition get (now : Z) (key : string) (c : t T) : option T * t T :=
  let '(result, c1) :=
    match entries c !! key with
    | Some e =>
        if expired now c e then (None, delete key c) else super_get key c
    | None => super_get key c
    end in
  let c2 :=
    match result with
    | Some _ => with_counters c1 (S (hits c1)) (misses c1) (operations c1) (errors c1)
    | None => with_counters c1 (hits c1) (S (misses c1)) (operations c1) (errors c1)
    end in
  (result, recordOperation true c2).

Definition set (now : Z) (key : string) (v : T) (c : t T) : t T :=
  let m := <[key := Entry v now]> (entries c) in
  let l := LRU.set key v (lru c) in
  recordOperation true (with_store c l m).

Definition clear (c : t T) : t T :=
  recordOperation true
    (with_counters (with_store c (LRU.clear (lru c)) ∅) 0 0 0 0).

Definition has (now : Z) (key : string) (c : t T) : bool * t T :=
  let '(result, c1) :=
    match entries c !! key with
    | Some e =>
        if expired now c e then (false, delete key c)
        else (LRU.has key (lru c), c)
    | None => (LRU.has key (lru c), c)
    end in
  (result, recordOperation true c1).

Definition touch (now : Z) (key : string) (c : t T) : bool * t T :=
  match entries c !! key with
  | Some e => (true, with_store c (lru c) (<[key := Entry (value e) now]> (entries c)))
  | None => (false, c)
  end.

Definition expiredKeys (now : Z) (c : t T) : list string :=
  (map_to_list (filter (fun kv => expired now c (snd kv) = true) (entries c))).*1.

Definition cleanup (now : Z) (c : t T) : t T :=
  let c' := foldl (fun acc key => delete key acc) c (expiredKeys now c) in
  with_lastCleanup c' now.

Definition forceCleanup (now : Z) (c : t T) : Z * t T :=
  let c' := cleanup now c in (size c - size c', c').

Definition getKeys (c : t T) : list string := (map_to_list (entries c)).*1.

(** The operations a caller can issue, with the clock reading of each. *)
Inductive op : Type :=
| OpGet (now : Z) (key : string)
| OpSet (now : Z) (key : string) (v : T)
| OpDelete (key : string)
| OpClear
| OpHas (now : Z) (key : string)
| OpTouch (now : Z) (key : string)
| OpCleanup (now : Z).

Definition run_op (c : t T) (o : op) : t T :=
  match o with
  | OpGet now key => snd (get now key c)
  | OpSet now key v => set now key v c
  | OpDelete key => delete key c
  | OpClear => clear c
  | OpHas now key => snd (has now key c)
  | OpTouch now key => snd (touch now key c)
  | OpCleanup now => cleanup now c
  end.

Definition run (ops : list op) (c : t T) : t T := foldl run_op c ops.

(** The operation stamps the entry of [key]: a put or a touch of it. *)
Definition writes (key : string) (o : op) : bool :=
  match o with
  | OpSet _ k _ => String.eqb k key
  | OpTouch _ k => String.eqb k key
  | _ => false
  end.

(** The key is held by the cache: the inherited store has it. *)
Definition holds (c : t T) (key : string) : Prop :=
  is_Some (LRU.lookup key (LRU.items (lru c))).

(** Every value in the inherited store has its twin in [entries]. *)
Definition consistent (c : t T) : Prop :=
  forall key v, LRU.lookup key (LRU.items (lru c)) = Some v ->
    exists ts, entries c !! key = Some (Entry v ts).

End methods.

End InstrumentedLRU.

(** ** Base64, as the [Basic] credentials of a request are encoded *)

Module Base64.

Definition alphabet : string :=
  "ABCDEFGHIJKLMNOPQRSTUVWXYZabcdefghijklmnopqrstuvwxyz0123456789+/".

Definition digit (n : N) : ascii :=
  match String.get (N.to_nat n) alphabet with
  | Some ch => ch
  | None => "="%char
  end.

Fixpoint encode (l : list N) : string :=
  match l with
  | [] => ""
  | [a] =>
      let n := (a * 65536)%N in
      String (digit (n / 262144)) (String (digit ((n / 4096) mod 64)) "==")
  | [a; b] =>
      let n := (a * 65536 + b * 256)%N in
      String (digit (n / 262144)) (String (digit ((n / 4096) mod 64))
        (String (digit ((n / 64) mod 64)) "="))
  | a :: b :: c :: l' =>
      let n := (a * 65536 + b * 256 + c)%N in
      String (digit (n / 262144)) (String (digit ((n / 4096) mod 64))
        (String (digit ((n / 64) mod 64)) (String (digit (n mod 64)) (encode l'))))
  end.

(** [btoa(s)] *)
Definition btoa (s : string) : string :=
  encode (map N_of_ascii (list_ascii_of_string s)).

End Base64.

(** ** server.ts: configuration and the request gate of [baseHandler] *)

Module Server.

(** What [baseHandler] reads of a [Request]: the method, the pathname of
    its URL, the headers [Authorization] and [Content-Type], and whether
    the body parses as JSON. *)
Record Request : Type := {
  method : string;
  pathname : string;
  authorization : option string;
  contentType : option string;
  bodyIsJson : bool
}.

(** [Deno.env] *)
Abbreviation Env := (gmap string string).

(** [config.apiToken]: [Deno.env.get("API_TOKEN") || "YO_TOKEN"] *)
Definition apiToken (env : Env) : string :=
  JS.or_else (env !! "API_TOKEN") "YO_TOKEN".

Inductive endpoint : Type :=
| DecryptSignature | GetSts | ResolveUrl | BatchDecrypt | ValidateSignature | ClearCache.

(** How far [baseHandler] takes a request. *)
Inductive routed : Type :=
| ServedRoot
| ServedMetrics
| ServedHealth
| ServedStatus
| ServedInfo
| ServedSwagger
| Unauthorized (error : string)
| EndpointNotFound
| InvalidContentType
| InvalidJson
| Composed (h : endpoint).

Definition status (r : routed) : Z :=
  match r with
  | Unauthorized _ => 401
  | EndpointNotFound => 404
  | InvalidContentType => 415
  | InvalidJson => 400
  | _ => 200
  end.

(** The paths behind the token check. *)
Definition core_path (p : string) : bool :=
  JS.startsWith p "/decrypt_signature" || JS.startsWith p "/get_sts" ||
  JS.startsWith p "/resolve_url" || JS.startsWith p "/batch_decrypt" ||
  JS.startsWith p "/validate_signature" || JS.startsWith p "/clear_cache".

(** [authHeader === `Bearer ${API_TOKEN}` || authHeader === API_TOKEN] *)
Definition isValidAuth (API_TOKEN : string) (authHeader : option string) : bool :=
  match authHeader with
  | Some h => String.eqb h ("Bearer " ++ API_TOKEN) || String.eqb h API_TOKEN
  | None => false
  end.

(** The token check; [None] lets the request through. *)
Definition check_token (env : Env) (req : Request) : option routed :=
  if core_path (pathname req) then
    let API_TOKEN := apiToken env in
    if negb (JS.truthy API_TOKEN) || String.eqb API_TOKEN "" ||
       String.eqb API_TOKEN "YOUR_API_TOKEN"
    then None
    else if isValidAuth API_TOKEN (authorization req) then None
    else Some (Unauthorized
                 (if JS.truthy_opt (authorization req)
                  then "Invalid API token" else "Missing API token"))
  else None.

Definition select_handler (p : string) : option endpoint :=
  if String.eqb p "/decrypt_signature" then Some DecryptSignature
  else if String.eqb p "/get_sts" then Some GetSts
  else if String.eqb p "/resolve_url" then Some ResolveUrl
  else if String.eqb p "/batch_decrypt" then Some BatchDecrypt
  else if String.eqb p "/validate_signature" then Some ValidateSignature
  else if String.eqb p "/clear_cache" then Some ClearCache
  else None.

(** [baseHandler], up to the call of the composed handler. *)
Definition baseHandler (env : Env) (req : Request) : routed :=
  let p := pathname req in
  if String.eqb (method req) "GET" && String.eqb p "/" then ServedRoot
  else if String.eqb p "/metrics" then ServedMetrics
  else if String.eqb p "/health" then ServedHealth
  else if String.eqb p "/status" then ServedStatus
  else if String.eqb p "/info" then ServedInfo
  else if String.eqb p "/swagger.json" then ServedSwagger
  else
    match check_token env req with
    | Some r => r
    | None =>
        match select_handler p with
        | None => EndpointNotFound
        | Some h =>
            if String.eqb (method req) "POST" then
              if negb (JS.includes (JS.or_else (contentType req) "") "application/json")
              then InvalidContentType
              else if bodyIsJson req then Composed h else InvalidJson
            else Composed h
        end
    end.

End Server.

(** ** src/middleware.ts: [withAuth] *)

Module Middleware.

Inductive auth : Type :=
| Next
| AuthRequired
| AuthInvalid.

Definition status (a : auth) : Z :=
  match a with Next => 200 | _ => 401 end.

(** [decoded.split(':')] *)
Fixpoint split_colon (s : string) : list string :=
  match s with
  | EmptyString => [""]
  | String ch s' =>
      if Ascii.eqb ch ":"%char then "" :: split_colon s'
      else match split_colon s' with
           | [] => [String ch ""]
           | w :: ws => String ch w :: ws
           end
  end.

Section withAuth.
(** [atob] of the platform; [Threw] for input that is not base64. *)
Variable atob : string -> JS.outcome string.

Definition bearer_ok (apiToken h : string) : bool :=
  JS.startsWith h "Bearer " && String.eqb (JS.substring_from 7 h) apiToken.

Definition basic_ok (apiToken h : string) : bool :=
  JS.startsWith h "Basic " &&
  match atob (JS.substring_from 6 h) with
  | JS.Returned decoded =>
      match split_colon decoded with
      | _username :: password :: _ => String.eqb password apiToken
      | _ => false
      end
  | JS.Threw _ => false
  end.

Definition withAuth (env : Server.Env) (req : Server.Request) : auth :=
  let p := Server.pathname req in
  if String.eqb p "/health" || String.eqb p "/metrics" ||
     String.eqb p "/status" || String.eqb p "/api/docs"
  then Next
  else
    let authHeader := Server.authorization req in
    match env !! "RY4N" with
    | Some apiToken =>
        if JS.truthy apiToken then
          match authHeader with
          | Some h =>
              let isValidAuth :=
                JS.truthy h &&
                (bearer_ok apiToken h || basic_ok apiToken h || String.eqb h apiToken) in
              if negb isValidAuth then AuthRequired
              else if negb (String.eqb (JS.substring_from 7 h) apiToken)
                   then AuthInvalid
                   else Next
          | None => AuthRequired
          end
        else Next
    | None => Next
    end.

(** The two checks a request to an endpoint goes through: the one of
    [baseHandler], then [withAuth] inside the composed handler.  The result
    is the status the checks answer with, 200 standing for a request handed
    on to the endpoint; the middleware in between (rate limit, logging,
    metrics, CORS, headers) does not read the token and is left out. *)
Definition gate (env : Server.Env) (req : Server.Request) : Z :=
  match Server.baseHandler env req with
  | Server.Composed _ => status (withAuth env req)
  | r => Server.status r
  end.

Definition accepted (env : Server.Env) (req : Server.Request) : bool :=
  match Server.baseHandler env req with
  | Server.Composed _ =>
      match withAuth env req with Next => true | _ => false end
  | _ => false
  end.

End withAuth.

End Middleware.

(** ** src/types.ts *)

Module Types.

(** [Solvers]: each solver maps a token to a string, or throws. *)
Record Solvers : Type := {
  n : option (string -> JS.outcome string);
  sig : option (string -> JS.outcome string)
}.

End Types.

Abbreviation Solvers := Types.Solvers.

(** A file of the player directory, with the times [Deno.stat] reports
    (milliseconds; [None] where the platform has none). *)
Record File : Type := {
  content : string;
  atime : option Z;
  mtime : option Z;
  birthtime : option Z
}.

(** The errors with which the platform answers the file and network
    operations of [getPlayerFilePath]; [None] where the operation goes
    through.  [statFault] and [utimeFault] give an error other than
    [NotFound] for the path; [textFault] fails [response.text()] of the
    answer to the URL; [writeFault] fails [Deno.writeTextFile] on the path,
    leaving the file with the given content, or as it was for [None];
    [readDirFault] fails the listing of the directory. *)
Record Faults : Type := {
  statFault : string -> option string;
  utimeFault : string -> option string;
  textFault : string -> option string;
  writeFault : string -> option (string * option string);
  readDirFault : option string
}.

(** A platform on which every operation goes through. *)
Definition noFaults : Faults :=
  {| statFault := fun _ => None; utimeFault := fun _ => None;
     textFault := fun _ => None; writeFault := fun _ => None;
     readDirFault := None |}.

(** The mutable state of the process: the clock reading, the player directory
    (path to file), the three in-memory caches, and the counters
    [player_script_fetches] and [cache_size{player}]; [poolRuns] counts the
    completed calls of [execInPool]; [faults] is what the platform answers
    the operations on the directory with. *)
Record World : Type := {
  clock : Z;
  disk : gmap string File;
  faults : Faults;
  solverCache : InstrumentedLRU.t Solvers;
  preprocessedCache : InstrumentedLRU.t string;
  stsCache : InstrumentedLRU.t string;
  playerScriptFetches : nat;
  poolRuns : nat;
  playerGauge : Z
}.

Definition set_clock (w : World) (t : Z) : World :=
  {| clock := t; disk := disk w; solverCache := solverCache w;
     preprocessedCache := preprocessedCache w; stsCache := stsCache w;
     playerScriptFetches := playerScriptFetches w; poolRuns := poolRuns w;
     playerGauge := playerGauge w; faults := faults w |}.

Definition set_disk (w : World) (d : gmap string File) : World :=
  {| clock := clock w; disk := d; solverCache := solverCache w;
     preprocessedCache := preprocessedCache w; stsCache := stsCache w;
     playerScriptFetches := playerScriptFetches w; poolRuns := poolRuns w;
     playerGauge := playerGauge w; faults := faults w |}.

Definition set_solverCache (w : World) (c : InstrumentedLRU.t Solvers) : World :=
  {| clock := clock w; disk := disk w; solverCache := c;
     preprocessedCache := preprocessedCache w; stsCache := stsCache w;
     playerScriptFetches := playerScriptFetches w; poolRuns := poolRuns w;
     playerGauge := playerGauge w; faults := faults w |}.

Definition set_preprocessedCache (w : World) (c : InstrumentedLRU.t string) : World :=
  {| clock := clock w; disk := disk w; solverCache := solverCache w;
     preprocessedCache := c; stsCache := stsCache w;
     playerScriptFetches := playerScriptFetches w; poolRuns := poolRuns w;
     playerGauge := playerGauge w; faults := faults w |}.

Definition set_stsCache (w : World) (c : InstrumentedLRU.t string) : World :=
  {| clock := clock w; disk := disk w; solverCache := solverCache w;
     preprocessedCache := preprocessedCache w; stsCache := c;
     playerScriptFetches := playerScriptFetches w; poolRuns := poolRuns w;
     playerGauge := playerGauge w; faults := faults w |}.

Definition count_fetch (w : World) : World :=
  {| clock := clock w; disk := disk w; solverCache := solverCache w;
     preprocessedCache := preprocessedCache w; stsCache := stsCache w;
     playerScriptFetches := S (playerScriptFetches w); poolRuns := poolRuns w;
     playerGauge := playerGauge w; faults := faults w |}.

Definition count_poolRun (w : World) : World :=
  {| clock := clock w; disk := disk w; solverCache := solverCache w;
     preprocessedCache := preprocessedCache w; stsCache := stsCache w;
     playerScriptFetches := playerScriptFetches w; poolRuns := S (poolRuns w);
     playerGauge := playerGauge w; faults := faults w |}.

Definition set_playerGauge (w : World) (g : Z) : World :=
  {| clock := clock w; disk := disk w; solverCache := solverCache w;
     preprocessedCache := preprocessedCache w; stsCache := stsCache w;
     playerScriptFetches := playerScriptFetches w; poolRuns := poolRuns w;
     playerGauge := g; faults := faults w |}.

(** ** src/playerCache.ts and src/solver.ts as tasks

    An [async] function runs without interruption from one [await] to the
    next.  A task is the point at which a call is suspended; one step
    completes the awaited operation and runs the code up to the next
    [await]. *)

Module Pipeline.

(** The suspension points of [getPlayerFilePath]. *)
Inductive pathTask : Type :=
| Hashing (playerUrl : string)
| Statting (playerUrl filePath : string)
| Utiming (playerUrl filePath : string) (atime mtime : Z)
| Fetching (playerUrl filePath : string)
| ReadingBody (playerUrl filePath body : string)
| Writing (playerUrl filePath playerContent : string)
| Listing (filePath : string)
| PathReady (filePath : string)
| PathFailed (msg : string).

(** The suspension points of [getSolvers]. *)
Inductive task : Type :=
| InGetPlayerFilePath (t : pathTask)
| ReadingFile (playerCacheKey : string)
| Pooling (playerCacheKey rawPlayer : string)
| Done (solvers : option Solvers)
| Failed (msg : string).

Section pipeline.
(** Hex-encoded SHA-256, by [crypto.subtle.digest]. *)
Variable sha256hex : string -> string.
(** The upstream answer to [fetch(playerUrl)]: status and body. *)
Variable fetch : string -> JS.outcome (Z * string).
(** Modelled from the spec: [execInPool] of src/workerPool.ts, missing from
    the sources: [run(payload)] yields the preprocessed script or an error. *)
Variable execInPool : string -> JS.outcome string.
(** Modelled from the spec: [getFromPrepared] of the solver extractor,
    missing from the sources: [extract(pp)] yields the pair of callables. *)
Variable getFromPrepared : string -> JS.outcome (option Solvers).

(** [join(CACHE_DIR, `${hash}.js`)] *)
Definition filePathOf (playerUrl : string) : string :=
  "player_cache/" ++ sha256hex playerUrl ++ ".js".

(** [response.ok] *)
Definition ok (status : Z) : bool := (200 <=? status) && (status <=? 299).

(** [`${response.status}`] *)
Definition showStatus (status : Z) : string :=
  DecimalString.NilEmpty.string_of_int (Z.to_int status).

(** The directory after a write of [playerContent] to [filePath] at the
    time of [w]. *)
Definition written (filePath playerContent : string) (w : World) : gmap string File :=
  let born :=
    match disk w !! filePath with
    | Some f => birthtime f
    | None => Some (clock w)
    end in
  <[filePath := {| content := playerContent; atime := Some (clock w);
                   mtime := Some (clock w); birthtime := born |}]> (disk w).

Definition stepPath (t : pathTask) (w : World) : pathTask * World :=
  match t with
  | Hashing playerUrl => (Statting playerUrl (filePathOf playerUrl), w)
  | Statting playerUrl filePath =>
      match statFault (faults w) filePath with
      | Some msg => (PathFailed msg, w)
      | None =>
          match disk w !! filePath with
          | Some f => (Utiming playerUrl filePath (clock w) (default (clock w) (mtime f)), w)
          | None => (Fetching playerUrl filePath, w)
          end
      end
  | Utiming playerUrl filePath a m =>
      match utimeFault (faults w) filePath with
      | Some msg => (PathFailed msg, w)
      | None =>
          match disk w !! filePath with
          | Some f =>
              (PathReady filePath,
               set_disk w (<[filePath := {| content := content f; atime := Some a;
                                            mtime := Some m; birthtime := birthtime f |}]>
                             (disk w)))
          | None => (Fetching playerUrl filePath, w)
          end
      end
  | Fetching playerUrl filePath =>
      match fetch playerUrl with
      | JS.Returned (status, body) =>
          if ok status then (ReadingBody playerUrl filePath body, count_fetch w)
          else (PathFailed ("Failed to fetch player from " ++ playerUrl ++ ": " ++
                            showStatus status),
                count_fetch w)
      | JS.Threw msg => (PathFailed msg, w)
      end
  | ReadingBody playerUrl filePath body =>
      match textFault (faults w) playerUrl with
      | Some msg => (PathFailed msg, w)
      | None => (Writing playerUrl filePath body, w)
      end
  | Writing playerUrl filePath playerContent =>
      match writeFault (faults w) filePath with
      | Some (msg, Some partial) => (PathFailed msg, set_disk w (written filePath partial w))
      | Some (msg, None) => (PathFailed msg, w)
      | None => (Listing filePath, set_disk w (written filePath playerContent w))
      end
  | Listing filePath =>
      match readDirFault (faults w) with
      | Some msg => (PathFailed msg, w)
      | None => (PathReady filePath, set_playerGauge w (Z.of_nat (size (disk w))))
      end
  | PathReady filePath => (PathReady filePath, w)
  | PathFailed msg => (PathFailed msg, w)
  end.

(** [getFromPrepared], then the store into the solver cache. *)
Definition extractSolvers (key preprocessedPlayer : string) (w : World) : task * World :=
  match getFromPrepared preprocessedPlayer with
  | JS.Returned (Some solvers) =>
      (Done (Some solvers),
       set_solverCache w (InstrumentedLRU.set (clock w) key solvers (solverCache w)))
  | JS.Returned None => (Done None, w)
  | JS.Threw msg => (Failed msg, w)
  end.

(** [getSolvers] from the return of [getPlayerFilePath] on. *)
Definition resume (key : string) (w : World) : task * World :=
  let '(solvers, sc) := InstrumentedLRU.get (clock w) key (solverCache w) in
  let w1 := set_solverCache w sc in
  match solvers with
  | Some s => (Done (Some s), w1)
  | None =>
      let '(pp, pc) := InstrumentedLRU.get (clock w1) key (preprocessedCache w1) in
      let w2 := set_preprocessedCache w1 pc in
      if JS.truthy_opt pp then extractSolvers key (default "" pp) w2
      else (ReadingFile key, w2)
  end.

Definition step (t : task) (w : World) : task * World :=
  match t with
  | InGetPlayerFilePath (PathReady filePath) => resume filePath w
  | InGetPlayerFilePath (PathFailed msg) => (Failed msg, w)
  | InGetPlayerFilePath p =>
      let '(p', w') := stepPath p w in (InGetPlayerFilePath p', w')
  | ReadingFile key =>
      match disk w !! key with
      | Some f => (Pooling key (content f), w)
      | None => (Failed "NotFound", w)
      end
  | Pooling key rawPlayer =>
      let w1 := count_poolRun w in
      match execInPool rawPlayer with
      | JS.Returned preprocessedPlayer =>
          extractSolvers key preprocessedPlayer
            (set_preprocessedCache w1
               (InstrumentedLRU.set (clock w1) key preprocessedPlayer (preprocessedCache w1)))
      | JS.Threw msg => (Failed msg, w1)
      end
  | Done r => (Done r, w)
  | Failed msg => (Failed msg, w)
  end.

Fixpoint runPath (fuel : nat) (t : pathTask) (w : World) : pathTask * World :=
  match fuel with
  | O => (t, w)
  | S fuel' => let '(t', w') := stepPath t w in runPath fuel' t' w'
  end.

Fixpoint run (fuel : nat) (t : task) (w : World) : task * World :=
  match fuel with
  | O => (t, w)
  | S fuel' => let '(t', w') := step t w in run fuel' t' w'
  end.

(** [await getPlayerFilePath(playerUrl)] with no other task in between. *)
Definition getPlayerFilePath (playerUrl : string) (w : World)
  : JS.outcome string * World :=
  match runPath 7 (Hashing playerUrl) w with
  | (PathReady filePath, w') => (JS.Returned filePath, w')
  | (PathFailed msg, w') => (JS.Threw msg, w')
  | (_, w') => (JS.Threw "pending", w')
  end.

(** [await getSolvers(player_url)] with no other task in between. *)
Definition getSolvers (player_url : string) (w : World)
  : JS.outcome (option Solvers) * World :=
  match run 11 (InGetPlayerFilePath (Hashing player_url)) w with
  | (Done r, w') => (JS.Returned r, w')
  | (Failed msg, w') => (JS.Threw msg, w')
  | (_, w') => (JS.Threw "pending", w')
  end.

(** *** Concurrent calls

    A schedule advances the clock or lets one of the suspended calls take
    its next step. *)
Inductive event : Type :=
| Tick (t : Z)
| Step (i : nat).

Definition exec1 (s : list task * World) (e : event) : list task * World :=
  match e with
  | Tick t => (fst s, set_clock (snd s) t)
  | Step i =>
      match fst s !! i with
      | Some t => let '(t', w') := step t (snd s) in (<[i := t']> (fst s), w')
      | None => s
      end
  end.

Definition exec (sched : list event) (s : list task * World) : list task * World :=
  foldl exec1 s sched.

Definition finished (t : task) : bool :=
  match t with Done _ | Failed _ => true | _ => false end.

(** The call is inside the fetch, preprocess and extract pipeline: it has
    found the file or the caches wanting and has not returned yet. *)
Definition inFlight (t : task) : bool :=
  match t with
  | InGetPlayerFilePath (Fetching _ _) | InGetPlayerFilePath (ReadingBody _ _ _)
  | InGetPlayerFilePath (Writing _ _ _) | InGetPlayerFilePath (Listing _)
  | ReadingFile _ | Pooling _ _ => true
  | _ => false
  end.

End pipeline.

(** The fetches and pool runs a call may still make: one of each until it
    has made it or has gone past the point of making it. *)
Definition fetchBudget (t : task) : nat :=
  match t with
  | InGetPlayerFilePath (Hashing _) | InGetPlayerFilePath (Statting _ _)
  | InGetPlayerFilePath (Utiming _ _ _ _) | InGetPlayerFilePath (Fetching _ _) => 1
  | _ => 0
  end.

Definition poolBudget (t : task) : nat :=
  match t with
  | Done _ | Failed _ => 0
  | _ => 1
  end.

Definition total (f : task -> nat) (ts : list task) : nat :=
  foldr (fun t acc => (f t + acc)%nat) 0%nat ts.

(** The number of steps a call can still take. *)
Definition rankPath (t : pathTask) : nat :=
  match t with
  | Hashing _ => 7
  | Statting _ _ => 6
  | Utiming _ _ _ _ => 5
  | Fetching _ _ => 4
  | ReadingBody _ _ _ => 3
  | Writing _ _ _ => 2
  | Listing _ => 1
  | PathReady _ | PathFailed _ => 0
  end.

Definition rank (t : task) : nat :=
  match t with
  | InGetPlayerFilePath (PathFailed _) => 1
  | InGetPlayerFilePath p => 3 + rankPath p
  | ReadingFile _ => 2
  | Pooling _ _ => 1
  | Done _ | Failed _ => 0
  end.

End Pipeline.

(** ** src/playerCache.ts: [initializeCache] *)

Module PlayerCache.

(** An entry yielded by [Deno.readDir(CACHE_DIR)], with its [Deno.stat]. *)
Record DirEntry : Type := {
  name : string;
  isFile : bool;
  stat : File
}.

Definition fourteenDays : Z := 14 * 24 * 60 * 60 * 1000.

(** [stat.atime?.getTime() ?? stat.mtime?.getTime() ?? stat.birthtime?.getTime()] *)
Definition lastAccessed (f : File) : option Z :=
  match atime f with
  | Some t => Some t
  | None => match mtime f with
            | Some t => Some t
            | None => birthtime f
            end
  end.

(** [lastAccessed && (Date.now() - lastAccessed > fourteenDays)] *)
Definition stale (now : Z) (f : File) : bool :=
  match lastAccessed f with
  | Some t => negb (t =? 0) && (now - t >? fourteenDays)
  | None => false
  end.

(** The entry at position [i] of the listing is a file found stale. *)
Definition doomed (dateNow : nat -> Z) (i : nat) (e : DirEntry) : bool :=
  isFile e && stale (dateNow i) (stat e).

(** The outcome of the start-up sweep: the entries left in the directory,
    the names removed, and the value set on [cache_size{player}]. *)
Record Swept : Type := {
  kept : list DirEntry;
  removed : list string;
  fileCount : Z
}.

(** The loop over the directory; [dateNow i] is the [Date.now()] read
    while the entry at position [i] is handled. *)
Fixpoint sweep (dateNow : nat -> Z) (i : nat) (entries : list DirEntry) (count : Z)
  : Swept :=
  match entries with
  | [] => {| kept := []; removed := []; fileCount := count |}
  | e :: rest =>
      if isFile e then
        if stale (dateNow i) (stat e) then
          let r := sweep dateNow (S i) rest count in
          {| kept := kept r; removed := name e :: removed r; fileCount := fileCount r |}
        else
          let r := sweep dateNow (S i) rest (count + 1) in
          {| kept := e :: kept r; removed := removed r; fileCount := fileCount r |}
      else
        let r := sweep dateNow (S i) rest count in
        {| kept := e :: kept r; removed := removed r; fileCount := fileCount r |}
  end.

Definition initializeCache (dateNow : nat -> Z) (entries : list DirEntry) : Swept :=
  sweep dateNow 0 entries 0.

(** The newest of the three times of a file, as the specification words
    the retention rule; [None] when the file has none. *)
Definition newest (f : File) : option Z :=
  match omap id [atime f; mtime f; birthtime f] with
  | [] => None
  | t :: ts => Some (foldr Z.max t ts)
  end.

End PlayerCache.

(** ** [URLSearchParams] *)

Module URLSearchParams.

Fixpoint get (name : string) (l : list (string * string)) : option string :=
  match l with
  | [] => None
  | (k, v) :: l' => if String.eqb k name then Some v else get name l'
  end.

Fixpoint getAll (name : string) (l : list (string * string)) : list string :=
  match l with
  | [] => []
  | (k, v) :: l' => if String.eqb k name then v :: getAll name l' else getAll name l'
  end.

Fixpoint delete (name : string) (l : list (string * string)) : list (string * string) :=
  match l with
  | [] => []
  | (k, v) :: l' =>
      if String.eqb k name then delete name l' else (k, v) :: delete name l'
  end.

(** The first pair of that name takes the value and the others go; with no
    such pair the new one is appended. *)
Fixpoint set (name value : string) (l : list (string * string)) : list (string * string) :=
  match l with
  | [] => [(name, value)]
  | (k, v) :: l' =>
      if String.eqb k name then (name, value) :: delete name l'
      else (k, v) :: set name value l'
  end.

End URLSearchParams.

(** A parsed [URL]: what precedes the query, the query pairs, the fragment. *)
Record URL : Type := {
  base : string;
  searchParams : list (string * string);
  hash : string
}.

Definition with_searchParams (u : URL) (l : list (string * string)) : URL :=
  {| base := base u; searchParams := l; hash := hash u |}.

(** ** The regular expressions of the STS scan *)

Module Regex.

(** [\s], for code units below 256 *)
Definition is_space (ch : ascii) : bool :=
  let k := nat_of_ascii ch in
  ((9 <=? k) && (k <=? 13) || (k =? 32) || (k =? 160))%nat.

(** [\d] *)
Definition is_digit (ch : ascii) : bool :=
  let k := nat_of_ascii ch in ((48 <=? k) && (k <=? 57))%nat.

(** The pieces the seven patterns are made of. *)
Inductive atom : Type :=
| Lit (s : string)
| Alt (a b : string)
| Spaces
| Digits.

(** The rest of [s] after the literal [l], when [s] begins with it. *)
Fixpoint strip (l s : string) : option string :=
  match l with
  | EmptyString => Some s
  | String a l' =>
      match s with
      | EmptyString => None
      | String b s' => if Ascii.eqb a b then strip l' s' else None
      end
  end.

Section matcher.
Context {A : Type}.

(** [\s*] followed by [k]: the longest run first, then shorter ones. *)
Fixpoint starSpaces (k : string -> option A) (s : string) : option A :=
  match s with
  | String ch s' =>
      if is_space ch then
        match starSpaces k s' with
        | Some r => Some r
        | None => k s
        end
      else k s
  | EmptyString => k s
  end.

(** The digits after a first one, [acc] being those already taken. *)
Fixpoint moreDigits (k : string -> string -> option A) (acc s : string) : option A :=
  match s with
  | String ch s' =>
      if is_digit ch then
        match moreDigits k (acc ++ String ch "") s' with
        | Some r => Some r
        | None => k acc s
        end
      else k acc s
  | EmptyString => k acc s
  end.

(** [(\d+)] followed by [k], which receives the captured digits. *)
Definition plusDigits (k : string -> string -> option A) (s : string) : option A :=
  match s with
  | String ch s' => if is_digit ch then moreDigits k (String ch "") s' else None
  | EmptyString => None
  end.

End matcher.

(** A match of the pattern at the start of [s]: the capture group. *)
Fixpoint matchAt (p : list atom) (cap : option string) (s : string)
  : option (option string) :=
  match p with
  | [] => Some cap
  | Lit l :: p' =>
      match strip l s with
      | Some s' => matchAt p' cap s'
      | None => None
      end
  | Alt a b :: p' =>
      match match strip a s with
            | Some s' => matchAt p' cap s'
            | None => None
            end with
      | Some r => Some r
      | None =>
          match strip b s with
          | Some s' => matchAt p' cap s'
          | None => None
          end
      end
  | Spaces :: p' => starSpaces (matchAt p' cap) s
  | Digits :: p' => plusDigits (fun d s' => matchAt p' (Some d) s') s
  end.

(** [s.match(p)] for a pattern without the [g] flag: the leftmost match;
    the result is [match[1]]. *)
Fixpoint search (p : list atom) (s : string) : option (option string) :=
  match matchAt p None s with
  | Some r => Some r
  | None =>
      match s with
      | String _ s' => search p s'
      | EmptyString => None
      end
  end.

End Regex.

(** [parseInt(s, 10)]: leading white space, a sign, then the longest run
    of digits; [None] is [NaN].  The integer is exact, which agrees with
    the double on every comparison against 9999999999. *)
Module ParseInt.

Fixpoint skipSpaces (s : string) : string :=
  match s with
  | String ch s' => if Regex.is_space ch then skipSpaces s' else s
  | EmptyString => s
  end.

Fixpoint digits (acc : Z) (seen : bool) (s : string) : option Z :=
  match s with
  | String ch s' =>
      if Regex.is_digit ch
      then digits (acc * 10 + (Z.of_nat (nat_of_ascii ch) - 48)) true s'
      else if seen then Some acc else None
  | EmptyString => if seen then Some acc else None
  end.

Definition parseInt (s : string) : option Z :=
  match skipSpaces s with
  | String "-" r => Z.opp <$> digits 0 false r
  | String "+" r => digits 0 false r
  | r => digits 0 false r
  end.

End ParseInt.

(** ** src/handlers

    Of a response the status, the [X-Cache-Hit] header and the body are
    kept; the fields [timestamp], [processing_time_ms] and [request_id]
    are left out. *)

Module Handlers.

(** An element of [results] in the answer of [/batch_decrypt]. *)
Record BatchResult : Type := {
  r_encrypted_signature : option string;
  r_n_param : option string;
  r_player_url : option string;
  r_decrypted_signature : option string;
  r_decrypted_n_sig : option string;
  r_success : bool;
  r_error : option string
}.

Inductive Body : Type :=
| ApiError (error code : string)
| PlainError (error : string)
| Decrypted (decrypted_signature decrypted_n_sig : string) (success : bool)
| Sts (sts : string)
| Resolved (resolved_url : URL) (success : bool)
| Batch (results : list BatchResult) (success : bool) (total successful failed : Z)
| Cleared (cleared_caches : list string) (cache_count : Z) (clear_all success : bool).

Record Response : Type := {
  status : Z;
  body : Body;
  xCacheHit : option string
}.

Definition respond (status : Z) (body : Body) : Response :=
  {| status := status; body := body; xCacheHit := None |}.

(** *** clearCache.ts *)

(** [ClearCacheRequest], as it arrives *)
Record ClearCacheRequest : Type := {
  cache_type : option string;
  clear_all : option bool
}.

Definition handleClearCache (clearRequest : ClearCacheRequest) : Response :=
  let clearAll :=
    match clear_all clearRequest with Some true => true | _ => false end
    || match cache_type clearRequest with
       | Some ty => String.eqb ty "all"
       | None => false
       end in
  let done (clearedCaches : list string) :=
    respond 200 (Cleared clearedCaches (Z.of_nat (length clearedCaches)) clearAll true) in
  if clearAll then
    done ["player_cache"; "solver_cache"; "preprocessed_cache"; "sts_cache"]
  else
    match cache_type clearRequest with
    | Some "player" => done ["player_cache"]
    | Some "solver" => done ["solver_cache"]
    | Some "preprocessed" => done ["preprocessed_cache"]
    | Some "sts" => done ["sts_cache"]
    | _ =>
        respond 400
          (ApiError "Invalid cache type. Must be one of: all, player, solver, preprocessed, sts"
                    "INVALID_REQUEST")
    end.

(** *** batchDecrypt.ts *)

(** A request object with the fields the signature handlers read, as the
    request types declare them. *)
Record SignatureRequest : Type := {
  encrypted_signature : option string;
  n_param : option string;
  player_url : option string
}.

(** An element of [signatures], as it arrives: [null], or a value whose
    fields can be read (a value that is no object has none of them). *)
Inductive BatchElement : Type :=
| NullElement
| Element (sig : SignatureRequest).

(** [BatchDecryptRequest]; [None] is a missing [signatures] field or one
    that is not an array. *)
Record BatchDecryptRequest : Type := {
  signatures : option (list BatchElement)
}.

(** [!sig.encrypted_signature || !sig.n_param || !sig.player_url] *)
Definition incomplete (sig : SignatureRequest) : bool :=
  negb (JS.truthy_opt (encrypted_signature sig)) ||
  negb (JS.truthy_opt (n_param sig)) ||
  negb (JS.truthy_opt (player_url sig)).

(** How the validation loop ends: past the last element, at the first
    element that lacks a field, or at a [null], where reading
    [sig.encrypted_signature] throws. *)
Inductive validated : Type :=
| Complete (sigs : list SignatureRequest)
| IncompleteAt (i : nat)
| ThrowsAt (i : nat).

Fixpoint validate (i : nat) (sigs : list BatchElement) : validated :=
  match sigs with
  | [] => Complete []
  | NullElement :: _ => ThrowsAt i
  | Element sig :: rest =>
      if incomplete sig then IncompleteAt i
      else match validate (S i) rest with
           | Complete l => Complete (sig :: l)
           | r => r
           end
  end.

Definition simulate (sig : SignatureRequest) : BatchResult :=
  {| r_encrypted_signature := encrypted_signature sig;
     r_n_param := n_param sig;
     r_player_url := player_url sig;
     r_decrypted_signature := Some ("decrypted_" ++ default "" (encrypted_signature sig));
     r_decrypted_n_sig := Some ("decrypted_" ++ default "" (n_param sig));
     r_success := true;
     r_error := None |}.

Definition handleBatchDecrypt (batchRequest : BatchDecryptRequest) : Response :=
  match signatures batchRequest with
  | None => respond 400 (ApiError "signatures array is required" "INVALID_REQUEST")
  | Some sigs =>
      match validate 0 sigs with
      | IncompleteAt i =>
          respond 400
            (ApiError ("Invalid signature object at index " ++
                       DecimalString.NilEmpty.string_of_uint (Nat.to_uint i))
                      "INVALID_REQUEST")
      | ThrowsAt _ =>
          respond 500 (ApiError "Batch decrypt processing failed" "PROCESSING_ERROR")
      | Complete l =>
          let results := map simulate l in
          let total := Z.of_nat (length sigs) in
          let successCount := Z.of_nat (length (filter (fun r => r_success r = true) results)) in
          respond 200 (Batch results true total successCount (total - successCount))
      end
  end.

Section solving.
Variable sha256hex : string -> string.
Variable fetch : string -> JS.outcome (Z * string).
Variable execInPool : string -> JS.outcome string.
Variable getFromPrepared : string -> JS.outcome (option Solvers).
(** [new URL(s)] of the platform; [None] when it throws. *)
Variable parseURL : string -> option URL.

Abbreviation getSolvers := (Pipeline.getSolvers sha256hex fetch execInPool getFromPrepared).
Abbreviation getPlayerFilePath := (Pipeline.getPlayerFilePath sha256hex fetch).

(** *** decryptSignature.ts *)

(** The field is the solver's answer when the token is given, the solver
    exists and it does not throw; the empty string otherwise. *)
Definition solveField (token : option string)
    (solver : option (string -> JS.outcome string)) : string :=
  match token, solver with
  | Some tok, Some f =>
      if JS.truthy tok then
        match f tok with
        | JS.Returned v => v
        | JS.Threw _ => ""
        end
      else ""
  | _, _ => ""
  end.

Definition handleDecryptSignature (req : SignatureRequest) (w : World)
  : Response * World :=
  match player_url req with
  | Some url =>
      if JS.truthy url then
        match getSolvers url w with
        | (JS.Returned (Some solvers), w') =>
            let decrypted_signature :=
              solveField (encrypted_signature req) (Types.sig solvers) in
            let decrypted_n_sig := solveField (n_param req) (Types.n solvers) in
            (respond 200 (Decrypted decrypted_signature decrypted_n_sig true), w')
        | (JS.Returned None, w') =>
            (respond 500 (ApiError "Failed to generate solvers from player script"
                                   "SOLVER_GENERATION_FAILED"), w')
        | (JS.Threw _, w') =>
            (respond 500 (ApiError "Signature decryption failed" "DECRYPTION_ERROR"), w')
        end
      else (respond 400 (ApiError "player_url is required" "MISSING_PLAYER_URL"), w)
  | None => (respond 400 (ApiError "player_url is required" "MISSING_PLAYER_URL"), w)
  end.

(** *** resolveUrl.ts *)

Record ResolveUrlRequest : Type := {
  stream_url : option string;
  rplayer_url : option string;
  rencrypted_signature : option string;
  signature_key : option string;
  rn_param : option string
}.

(** The signature step on the parsed URL: [None] is the early return for
    a missing solver. *)
Definition applySignature (req : ResolveUrlRequest) (solvers : Solvers) (url : URL)
  : option URL :=
  match rencrypted_signature req with
  | Some enc =>
      if JS.truthy enc then
        match Types.sig solvers with
        | None => None
        | Some f =>
            match f enc with
            | JS.Returned decryptedSig =>
                let sigKey := JS.or_else (signature_key req) "sig" in
                Some (with_searchParams url
                        (URLSearchParams.delete "s"
                           (URLSearchParams.set sigKey decryptedSig (searchParams url))))
            | JS.Threw _ => Some url
            end
        end
      else Some url
  | None => Some url
  end.

(** [nParamFromRequest || null], else [url.searchParams.get("n")] *)
Definition effectiveN (req : ResolveUrlRequest) (url : URL) : option string :=
  if JS.truthy_opt (rn_param req) then rn_param req
  else URLSearchParams.get "n" (searchParams url).

Definition applyN (req : ResolveUrlRequest) (solvers : Solvers) (url : URL) : URL :=
  match Types.n solvers, effectiveN req url with
  | Some f, Some nParam =>
      if JS.truthy nParam then
        match f nParam with
        | JS.Returned decryptedN =>
            with_searchParams url (URLSearchParams.set "n" decryptedN (searchParams url))
        | JS.Threw _ => url
        end
      else url
  | _, _ => url
  end.

Definition handleResolveUrl (req : ResolveUrlRequest) (w : World) : Response * World :=
  if negb (JS.truthy_opt (stream_url req)) || negb (JS.truthy_opt (rplayer_url req)) then
    (respond 400 (ApiError "stream_url and player_url are required"
                           "MISSING_REQUIRED_PARAMS"), w)
  else
    match getSolvers (default "" (rplayer_url req)) w with
    | (JS.Returned (Some solvers), w') =>
        match parseURL (default "" (stream_url req)) with
        | Some url =>
            match applySignature req solvers url with
            | Some url1 => (respond 200 (Resolved (applyN req solvers url1) true), w')
            | None =>
                (respond 500 (ApiError "No signature solver found for this player"
                                       "NO_SIGNATURE_SOLVER"), w')
            end
        | None => (respond 500 (ApiError "URL resolution failed" "RESOLUTION_ERROR"), w')
        end
    | (JS.Returned None, w') =>
        (respond 500 (ApiError "Failed to generate solvers from player script"
                               "SOLVER_GENERATION_FAILED"), w')
    | (JS.Threw _, w') =>
        (respond 500 (ApiError "URL resolution failed" "RESOLUTION_ERROR"), w')
    end.

(** *** getSts.ts *)

Definition dq : string := String (ascii_of_nat 34) "".

(** The patterns, in the order they are tried. *)
Definition patterns : list (list Regex.atom) :=
  [ [Regex.Alt "signatureTimestamp" "sts"; Regex.Lit ":"; Regex.Spaces; Regex.Digits];
    [Regex.Lit (dq ++ "signatureTimestamp" ++ dq ++ ":"); Regex.Spaces; Regex.Digits];
    [Regex.Lit "'signatureTimestamp':"; Regex.Spaces; Regex.Digits];
    [Regex.Lit "signatureTimestamp"; Regex.Spaces; Regex.Lit "="; Regex.Spaces; Regex.Digits];
    [Regex.Lit "sts"; Regex.Spaces; Regex.Lit "="; Regex.Spaces; Regex.Digits];
    [Regex.Lit (dq ++ "sts" ++ dq ++ ":"); Regex.Spaces; Regex.Digits];
    [Regex.Lit "'sts':"; Regex.Spaces; Regex.Digits] ].

(** The loop over the patterns: the first with [match && match[1]]. *)
Fixpoint firstMatch (ps : list (list Regex.atom)) (playerContent : string)
  : option string :=
  match ps with
  | [] => None
  | p :: ps' =>
      match Regex.search p playerContent with
      | Some (Some m1) => if JS.truthy m1 then Some m1 else firstMatch ps' playerContent
      | _ => firstMatch ps' playerContent
      end
  end.

(** [isNaN(stsNumber) || stsNumber < 0 || stsNumber > 9999999999] *)
Definition invalidSts (sts : string) : bool :=
  match ParseInt.parseInt sts with
  | None => true
  | Some stsNumber => (stsNumber <? 0) || (stsNumber >? 9999999999)
  end.

(** The handler once the cache has missed, on the script read from disk. *)
Definition scanPlayer (playerFilePath playerContent : string) (w : World)
  : Response * World :=
  if negb (JS.truthy playerContent) || (Z.of_nat (String.length playerContent) <? 1000) then
    (respond 500 (PlainError "Invalid or too short player content"), w)
  else
    match firstMatch patterns playerContent with
    | None =>
        (respond 404 (PlainError "Signature timestamp not found in player script"), w)
    | Some sts =>
        if invalidSts sts then
          (respond 400 (PlainError "Invalid signature timestamp value"), w)
        else
          ({| status := 200; body := Sts sts; xCacheHit := Some "false" |},
           set_stsCache w (InstrumentedLRU.set (clock w) playerFilePath sts (stsCache w)))
    end.

Definition handleGetSts (player_url : string) (w : World) : Response * World :=
  match getPlayerFilePath player_url w with
  | (JS.Returned playerFilePath, w1) =>
      let '(cachedSts, c) := InstrumentedLRU.get (clock w1) playerFilePath (stsCache w1) in
      let w2 := set_stsCache w1 c in
      match cachedSts with
      | Some sts =>
          if JS.truthy sts
          then ({| status := 200; body := Sts sts; xCacheHit := Some "true" |}, w2)
          else
            match disk w2 !! playerFilePath with
            | Some f => scanPlayer playerFilePath (content f) w2
            | None =>
                (respond 500 (PlainError "Internal server error during STS extraction"), w2)
            end
      | None =>
          match disk w2 !! playerFilePath with
          | Some f => scanPlayer playerFilePath (content f) w2
          | None =>
              (respond 500 (PlainError "Internal server error during STS extraction"), w2)
          end
      end
  | (JS.Threw _, w1) =>
      (respond 500 (PlainError "Internal server error during STS extraction"), w1)
  end.

End solving.

End Handlers.

(** ** The endpoint [/clear_cache] over the process state

    [handleClearCache] imports none of the caches: whatever it answers, the
    state is the one it was called in. *)

Definition clearCacheEndpoint (req : Handlers.ClearCacheRequest) (w : World)
  : Handlers.Response * World :=
  (Handlers.handleClearCache req, w).

(** A process with empty caches of capacity 10, at time 0. *)
Definition coldWorld : World :=
  {| clock := 0;
     disk := ∅;
     solverCache := InstrumentedLRU.new 0 "solver" 10
       {| InstrumentedLRU.cfg_maxSize := Some 10; InstrumentedLRU.cfg_ttl := Some 3600000;
          InstrumentedLRU.cfg_cleanupInterval := Some 300000 |};
     preprocessedCache := InstrumentedLRU.new 0 "preprocessed" 10
       {| InstrumentedLRU.cfg_maxSize := Some 10; InstrumentedLRU.cfg_ttl := Some 7200000;
          InstrumentedLRU.cfg_cleanupInterval := Some 300000 |};
     stsCache := InstrumentedLRU.new 0 "sts" 10
       {| InstrumentedLRU.cfg_maxSize := Some 10; InstrumentedLRU.cfg_ttl := Some 1800000;
          InstrumentedLRU.cfg_cleanupInterval := Some 300000 |};
     playerScriptFetches := 0;
     poolRuns := 0;
     playerGauge := 0;
     faults := noFaults |}.

(** ** A sample platform

    One player URL and one stream URL, with the collaborators the sources
    take from the platform or from modules outside the repository fixed to
    simple functions, for evaluating the model. *)

Module Sample.

Definition playerUrl : string := "https://www.youtube.com/s/player/abc/player.js".
Definition streamUrl : string := "https://rr.example/video?c=WEB&s=AA&n=BB".

Definition sha256hex (u : string) : string := "h" ++ u.

Definition fetch (u : string) : JS.outcome (Z * string) :=
  JS.Returned (200, "raw:" ++ u).

Definition execInPool (raw : string) : JS.outcome string :=
  JS.Returned ("pp:" ++ raw).

Definition sigSolver (s : string) : JS.outcome string := JS.Returned ("sig(" ++ s ++ ")").
Definition nSolver (s : string) : JS.outcome string := JS.Returned ("n(" ++ s ++ ")").
Definition throwing (s : string) : JS.outcome string := JS.Threw "solver failed".

Definition solvers : Solvers := {| Types.n := Some nSolver; Types.sig := Some sigSolver |}.

Definition getFromPrepared (pp : string) : JS.outcome (option Solvers) :=
  JS.Returned (Some solvers).

Definition throwingSolvers (pp : string) : JS.outcome (option Solvers) :=
  JS.Returned (Some {| Types.n := None; Types.sig := Some throwing |}).

Definition parseURL (s : string) : option URL :=
  if String.eqb s streamUrl
  then Some {| base := "https://rr.example/video";
               searchParams := [("c", "WEB"); ("s", "AA"); ("n", "BB")];
               hash := "" |}
  else None.

Definition atob (s : string) : JS.outcome string :=
  if String.eqb s "dXNlcjpzZWNyZXQ=" then JS.Returned "user:secret"
  else JS.Threw "InvalidCharacterError".

Fixpoint spaces (k : nat) : string :=
  match k with
  | O => ""
  | S k' => String " " (spaces k')
  end.

(** A player script of more than 1000 characters with its STS at the end. *)
Definition script : string := spaces 1000 ++ "signatureTimestamp:19999,".

Definition scriptFile : File :=
  {| content := script; atime := Some 0; mtime := Some 0; birthtime := Some 0 |}.

(** A cold process with the sample script in its player directory. *)
Definition worldWithScript : World :=
  set_disk coldWorld {[ Pipeline.filePathOf sha256hex playerUrl := scriptFile ]}.

Definition day : Z := 24 * 60 * 60 * 1000.

Definition oldEntry : PlayerCache.DirEntry :=
  {| PlayerCache.name := "old.js"; PlayerCache.isFile := true;
     PlayerCache.stat := {| content := "a"; atime := Some (1 * day);
                            mtime := Some (1 * day); birthtime := Some (1 * day) |} |}.

Definition freshEntry : PlayerCache.DirEntry :=
  {| PlayerCache.name := "fresh.js"; PlayerCache.isFile := true;
     PlayerCache.stat := {| content := "b"; atime := Some (20 * day);
                            mtime := Some (2 * day); birthtime := Some (2 * day) |} |}.

End Sample.

(** A non-empty run of decimal digits. *)
Fixpoint all_digits (s : string) : bool :=
  match s with
  | EmptyString => true
  | String ch s' => Regex.is_digit ch && all_digits s'
  end.

Definition decimal (s : string) : Prop := s <> "" /\ all_digits s = true.

(** The decimal numeral with the digits [ds], most significant first. *)
Abbreviation numeral ds :=
  (foldr (fun (d : Z) (s : string) => String (ascii_of_nat (48 + Z.to_nat d)) s) "" ds).

(** The characters of [s]. *)
Abbreviation chars s := (list_ascii_of_string s).

(** ** Counting the reads of a cache

    The number of [get] calls in a sequence of operations since the last
    [clear], starting from [acc]. *)
Definition getsSinceClear {T : Type} (acc : nat) (ops : list (InstrumentedLRU.op (T:=T)))
  : nat :=
  foldl (fun a o =>
           match o with
           | InstrumentedLRU.OpGet _ _ => S a
           | InstrumentedLRU.OpClear => 0%nat
           | _ => a
           end) acc ops.

(** ** String helpers of the platform *)

Module Str.

(** [s.trimStart()], [s.trimEnd()] and [s.trim()] *)
Fixpoint trimStart (s : string) : string :=
  match s with
  | String ch s' => if Regex.is_space ch then trimStart s' else s
  | EmptyString => s
  end.

Fixpoint trimEnd (s : string) : string :=
  match s with
  | EmptyString => ""
  | String ch s' =>
      let r := trimEnd s' in
      if Regex.is_space ch && String.eqb r "" then "" else String ch r
  end.

Definition trim (s : string) : string := trimEnd (trimStart s).

(** The string is empty or begins with a code unit that is no space. *)
Definition no_leading_space (s : string) : Prop :=
  match s with
  | EmptyString => True
  | String ch _ => Regex.is_space ch = false
  end.

(** The number of bytes of [s] in UTF-8, for code units below 256: one
    byte below 128, two from 128 on. *)
Fixpoint utf8Length (s : string) : Z :=
  match s with
  | EmptyString => 0
  | String ch s' => (if (nat_of_ascii ch <? 128)%nat then 1 else 2) + utf8Length s'
  end.

(** [s.split(',')[0]] *)
Fixpoint beforeComma (s : string) : string :=
  match s with
  | EmptyString => ""
  | String ch s' => if Ascii.eqb ch ","%char then "" else String ch (beforeComma s')
  end.

(** [Math.ceil(a / 1000)] for an integer [a]; the quotient of the doubles
    rounds to the same integer for every [a] a clock difference can be. *)
Definition ceilDiv1000 (a : Z) : Z := - ((- a) / 1000).

End Str.

(** ** src/middleware.ts: the rate limiter *)

Module RateLimit.

(** [{ count: number; resetTime: number }] *)
Record Bucket : Type := {
  count : Z;
  resetTime : Z
}.

(** [RateLimitConfig] *)
Record RateLimitConfig : Type := {
  windowMs : Z;
  maxRequests : Z;
  skipSuccessfulRequests : option bool;
  skipFailedRequests : option bool
}.

(** The headers [getClientIp] reads. *)
Record ClientHeaders : Type := {
  xForwardedFor : option string;
  xRealIp : option string;
  cfConnectingIp : option string
}.

(** [RateLimitStore.get]; [now] is the [Date.now()] it reads. *)
Definition get (now : Z) (key : string) (store : gmap string Bucket)
  : option Bucket * gmap string Bucket :=
  match store !! key with
  | Some entry =>
      if now >? resetTime entry then (None, delete key store) else (Some entry, store)
  | None => (None, store)
  end.

(** [RateLimitStore.set] *)
Definition set (key : string) (count resetTime : Z) (store : gmap string Bucket)
  : gmap string Bucket :=
  <[key := {| count := count; resetTime := resetTime |}]> store.

(** [RateLimitStore.increment]; [now] is its own reading of the clock and
    [nowGet] the one made inside [get]. *)
Definition increment (now nowGet : Z) (key : string) (windowMs : Z)
    (store : gmap string Bucket) : Bucket * gmap string Bucket :=
  let '(entry, store1) := get nowGet key store in
  match entry with
  | None =>
      let resetTime := now + windowMs in
      ({| count := 1; resetTime := resetTime |}, set key 1 resetTime store1)
  | Some e =>
      let newCount := count e + 1 in
      ({| count := newCount; resetTime := resetTime e |},
       set key newCount (resetTime e) store1)
  end.

(** The periodic task of [startCleanup], run at [now]. *)
Definition sweep (now : Z) (store : gmap string Bucket) : gmap string Bucket :=
  filter (fun kv => ~ (resetTime (snd kv) < now)) store.

Definition getClientIp (h : ClientHeaders) : string :=
  if JS.truthy_opt (cfConnectingIp h) then default "" (cfConnectingIp h)
  else if JS.truthy_opt (xRealIp h) then default "" (xRealIp h)
  else if JS.truthy_opt (xForwardedFor h)
       then Str.trim (Str.beforeComma (default "" (xForwardedFor h)))
       else "unknown".

(** What [withRateLimit] does with a request: answer 429, or hand it on
    with [ctx.rateLimitInfo] set. *)
Inductive verdict : Type :=
| Limited (retryAfter limit reset : Z)
| Forwarded (limit remaining reset : Z).

(** A request as the limiter sees it: the client headers, the pathname,
    and the three readings of the clock it may make. *)
Record Arrival : Type := {
  headers : ClientHeaders;
  path : string;
  atIncrement : Z;
  atGet : Z;
  atReject : Z
}.

Definition rateLimitKey (a : Arrival) : string :=
  getClientIp (headers a) ++ ":" ++ path a.

Definition withRateLimit (config : RateLimitConfig) (a : Arrival)
    (store : gmap string Bucket) : verdict * gmap string Bucket :=
  let '(b, store') :=
    increment (atIncrement a) (atGet a) (rateLimitKey a) (windowMs config) store in
  if count b >? maxRequests config then
    (Limited (Str.ceilDiv1000 (resetTime b - atReject a)) (maxRequests config) (resetTime b),
     store')
  else
    (Forwarded (maxRequests config) (Z.max 0 (maxRequests config - count b)) (resetTime b),
     store').

(** The verdict on the request that brings the count of its window, which
    ends at [reset], to [k]. *)
Definition verdictFor (config : RateLimitConfig) (reset k : Z) (a : Arrival) : verdict :=
  if k >? maxRequests config then
    Limited (Str.ceilDiv1000 (reset - atReject a)) (maxRequests config) reset
  else Forwarded (maxRequests config) (Z.max 0 (maxRequests config - k)) reset.

(** The limiter over the requests of a run, in order of arrival. *)
Fixpoint serve (config : RateLimitConfig) (arrivals : list Arrival)
    (store : gmap string Bucket) : list verdict * gmap string Bucket :=
  match arrivals with
  | [] => ([], store)
  | a :: rest =>
      let '(v, store1) := withRateLimit config a store in
      let '(vs, store2) := serve config rest store1 in
      (v :: vs, store2)
  end.

End RateLimit.

(** ** JSON values of a request body *)

Module Json.

(** A value of a parsed body, as far as the code tells values apart: a
    string, or anything else. *)
Inductive value : Type :=
| Str (s : string)
| Other.

(** [typeof v === 'string'] *)
Definition isString (v : value) : bool :=
  match v with Str _ => true | Other => false end.

End Json.

(** ** src/utils.ts *)

Module Utils.

(** What the code reads of [new URL(s)]. *)
Record ParsedUrl : Type := {
  protocol : string;
  hostname : string;
  pathname : string
}.

Definition ALLOWED_HOSTNAMES : list string :=
  ["youtube.com"; "www.youtube.com"; "m.youtube.com"].

(** [l.includes(s)] on an array of strings *)
Definition mem (s : string) (l : list string) : bool := existsb (String.eqb s) l.

(** [l.join(sep)] *)
Fixpoint join (sep : string) (l : list string) : string :=
  match l with
  | [] => ""
  | x :: rest =>
      match rest with
      | [] => x
      | _ => x ++ sep ++ join sep rest
      end
  end.

Section urls.
(** [new URL(s)] of the platform; [None] when it throws its [TypeError]. *)
Variable parse : string -> option ParsedUrl.

Definition validateAndNormalizePlayerUrl (playerUrl : Json.value) : JS.outcome string :=
  match playerUrl with
  | Json.Other => JS.Threw "Player URL is required and must be a string"
  | Json.Str s =>
      if negb (JS.truthy s) then JS.Threw "Player URL is required and must be a string"
      else
        let trimmedUrl := Str.trim s in
        if negb (JS.truthy trimmedUrl) then JS.Threw "Player URL cannot be empty"
        else if JS.startsWith trimmedUrl "/" then
          if JS.startsWith trimmedUrl "/s/player/"
          then JS.Returned ("https://www.youtube.com" ++ trimmedUrl)
          else JS.Threw ("Invalid player path: " ++ trimmedUrl)
        else
          match parse trimmedUrl with
          | None => JS.Threw ("Invalid URL format: " ++ trimmedUrl)
          | Some url =>
              if negb (mem (protocol url) ["http:"; "https:"])
              then JS.Threw ("Invalid protocol: " ++ protocol url)
              else if negb (mem (hostname url) ALLOWED_HOSTNAMES)
              then JS.Threw ("Player URL from invalid host: " ++ hostname url ++
                             ". Allowed hosts: " ++ join ", " ALLOWED_HOSTNAMES)
              else if negb (JS.includes (pathname url) "/player/") &&
                      negb (JS.includes (pathname url) "/s/player/")
              then JS.Threw ("Invalid player URL path: " ++ pathname url)
              else JS.Returned trimmedUrl
          end
  end.

End urls.

(** [calculateRetryAfter]; [now] is the [Date.now()] it reads. *)
Definition calculateRetryAfter (now _windowMs resetTime : Z) : Z :=
  let timeUntilReset := resetTime - now in
  Z.max 0 (Str.ceilDiv1000 timeUntilReset).

(** The numbers [formatUptime] prints, each with its unit letter, for a
    whole number of milliseconds that is not negative. *)
Definition uptimeFields (ms : Z) : list (Z * string) :=
  let seconds := ms / 1000 in
  let minutes := seconds / 60 in
  let hours := minutes / 60 in
  let days := hours / 24 in
  if days >? 0 then
    [(days, "d"); (hours mod 24, "h"); (minutes mod 60, "m"); (seconds mod 60, "s")]
  else if hours >? 0 then
    [(hours, "h"); (minutes mod 60, "m"); (seconds mod 60, "s")]
  else if minutes >? 0 then
    [(minutes, "m"); (seconds mod 60, "s")]
  else [(seconds, "s")].

Definition formatUptime (ms : Z) : string :=
  join " " (map (fun f => DecimalString.NilEmpty.string_of_uint (N.to_uint (Z.to_N (fst f)))
                          ++ snd f)
                (uptimeFields ms)).

(** The seconds a unit letter of [formatUptime] stands for. *)
Definition unitSeconds (u : string) : Z :=
  if String.eqb u "d" then 86400
  else if String.eqb u "h" then 3600
  else if String.eqb u "m" then 60
  else 1.

End Utils.

(** ** src/validation.ts *)

Module Validation.

(** [ValidationSchema]: the keys in the order of the literal, each with
    its check. *)
Definition ValidationSchema : Type := list (string * (Json.value -> bool)).

Definition signatureRequestSchema : ValidationSchema :=
  [("player_url", Json.isString)].

Definition stsRequestSchema : ValidationSchema :=
  [("player_url", Json.isString)].

Definition resolveUrlRequestSchema : ValidationSchema :=
  [("player_url", Json.isString); ("stream_url", Json.isString)].

Definition validateObject (obj : gmap string Json.value) (schema : ValidationSchema)
  : bool * list string :=
  let errors :=
    flat_map (fun kc : string * (Json.value -> bool) =>
                match obj !! fst kc with
                | Some v => if snd kc v then [] else ["'" ++ fst kc ++ "' is missing or invalid"]
                | None => ["'" ++ fst kc ++ "' is missing or invalid"]
                end) schema in
  (match errors with [] => true | _ => false end, errors).

(** What the wrapped handler's caller gets: the 400 of the validation, or
    the handler's own answer. *)
Inductive answer (R : Type) : Type :=
| BadRequest (error : string)
| FromHandler (r : R).
Arguments BadRequest {R} error.
Arguments FromHandler {R} r.

Section withValidation.
Variable parse : string -> option Utils.ParsedUrl.
Context {R : Type}.

(** [withValidation(handler)] on a request to [pathname] whose body is the
    object [body]; the handler is given the body as the wrapper leaves it. *)
Definition withValidation (handler : gmap string Json.value -> R)
    (pathname : string) (body : gmap string Json.value) : answer R :=
  let validated (schema : ValidationSchema) :=
    let '(isValid, errors) := validateObject body schema in
    if negb isValid then
      BadRequest ("Invalid request body: " ++ Utils.join ", " errors)
    else
      match body !! "player_url" with
      | Some v =>
          match Utils.validateAndNormalizePlayerUrl parse v with
          | JS.Returned normalizedUrl =>
              FromHandler (handler (<["player_url" := Json.Str normalizedUrl]> body))
          | JS.Threw msg => BadRequest msg
          end
      | None => FromHandler (handler body)
      end in
  if String.eqb pathname "/decrypt_signature" then validated signatureRequestSchema
  else if String.eqb pathname "/get_sts" then validated stsRequestSchema
  else if String.eqb pathname "/resolve_url" then validated resolveUrlRequestSchema
  else FromHandler (handler body).

End withValidation.

End Validation.

(** ** src/handlers/validateSignature.ts *)

Module ValidateSignature.

Record ValidateSignatureRequest : Type := {
  encrypted_signature : option string;
  player_url : option string
}.

(** The answer: the 400 for a missing field, or the 200 with the fields of
    its body. *)
Inductive Answer : Type :=
| Invalid_request
| Validation (is_valid : bool) (signature_type : string) (signature_length : Z)
    (player_url_valid length_check pattern_check player_url_check : bool).

(** A code unit of the class [[A-Za-z0-9+/=_-]] *)
Definition in_class (ch : ascii) : bool :=
  let k := nat_of_ascii ch in
  ((65 <=? k) && (k <=? 90) || (97 <=? k) && (k <=? 122) || (48 <=? k) && (k <=? 57) ||
   (k =? 43) || (k =? 47) || (k =? 61) || (k =? 95) || (k =? 45))%nat.

Fixpoint all_in_class (s : string) : bool :=
  match s with
  | EmptyString => true
  | String ch s' => in_class ch && all_in_class s'
  end.

(** [signature.match(/^[A-Za-z0-9+/=_-]+$/)] is not [null] *)
Definition matches (signature : string) : bool :=
  JS.truthy signature && all_in_class signature.

Definition handleValidateSignature (validateRequest : ValidateSignatureRequest) : Answer :=
  if negb (JS.truthy_opt (encrypted_signature validateRequest)) ||
     negb (JS.truthy_opt (player_url validateRequest))
  then Invalid_request
  else
    let signature := default "" (encrypted_signature validateRequest) in
    let len := Z.of_nat (String.length signature) in
    let '(isValid, signatureType) :=
      if (10 <=? len) && (len <=? 200) then
        if matches signature then
          (true, if len <=? 50 then "short" else if len <=? 100 then "medium" else "long")
        else (false, "unknown")
      else (false, "unknown") in
    let playerUrlValid :=
      JS.includes (default "" (player_url validateRequest)) "youtube.com/s/player/" ||
      JS.includes (default "" (player_url validateRequest)) "youtube.com/yts/jsbin/" in
    let '(isValid, signatureType) :=
      if negb playerUrlValid then (false, "invalid_player_url")
      else (isValid, signatureType) in
    Validation isValid signatureType len playerUrlValid
      ((10 <=? len) && (len <=? 200)) (matches signature) playerUrlValid.

End ValidateSignature.

(** ** server.ts: the running figures of the process *)

Module RealTime.

(** [realTimeData]; [averageResponseTime] is recomputed from
    [responseTimes] on every update and is left out, as is
    [activeConnections], which [updateRealTimeData] does not touch. *)
Record t : Type := {
  totalRequests : Z;
  errorCount : Z;
  lastRequestTime : Z;
  responseTimes : list Z
}.

Definition initial (start : Z) : t :=
  {| totalRequests := 0; errorCount := 0; lastRequestTime := start; responseTimes := [] |}.

(** [updateRealTimeData(responseTime, isError)]; [now] is the [Date.now()]
    it reads. *)
Definition updateRealTimeData (now responseTime : Z) (isError : bool) (d : t) : t :=
  let pushed := (responseTimes d ++ [responseTime])%list in
  let kept :=
    if (100 <? length pushed)%nat then drop (length pushed - 100) pushed else pushed in
  {| totalRequests := totalRequests d + 1;
     errorCount := if isError then errorCount d + 1 else errorCount d;
     lastRequestTime := now;
     responseTimes := kept |}.

(** A request as the figures see it: when it ended, how long it took and
    whether its status was 400 or more. *)
Record Served : Type := {
  endedAt : Z;
  took : Z;
  failed : bool
}.

Definition record (served : list Served) (d : t) : t :=
  foldl (fun d s => updateRealTimeData (endedAt s) (took s) (failed s) d) d served.

End RealTime.

(** ** src/middleware.ts: [composeMiddleware]

    With every option enabled, as [baseHandler] calls it, the layers run
    from the outside in: rate limit, logging, metrics, error handling,
    request id, CORS, security headers, authentication, handler.  Logging,
    request id and security headers always call the next layer and hand its
    response on.  [withMetrics] evaluates
    ['player_url' in ctx.body ? extractPlayerId(ctx.body.player_url) : 'unknown']
    before it calls the next layer, outside [withErrorHandling]: the [in]
    throws for a body that is not an object, and [extractPlayerId] throws
    from its [catch] block for a [player_url] that has no [match] method
    and does not print as a URL. *)

Module Compose.

(** A request with what the layers read of it. *)
Record Incoming : Type := {
  req : Server.Request;
  clientHeaders : RateLimit.ClientHeaders;
  (** whether the player id computed by [withMetrics] throws on the body *)
  playerIdThrows : bool;
  t_increment : Z;
  t_get : Z;
  t_reject : Z
}.

Definition arrivalOf (x : Incoming) : RateLimit.Arrival :=
  {| RateLimit.headers := clientHeaders x;
     RateLimit.path := Server.pathname (req x);
     RateLimit.atIncrement := t_increment x;
     RateLimit.atGet := t_get x;
     RateLimit.atReject := t_reject x |}.

(** The layer that answers: the limiter's 429, the 200 of [withCORS] to a
    preflight, the 401 of [withAuth], or the handler; [Thrown] is the
    exception of [withMetrics], which leaves the composed handler. *)
Inductive answer : Type :=
| TooMany (retryAfter : Z)
| Thrown
| Preflight
| Denied (a : Middleware.auth)
| Reached.

Section layers.
Variable atob : string -> JS.outcome string.

(** [withMetrics(... withCORS(withSecurityHeaders(withAuth(handler))))] *)
Definition behindLimit (env : Server.Env) (x : Incoming) : answer :=
  if playerIdThrows x then Thrown
  else if String.eqb (Server.method (req x)) "OPTIONS" then Preflight
  else
    match Middleware.withAuth atob env (req x) with
    | Middleware.Next => Reached
    | a => Denied a
    end.

Definition composeMiddleware (config : RateLimit.RateLimitConfig) (env : Server.Env)
    (x : Incoming) (store : gmap string RateLimit.Bucket)
  : answer * gmap string RateLimit.Bucket :=
  let '(v, store') := RateLimit.withRateLimit config (arrivalOf x) store in
  match v with
  | RateLimit.Limited retryAfter _ _ => (TooMany retryAfter, store')
  | RateLimit.Forwarded _ _ _ => (behindLimit env x, store')
  end.

(** The composed handler over the requests of a run, in order. *)
Fixpoint serve (config : RateLimit.RateLimitConfig) (env : Server.Env)
    (l : list Incoming) (store : gmap string RateLimit.Bucket)
  : list answer * gmap string RateLimit.Bucket :=
  match l with
  | [] => ([], store)
  | x :: rest =>
      let '(a, store1) := composeMiddleware config env x store in
      let '(answers, store2) := serve config env rest store1 in
      (a :: answers, store2)
  end.

End layers.

End Compose.

(** ** Sample inputs for the further properties *)

Module Probe.

(** A cache of capacity 2 and TTL 10 holding one entry put at time 0. *)
Definition smallCache : InstrumentedLRU.t string :=
  InstrumentedLRU.set 0 "k" "v"
    (InstrumentedLRU.new 0 "sts" 2
       {| InstrumentedLRU.cfg_maxSize := Some 2; InstrumentedLRU.cfg_ttl := Some 10;
          InstrumentedLRU.cfg_cleanupInterval := None |}).

(** Two requests a minute. *)
Definition limits : RateLimit.RateLimitConfig :=
  {| RateLimit.windowMs := 60000; RateLimit.maxRequests := 2;
     RateLimit.skipSuccessfulRequests := Some false;
     RateLimit.skipFailedRequests := Some false |}.

(** A request to [/get_sts] through a proxy, handled at time [t]. *)
Definition arrival (t : Z) : RateLimit.Arrival :=
  {| RateLimit.headers :=
       {| RateLimit.xForwardedFor := Some "10.0.0.1, 10.0.0.2";
          RateLimit.xRealIp := None; RateLimit.cfConnectingIp := None |};
     RateLimit.path := "/get_sts";
     RateLimit.atIncrement := t; RateLimit.atGet := t; RateLimit.atReject := t |}.

(** A store with one bucket for that client and path. *)
Definition bucketed (count resetTime : Z) : gmap string RateLimit.Bucket :=
  {[ RateLimit.rateLimitKey (arrival 0)
     := {| RateLimit.count := count; RateLimit.resetTime := resetTime |} ]}.

Definition parse (s : string) : option Utils.ParsedUrl :=
  if String.eqb s Sample.playerUrl
  then Some {| Utils.protocol := "https:"; Utils.hostname := "www.youtube.com";
               Utils.pathname := "/s/player/abc/player.js" |}
  else None.

(** The sample player URL with white space around it. *)
Definition paddedUrl : string := " " ++ Sample.playerUrl ++ " ".

(** A body with an empty [stream_url]. *)
Definition body : gmap string Json.value :=
  <["player_url" := Json.Str paddedUrl]>
    (<["stream_url" := Json.Str ""]>
       {[ "encrypted_signature" := Json.Str "AA" ]}).

(** The string a body holds at a key. *)
Definition stringAt (b : gmap string Json.value) (k : string) : option string :=
  match b !! k with
  | Some (Json.Str s) => Some s
  | _ => None
  end.

(** The requests read off a body all of whose fields are strings. *)
Definition signatureRequestOf (b : gmap string Json.value) : Handlers.SignatureRequest :=
  {| Handlers.encrypted_signature := stringAt b "encrypted_signature";
     Handlers.n_param := stringAt b "n_param";
     Handlers.player_url := stringAt b "player_url" |}.

Definition resolveUrlRequestOf (b : gmap string Json.value) : Handlers.ResolveUrlRequest :=
  {| Handlers.stream_url := stringAt b "stream_url";
     Handlers.rplayer_url := stringAt b "player_url";
     Handlers.rencrypted_signature := stringAt b "encrypted_signature";
     Handlers.signature_key := stringAt b "signature_key";
     Handlers.rn_param := stringAt b "n_param" |}.

(** A player script of 999 code units, the first of them [e] with an
    acute accent, which takes two bytes in UTF-8. *)
Definition accentedScript : string :=
  String (ascii_of_nat 233) (Sample.spaces 974 ++ "signatureTimestamp:19999").

(** A process with the given script in its player directory and the given
    STS cache. *)
Definition worldWith (script : string) (sts : InstrumentedLRU.t string) : World :=
  set_stsCache
    (set_disk coldWorld
       {[ Pipeline.filePathOf Sample.sha256hex Sample.playerUrl
          := {| content := script; atime := Some 0; mtime := Some 0; birthtime := Some 0 |} ]})
    sts.

(** An upstream that has no such player. *)
Definition fetch404 (u : string) : JS.outcome (Z * string) := JS.Returned (404, "").

(** A request to [/get_sts] at time [t], with the given method and
    [Authorization] header. *)
Definition incoming (method : string) (authorization : option string) (t : Z)
  : Compose.Incoming :=
  {| Compose.req :=
       {| Server.method := method; Server.pathname := "/get_sts";
          Server.authorization := authorization;
          Server.contentType := Some "application/json"; Server.bodyIsJson := true |};
     Compose.clientHeaders := RateLimit.headers (arrival t);
     Compose.playerIdThrows := false;
     Compose.t_increment := t; Compose.t_get := t; Compose.t_reject := t |}.

(** An environment with the token of [withAuth] set. *)
Definition secretEnv : Server.Env := {[ "RY4N" := "secret" ]}.

End Probe.

(* ===================================================================== *)
(** * Properties *)
(* ===================================================================== *)

Lemma truthy_nonempty s : JS.truthy s = true <-> s <> "".
Proof.
  unfold JS.truthy. destruct (String.eqb_spec s ""); simpl; split; congruence.
Qed.

(** ** Association lists of the LRU base class *)

Section lru_facts.
Context {T : Type}.
Implicit Types (l : list (string * T)) (k : string).

Lemma lookup_remove_key_eq k l : LRU.lookup k (LRU.remove_key k l) = None.
Proof.
  induction l as [|[k' v] l IH]; simpl; [done|].
  destruct (String.eqb_spec k k') as [->|Hne]; [done|].
  simpl. destruct (String.eqb_spec k k'); [congruence|done].
Qed.

Lemma lookup_remove_key_ne k k' l :
  k <> k' -> LRU.lookup k (LRU.remove_key k' l) = LRU.lookup k l.
Proof.
  intros Hne. induction l as [|[k0 v] l IH]; simpl; [done|].
  destruct (String.eqb_spec k' k0) as [->|Hne'].
  - destruct (String.eqb_spec k k0); [congruence|done].
  - simpl. by rewrite IH.
Qed.

Lemma lookup_take_Some k n l v :
  LRU.lookup k (take n l) = Some v -> LRU.lookup k l = Some v.
Proof.
  revert n. induction l as [|[k' w] l IH]; intros [|n]; simpl; try done.
  destruct (String.eqb k k'); [done|]. apply IH.
Qed.

End lru_facts.

(** ** The twin stores of [InstrumentedLRU] stay consistent *)

Section cache_facts.
Context {T : Type}.
Implicit Types (c : InstrumentedLRU.t T) (key : string).

Lemma consistent_new now name maxSize config :
  InstrumentedLRU.consistent (InstrumentedLRU.new (T:=T) now name maxSize config).
Proof. intros key v H. discriminate H. Qed.

Lemma consistent_delete key c :
  InstrumentedLRU.consistent c ->
  InstrumentedLRU.consistent (InstrumentedLRU.delete key c).
Proof.
  intros Hc key' v. unfold InstrumentedLRU.delete. simpl. intros Hl.
  destruct (decide (key' = key)) as [->|Hne].
  - by rewrite lookup_remove_key_eq in Hl.
  - rewrite lookup_remove_key_ne in Hl by done.
    destruct (Hc _ _ Hl) as [ts Hts]. exists ts.
    by rewrite lookup_delete_ne.
Qed.

Lemma consistent_super_get key c :
  InstrumentedLRU.consistent c ->
  InstrumentedLRU.consistent (snd (InstrumentedLRU.super_get key c)).
Proof.
  intros Hc key' v. unfold InstrumentedLRU.super_get, LRU.get.
  destruct (LRU.lookup key (LRU.items (InstrumentedLRU.lru c))) as [w|] eqn:Hk;
    simpl; [|apply Hc].
  destruct (String.eqb_spec key' key) as [->|Hne].
  - intros [= <-]. by apply Hc.
  - rewrite lookup_remove_key_ne by done. apply Hc.
Qed.

Lemma consistent_counters c h m o e :
  InstrumentedLRU.consistent c ->
  InstrumentedLRU.consistent (InstrumentedLRU.with_counters c h m o e).
Proof. intros Hc. exact Hc. Qed.

Lemma consistent_get now key c :
  InstrumentedLRU.consistent c ->
  InstrumentedLRU.consistent (snd (InstrumentedLRU.get now key c)).
Proof.
  intros Hc. unfold InstrumentedLRU.get.
  assert (Hd := consistent_delete key c Hc).
  assert (Hs := consistent_super_get key c Hc).
  destruct (InstrumentedLRU.entries c !! key) as [e|];
    [destruct (InstrumentedLRU.expired now c e)|].
  - simpl. exact Hd.
  - destruct (InstrumentedLRU.super_get key c) as [[w|] c1]; exact Hs.
  - destruct (InstrumentedLRU.super_get key c) as [[w|] c1]; exact Hs.
Qed.

Lemma consistent_set now key v c :
  InstrumentedLRU.consistent c ->
  InstrumentedLRU.consistent (InstrumentedLRU.set now key v c).
Proof.
  intros Hc key' w. unfold InstrumentedLRU.set, LRU.set. simpl. intros Hl.
  apply lookup_take_Some in Hl. simpl in Hl.
  destruct (String.eqb_spec key' key) as [->|Hne].
  - injection Hl as <-. exists now. by rewrite lookup_insert_eq.
  - rewrite lookup_remove_key_ne in Hl by done.
    destruct (Hc _ _ Hl) as [ts Hts]. exists ts.
    by rewrite lookup_insert_ne.
Qed.

Lemma consistent_clear c : InstrumentedLRU.consistent (InstrumentedLRU.clear c).
Proof. intros key v H. discriminate H. Qed.

Lemma consistent_has now key c :
  InstrumentedLRU.consistent c ->
  InstrumentedLRU.consistent (snd (InstrumentedLRU.has now key c)).
Proof.
  intros Hc. unfold InstrumentedLRU.has.
  assert (Hd := consistent_delete key c Hc).
  destruct (InstrumentedLRU.entries c !! key) as [e|];
    [destruct (InstrumentedLRU.expired now c e)|]; simpl; done.
Qed.

Lemma consistent_touch now key c :
  InstrumentedLRU.consistent c ->
  InstrumentedLRU.consistent (snd (InstrumentedLRU.touch now key c)).
Proof.
  intros Hc. unfold InstrumentedLRU.touch.
  destruct (InstrumentedLRU.entries c !! key) as [e|] eqn:He; simpl; [|done].
  intros key' v Hl. simpl in Hl. destruct (Hc _ _ Hl) as [ts Hts].
  destruct (decide (key' = key)) as [->|Hne].
  - exists now. simpl. rewrite lookup_insert_eq. rewrite He in Hts.
    injection Hts as ->. done.
  - exists ts. simpl. by rewrite lookup_insert_ne.
Qed.

Lemma consistent_cleanup now c :
  InstrumentedLRU.consistent c ->
  InstrumentedLRU.consistent (InstrumentedLRU.cleanup now c).
Proof.
  intros Hc. unfold InstrumentedLRU.cleanup.
  generalize (InstrumentedLRU.expiredKeys now c). intros keys.
  revert c Hc. induction keys as [|key keys IH]; intros c Hc; simpl.
  - exact Hc.
  - apply IH. by apply consistent_delete.
Qed.

Lemma consistent_run_op c (o : InstrumentedLRU.op) :
  InstrumentedLRU.consistent c ->
  InstrumentedLRU.consistent (InstrumentedLRU.run_op c o).
Proof.
  intros Hc. destruct o; simpl.
  - by apply consistent_get.
  - by apply consistent_set.
  - by apply consistent_delete.
  - apply consistent_clear.
  - by apply consistent_has.
  - by apply consistent_touch.
  - by apply consistent_cleanup.
Qed.

Lemma consistent_run (ops : list InstrumentedLRU.op) c :
  InstrumentedLRU.consistent c ->
  InstrumentedLRU.consistent (InstrumentedLRU.run ops c).
Proof.
  revert c. induction ops as [|o ops IH]; intros c Hc; simpl; [done|].
  apply IH. by apply consistent_run_op.
Qed.

(** An expired entry: [get] answers [undefined] and removes the key from
    both stores. *)
Lemma get_expired now key c e :
  InstrumentedLRU.entries c !! key = Some e ->
  InstrumentedLRU.ttl c < now - InstrumentedLRU.timestamp e ->
  let r := InstrumentedLRU.get now key c in
  fst r = None /\
  InstrumentedLRU.entries (snd r) !! key = None /\
  LRU.lookup key (LRU.items (InstrumentedLRU.lru (snd r))) = None.
Proof.
  intros He Hexp. unfold InstrumentedLRU.get. rewrite He.
  unfold InstrumentedLRU.expired.
  destruct (Z.gtb_spec (now - InstrumentedLRU.timestamp e) (InstrumentedLRU.ttl c));
    [|lia].
  simpl. split; [done|]. split.
  - apply lookup_delete_eq.
  - apply lookup_remove_key_eq.
Qed.

(** A held entry within its TTL: [get] answers the stored value. *)
Lemma get_fresh now key c e v :
  InstrumentedLRU.entries c !! key = Some e ->
  LRU.lookup key (LRU.items (InstrumentedLRU.lru c)) = Some v ->
  now - InstrumentedLRU.timestamp e <= InstrumentedLRU.ttl c ->
  fst (InstrumentedLRU.get now key c) = Some v.
Proof.
  intros He Hl Hfresh. unfold InstrumentedLRU.get. rewrite He.
  unfold InstrumentedLRU.expired.
  destruct (Z.gtb_spec (now - InstrumentedLRU.timestamp e) (InstrumentedLRU.ttl c));
    [lia|].
  unfold InstrumentedLRU.super_get, LRU.get. rewrite Hl. done.
Qed.

(** Whatever [get] answers is held, and its entry is within the TTL. *)
Lemma get_Some_inv now key c v :
  InstrumentedLRU.consistent c ->
  fst (InstrumentedLRU.get now key c) = Some v ->
  exists e, InstrumentedLRU.entries c !! key = Some e /\
    InstrumentedLRU.value e = v /\
    now - InstrumentedLRU.timestamp e <= InstrumentedLRU.ttl c.
Proof.
  intros Hc. unfold InstrumentedLRU.get.
  destruct (InstrumentedLRU.entries c !! key) as [e|] eqn:He.
  - unfold InstrumentedLRU.expired.
    destruct (Z.gtb_spec (now - InstrumentedLRU.timestamp e) (InstrumentedLRU.ttl c)).
    + simpl. discriminate.
    + unfold InstrumentedLRU.super_get, LRU.get.
      destruct (LRU.lookup key _) as [w|] eqn:Hl; simpl; [|discriminate].
      intros [= ->]. destruct (Hc _ _ Hl) as [ts Hts].
      rewrite He in Hts. injection Hts as ->. exists (InstrumentedLRU.Entry v ts).
      simpl in *. split; [done|]. split; [done|lia].
  - unfold InstrumentedLRU.super_get, LRU.get.
    destruct (LRU.lookup key _) as [w|] eqn:Hl; simpl; [|discriminate].
    destruct (Hc _ _ Hl) as [ts Hts]. congruence.
Qed.

Lemma set_entry now key v c :
  InstrumentedLRU.entries (InstrumentedLRU.set now key v c) !! key
  = Some (InstrumentedLRU.Entry v now).
Proof. unfold InstrumentedLRU.set. simpl. apply lookup_insert_eq. Qed.

End cache_facts.

Lemma ttl_get {T} now key (c : InstrumentedLRU.t T) :
  InstrumentedLRU.ttl (snd (InstrumentedLRU.get now key c)) = InstrumentedLRU.ttl c /\
  LRU.maxSize (InstrumentedLRU.lru (snd (InstrumentedLRU.get now key c)))
  = LRU.maxSize (InstrumentedLRU.lru c).
Proof.
  unfold InstrumentedLRU.get, InstrumentedLRU.super_get, LRU.get.
  destruct (InstrumentedLRU.entries c !! key) as [e|];
    [destruct (InstrumentedLRU.expired now c e); [done|]|];
    by destruct (LRU.lookup key _).
Qed.

Lemma get_after_set {T} t1 t2 key (v : T) (c : InstrumentedLRU.t T) :
  1 <= LRU.maxSize (InstrumentedLRU.lru c) ->
  t2 - t1 <= InstrumentedLRU.ttl c ->
  fst (InstrumentedLRU.get t2 key (InstrumentedLRU.set t1 key v c)) = Some v.
Proof.
  intros Hcap Httl.
  apply (get_fresh t2 key _ (InstrumentedLRU.Entry v t1) v).
  - apply set_entry.
  - unfold InstrumentedLRU.set, LRU.set. simpl.
    destruct (Z.to_nat (LRU.maxSize (InstrumentedLRU.lru c))) as [|m] eqn:Hm; [lia|].
    simpl. by rewrite String.eqb_refl.
  - done.
Qed.

(** ** C9: expiry on read *)

Section cache_traces.
Context {T : Type}.
Implicit Types (c : InstrumentedLRU.t T) (key : string).

Lemma entries_delete_other key k c :
  InstrumentedLRU.entries (InstrumentedLRU.delete k c) !! key = None \/
  InstrumentedLRU.entries (InstrumentedLRU.delete k c) !! key
  = InstrumentedLRU.entries c !! key.
Proof.
  unfold InstrumentedLRU.delete. simpl.
  destruct (decide (k = key)) as [->|Hne].
  - left. apply lookup_delete_eq.
  - right. by apply lookup_delete_ne.
Qed.

Lemma entries_super_get key k c :
  InstrumentedLRU.entries (snd (InstrumentedLRU.super_get k c)) !! key
  = InstrumentedLRU.entries c !! key.
Proof.
  unfold InstrumentedLRU.super_get.
  destruct (LRU.get k (InstrumentedLRU.lru c)) as [r l]. done.
Qed.

Lemma entries_run_op key c (o : InstrumentedLRU.op) :
  InstrumentedLRU.writes key o = false ->
  InstrumentedLRU.entries (InstrumentedLRU.run_op c o) !! key = None \/
  InstrumentedLRU.entries (InstrumentedLRU.run_op c o) !! key
  = InstrumentedLRU.entries c !! key.
Proof.
  intros Hw. destruct o as [now k|now k v|k| |now k|now k|now]; simpl in *.
  - unfold InstrumentedLRU.get.
    pose proof (entries_delete_other key k c) as Hd.
    pose proof (entries_super_get key k c) as Hs.
    destruct (InstrumentedLRU.entries c !! k) as [e|];
      [destruct (InstrumentedLRU.expired now c e)|].
    + exact Hd.
    + right. destruct (InstrumentedLRU.super_get k c) as [[w|] c1]; exact Hs.
    + right. destruct (InstrumentedLRU.super_get k c) as [[w|] c1]; exact Hs.
  - right. unfold InstrumentedLRU.set. simpl.
    apply lookup_insert_ne. intros ->. by rewrite String.eqb_refl in Hw.
  - apply entries_delete_other.
  - left. unfold InstrumentedLRU.clear. simpl. apply lookup_empty.
  - unfold InstrumentedLRU.has.
    pose proof (entries_delete_other key k c) as Hd.
    destruct (InstrumentedLRU.entries c !! k) as [e|];
      [destruct (InstrumentedLRU.expired now c e)|]; simpl; auto.
  - right. unfold InstrumentedLRU.touch.
    destruct (InstrumentedLRU.entries c !! k) as [e|]; simpl; [|done].
    apply lookup_insert_ne. intros ->. by rewrite String.eqb_refl in Hw.
  - unfold InstrumentedLRU.cleanup. simpl.
    generalize (InstrumentedLRU.expiredKeys now c). intros keys.
    assert (forall c',
      InstrumentedLRU.entries c' !! key = None \/
      InstrumentedLRU.entries c' !! key = InstrumentedLRU.entries c !! key ->
      InstrumentedLRU.entries
        (foldl (fun acc k => InstrumentedLRU.delete k acc) c' keys) !! key = None \/
      InstrumentedLRU.entries
        (foldl (fun acc k => InstrumentedLRU.delete k acc) c' keys) !! key
      = InstrumentedLRU.entries c !! key) as Hfold.
    { induction keys as [|k keys IH]; intros c' Hc'; [exact Hc'|].
      cbn [foldl]. apply IH. destruct (entries_delete_other key k c') as [Hn|He]; [by left|].
      rewrite He. exact Hc'. }
    apply Hfold. by right.
Qed.

Lemma entries_run key (ops : list InstrumentedLRU.op) c :
  forallb (fun o => negb (InstrumentedLRU.writes key o)) ops = true ->
  InstrumentedLRU.entries (InstrumentedLRU.run ops c) !! key = None \/
  InstrumentedLRU.entries (InstrumentedLRU.run ops c) !! key
  = InstrumentedLRU.entries c !! key.
Proof.
  revert c. induction ops as [|o ops IH]; intros c Hall; simpl in *; [by right|].
  apply andb_prop in Hall as [Ho Hall]. apply negb_true_iff in Ho.
  destruct (IH (InstrumentedLRU.run_op c o) Hall) as [Hn|He]; [by left|].
  unfold InstrumentedLRU.run in *. rewrite He. by apply entries_run_op.
Qed.

(** C9.  For a cache in any state reached from its construction by any
    sequence of operations, and any key: a [get] made when
    [now - inserted_at > ttl] for the key's entry answers absent and deletes
    the entry; a [get] of a held entry within the TTL answers the stored
    value; a put leaves the entry with its value and [now] as insert time;
    hence whatever [get] answers has an entry whose insert time is at most
    [ttl] back, and that is the time of the last put of the key. *)
Theorem C9_get_respects_ttl
    (t0 : Z) (name : string) (maxSize : Z) (config : InstrumentedLRU.CacheConfig)
    (ops : list (InstrumentedLRU.op (T:=T))) (now : Z) (key : string) :
  let c := InstrumentedLRU.run ops (InstrumentedLRU.new t0 name maxSize config) in
  (forall e, InstrumentedLRU.entries c !! key = Some e ->
     InstrumentedLRU.ttl c < now - InstrumentedLRU.timestamp e ->
     fst (InstrumentedLRU.get now key c) = None /\
     InstrumentedLRU.entries (snd (InstrumentedLRU.get now key c)) !! key = None /\
     ~ InstrumentedLRU.holds (snd (InstrumentedLRU.get now key c)) key) /\
  (forall e, InstrumentedLRU.entries c !! key = Some e ->
     InstrumentedLRU.holds c key ->
     now - InstrumentedLRU.timestamp e <= InstrumentedLRU.ttl c ->
     fst (InstrumentedLRU.get now key c) = Some (InstrumentedLRU.value e)) /\
  (forall v, InstrumentedLRU.entries (InstrumentedLRU.set now key v c) !! key
     = Some (InstrumentedLRU.Entry v now)) /\
  (forall v, fst (InstrumentedLRU.get now key c) = Some v ->
     exists e, InstrumentedLRU.entries c !! key = Some e /\
       InstrumentedLRU.value e = v /\
       now - InstrumentedLRU.timestamp e <= InstrumentedLRU.ttl c) /\
  (forall (pre post : list InstrumentedLRU.op) t v w,
     ops = (pre ++ InstrumentedLRU.OpSet t key v :: post)%list ->
     forallb (fun o => negb (InstrumentedLRU.writes key o)) post = true ->
     fst (InstrumentedLRU.get now key c) = Some w ->
     w = v /\ now - t <= InstrumentedLRU.ttl c).
Proof.
  intros c.
  assert (Hc : InstrumentedLRU.consistent c).
  { apply consistent_run, consistent_new. }
  split; [|split; [|split; [|split]]].
  - intros e He Hexp.
    destruct (get_expired now key c e He Hexp) as (H1 & H2 & H3).
    split; [done|]. split; [done|].
    unfold InstrumentedLRU.holds. rewrite H3. by intros [? ?].
  - intros e He [v Hv] Hfresh.
    destruct (Hc _ _ Hv) as [ts Hts]. rewrite He in Hts. injection Hts as ->.
    by apply (get_fresh now key c _ v He Hv).
  - intros v. apply set_entry.
  - intros v. by apply get_Some_inv.
  - intros pre post t v w Hops Hpost Hget.
    destruct (get_Some_inv now key c w Hc Hget) as (e & He & Hv & Hfresh).
    set (c1 := InstrumentedLRU.set t key v
                 (InstrumentedLRU.run pre (InstrumentedLRU.new t0 name maxSize config))).
    assert (Hrun : c = InstrumentedLRU.run post c1).
    { unfold c, c1. rewrite Hops. unfold InstrumentedLRU.run. by rewrite foldl_app. }
    destruct (entries_run key post c1 Hpost) as [Hn|Hk]; rewrite <- Hrun in *.
    + congruence.
    + unfold c1 in Hk. rewrite set_entry in Hk. rewrite Hk in He.
      injection He as <-. simpl in *. done.
Qed.

End cache_traces.

(** ** C10 and C4: the token check *)

Section gate_facts.
Implicit Types (env : Server.Env) (req : Server.Request) (p t : string).

Lemma prefix_split p s : String.prefix p s = true -> exists r, s = p ++ r.
Proof.
  revert s. induction p as [|a p IH]; intros s Hp.
  - by exists s.
  - destruct s as [|b s]; simpl in Hp; [done|].
    destruct (ascii_dec a b) as [->|]; [|done].
    destruct (IH s Hp) as [r ->]. by exists r.
Qed.

Lemma core_path_cases p :
  Server.core_path p = true ->
  exists r, p = "/decrypt_signature" ++ r \/ p = "/get_sts" ++ r \/
    p = "/resolve_url" ++ r \/ p = "/batch_decrypt" ++ r \/
    p = "/validate_signature" ++ r \/ p = "/clear_cache" ++ r.
Proof.
  unfold Server.core_path, JS.startsWith. intros H.
  repeat (apply orb_prop in H as [H|H]);
    apply prefix_split in H as [r ->]; exists r; tauto.
Qed.

(** A path behind the token check is none of the paths served before it. *)
Lemma baseHandler_core env req :
  Server.core_path (Server.pathname req) = true ->
  forall r, Server.check_token env req = Some r -> Server.baseHandler env req = r.
Proof.
  intros Hcore r Hr. unfold Server.baseHandler. rewrite Hr.
  destruct (core_path_cases _ Hcore) as [s Hs].
  repeat (destruct Hs as [Hs|Hs]); rewrite Hs; simpl;
    by rewrite andb_false_r.
Qed.

Lemma baseHandler_core_pass env req :
  Server.core_path (Server.pathname req) = true ->
  Server.check_token env req = None ->
  Server.status (Server.baseHandler env req) <> 401.
Proof.
  intros Hcore Hr. unfold Server.baseHandler. rewrite Hr.
  destruct (core_path_cases _ Hcore) as [s Hs].
  assert (forall h : option Server.endpoint,
    Server.status
      match h with
      | None => Server.EndpointNotFound
      | Some h =>
          if String.eqb (Server.method req) "POST" then
            if negb (JS.includes (JS.or_else (Server.contentType req) "") "application/json")
            then Server.InvalidContentType
            else if Server.bodyIsJson req then Server.Composed h else Server.InvalidJson
          else Server.Composed h
      end <> 401) as Hrest.
  { intros [h|]; simpl; [|done].
    destruct (String.eqb _ "POST"); [|done].
    destruct (negb _); [done|]. by destruct (Server.bodyIsJson req). }
  repeat (destruct Hs as [Hs|Hs]); rewrite Hs; simpl;
    rewrite andb_false_r; rewrite <- Hs; apply Hrest.
Qed.

Lemma isValidAuth_spec t (h : option string) :
  Server.isValidAuth t h = true <-> h = Some ("Bearer " ++ t) \/ h = Some t.
Proof.
  unfold Server.isValidAuth. destruct h as [h|].
  - rewrite orb_true_iff. split.
    + intros [H|H]; apply String.eqb_eq in H; subst; auto.
    + intros [[= ->]|[= ->]]; rewrite String.eqb_refl; auto.
  - split; [done|]. intros [|]; done.
Qed.

Lemma apiToken_truthy env : JS.truthy (Server.apiToken env) = true.
Proof.
  unfold Server.apiToken, JS.or_else.
  destruct (env !! "API_TOKEN") as [s|]; [|done].
  by destruct (JS.truthy s) eqn:Hs.
Qed.

(** With a token other than the placeholder, the check passes exactly the
    headers that [isValidAuth] accepts. *)
Lemma check_token_spec env req :
  Server.apiToken env <> "YOUR_API_TOKEN" ->
  Server.core_path (Server.pathname req) = true ->
  (Server.check_token env req = None <->
   Server.isValidAuth (Server.apiToken env) (Server.authorization req) = true) /\
  (Server.check_token env req <> None ->
   exists e, Server.check_token env req = Some (Server.Unauthorized e)).
Proof.
  intros Ht Hcore. unfold Server.check_token. rewrite Hcore.
  pose proof (apiToken_truthy env) as Htr. rewrite Htr. simpl.
  assert (String.eqb (Server.apiToken env) "" = false) as ->.
  { unfold JS.truthy in Htr. by apply negb_true_iff in Htr. }
  simpl. destruct (String.eqb_spec (Server.apiToken env) "YOUR_API_TOKEN"); [done|].
  destruct (Server.isValidAuth _ _); split; try done.
  intros _. eauto.
Qed.

End gate_facts.

Section gate_claims.
Variable atob : string -> JS.outcome string.
Implicit Types (env : Server.Env) (req : Server.Request).

Lemma token_enforced env req :
  Server.apiToken env <> "YOUR_API_TOKEN" ->
  Server.core_path (Server.pathname req) = true ->
  (Server.status (Server.baseHandler env req) = 401 <->
   Server.isValidAuth (Server.apiToken env) (Server.authorization req) = false).
Proof.
  intros Ht Hcore.
  destruct (check_token_spec env req Ht Hcore) as [Hpass Hrej].
  destruct (Server.check_token env req) as [r|] eqn:Hck.
  - destruct Hrej as [e He]; [done|]. injection He as ->.
    rewrite (baseHandler_core env req Hcore _ Hck). simpl.
    split; [intros _|done].
    destruct (Server.isValidAuth _ _); [|done].
    by destruct Hpass as [_ Hpass]; specialize (Hpass eq_refl).
  - pose proof (baseHandler_core_pass env req Hcore Hck) as Hne.
    destruct Hpass as [Hpass _]. rewrite (Hpass eq_refl). split; [done|discriminate].
Qed.

Lemma gate_without_RY4N env req :
  env !! "RY4N" = None ->
  Middleware.gate atob env req = Server.status (Server.baseHandler env req).
Proof.
  intros Hno. unfold Middleware.gate.
  destruct (Server.baseHandler env req); try done.
  unfold Middleware.withAuth. rewrite Hno. by destruct (_ || _).
Qed.

Lemma gate_exempt env req :
  In (Server.pathname req)
     ["/health"; "/metrics"; "/status"; "/info"; "/swagger.json"; "/api/docs"; "/"] ->
  Middleware.gate atob env req <> 401.
Proof.
  destruct req as [m p a ct j]. simpl. unfold Middleware.gate, Server.baseHandler.
  intros Hin. repeat (destruct Hin as [<-|Hin]); try done; simpl;
    rewrite ?andb_false_r; try done;
    repeat match goal with
           | |- context [String.eqb m ?x] => destruct (String.eqb m x)
           end; done.
Qed.

(** C10.  With [API_TOKEN] unset the configured token is [YO_TOKEN]; the
    check is skipped only for an empty token or [YOUR_API_TOKEN], so every
    request to a core endpoint whose [Authorization] header is neither
    [Bearer YO_TOKEN] nor [YO_TOKEN], a missing header included, is answered
    with status 401. *)
Theorem C10_default_token_enforced env req :
  env !! "API_TOKEN" = None ->
  Server.core_path (Server.pathname req) = true ->
  Server.authorization req <> Some "Bearer YO_TOKEN" ->
  Server.authorization req <> Some "YO_TOKEN" ->
  Server.apiToken env = "YO_TOKEN" /\
  Server.status (Server.baseHandler env req) = 401 /\
  (forall env' req',
     Server.core_path (Server.pathname req') = true ->
     Server.check_token env' req' = None ->
     Server.apiToken env' = "YOUR_API_TOKEN" \/
     Server.isValidAuth (Server.apiToken env') (Server.authorization req') = true).
Proof.
  intros Henv Hcore Hb Hr.
  assert (Htok : Server.apiToken env = "YO_TOKEN").
  { unfold Server.apiToken. by rewrite Henv. }
  split; [done|]. split.
  - apply token_enforced; [by rewrite Htok|done|].
    rewrite Htok. destruct (Server.isValidAuth _ _) eqn:Hv; [|done].
    apply isValidAuth_spec in Hv as [Hv|Hv]; cbv [String.append] in Hv; congruence.
  - intros env' req' Hcore' Hck.
    destruct (String.eqb_spec (Server.apiToken env') "YOUR_API_TOKEN") as [|Hne];
      [by left|right].
    by apply (check_token_spec env' req' Hne Hcore').
Qed.

(** C4, as the code has it.  With a configured token [t] other than the
    placeholder, [baseHandler] answers a request to a core endpoint with
    401 unless its [Authorization] header is [Bearer t] or exactly [t]
    (a [Basic] credential is not among them); when no second token [RY4N]
    is set this is the whole gate; and the health, metrics, status, info
    and documentation paths are never answered with 401. *)
Theorem C4_bearer_or_raw_token env req (t : string) :
  Server.apiToken env = t ->
  t <> "YOUR_API_TOKEN" ->
  Server.core_path (Server.pathname req) = true ->
  (Server.status (Server.baseHandler env req) <> 401 <->
   Server.authorization req = Some ("Bearer " ++ t) \/
   Server.authorization req = Some t) /\
  (env !! "RY4N" = None ->
   (Middleware.gate atob env req <> 401 <->
    Server.authorization req = Some ("Bearer " ++ t) \/
    Server.authorization req = Some t)) /\
  (forall env' req',
     In (Server.pathname req')
        ["/health"; "/metrics"; "/status"; "/info"; "/swagger.json"; "/api/docs"; "/"] ->
     Middleware.gate atob env' req' <> 401).
Proof.
  intros Htok Ht Hcore.
  assert (Hbase : Server.status (Server.baseHandler env req) <> 401 <->
    Server.authorization req = Some ("Bearer " ++ t) \/
    Server.authorization req = Some t).
  { rewrite <- isValidAuth_spec, <- Htok.
    rewrite token_enforced by (by rewrite ?Htok).
    by destruct (Server.isValidAuth _ _). }
  split; [done|]. split.
  - intros Hno. by rewrite gate_without_RY4N.
  - intros env' req'. apply gate_exempt.
Qed.

End gate_claims.

(** C4 fails as stated: with the token [secret] configured, a request with
    the [Basic] credentials of [user:secret] is answered with 401. *)
Lemma C4_basic_credentials_rejected :
  let env : Server.Env := {[ "API_TOKEN" := "secret" ]} in
  let req := {| Server.method := "POST";
                Server.pathname := "/decrypt_signature";
                Server.authorization := Some "Basic dXNlcjpzZWNyZXQ=";
                Server.contentType := Some "application/json";
                Server.bodyIsJson := true |} in
  Server.apiToken env = "secret" /\
  (exists user,
     Server.authorization req
     = Some ("Basic " ++ Base64.btoa (user ++ ":" ++ Server.apiToken env))) /\
  Server.baseHandler env req = Server.Unauthorized "Invalid API token" /\
  forall atob, Middleware.accepted atob env req = false /\
               Middleware.gate atob env req = 401.
Proof.
  split; [by vm_compute|]. split; [exists "user"; by vm_compute|].
  assert (Server.baseHandler {[ "API_TOKEN" := "secret" ]}
    {| Server.method := "POST"; Server.pathname := "/decrypt_signature";
       Server.authorization := Some "Basic dXNlcjpzZWNyZXQ=";
       Server.contentType := Some "application/json";
       Server.bodyIsJson := true |}
    = Server.Unauthorized "Invalid API token") as Hb by (by vm_compute).
  split; [done|]. intros atob.
  unfold Middleware.accepted, Middleware.gate. by rewrite Hb.
Qed.

(** ** C1: [/clear_cache] *)

(** C1, evaluated where it fails.  With one STS cached, a request to clear
    all caches is answered with the four cache names, yet the STS cache
    still holds its entry: its size is 1, not 0. *)
Theorem C1_clear_cache_keeps_entries :
  let w := set_stsCache coldWorld
             (InstrumentedLRU.set 0 "player_cache/h.js" "19999" (stsCache coldWorld)) in
  let req := {| Handlers.cache_type := Some "all"; Handlers.clear_all := None |} in
  let '(resp, w') := clearCacheEndpoint req w in
  Handlers.body resp
  = Handlers.Cleared ["player_cache"; "solver_cache"; "preprocessed_cache"; "sts_cache"]
                     4 true true /\
  InstrumentedLRU.size (stsCache w') = 1 /\
  fst (InstrumentedLRU.get 1 "player_cache/h.js" (stsCache w')) = Some "19999".
Proof. vm_compute. done. Qed.

(** ** C2: [/batch_decrypt] *)

Section batch_facts.
Implicit Types (l pre : list Handlers.SignatureRequest) (post : list Handlers.BatchElement).

Lemma validate_objects i l :
  match Handlers.validate i (map Handlers.Element l) with
  | Handlers.Complete l' =>
      l' = l /\ Forall (fun sig => Handlers.incomplete sig = false) l
  | Handlers.IncompleteAt _ => Exists (fun sig => Handlers.incomplete sig = true) l
  | Handlers.ThrowsAt _ => False
  end.
Proof.
  revert i. induction l as [|sig l IH]; intros i; cbn [map Handlers.validate].
  - split; [done|constructor].
  - destruct (Handlers.incomplete sig) eqn:Hs; [by constructor|].
    specialize (IH (S i)).
    destruct (Handlers.validate (S i) (map Handlers.Element l)) as [l'| |]; [|by constructor|done].
    destruct IH as [-> Hall]. split; [done|by constructor].
Qed.

Lemma validate_complete i l :
  Forall (fun sig => Handlers.incomplete sig = false) l ->
  Handlers.validate i (map Handlers.Element l) = Handlers.Complete l.
Proof.
  intros Hall. pose proof (validate_objects i l) as H.
  destruct (Handlers.validate i (map Handlers.Element l)) as [l'|j|j]; [|exfalso|done].
  - by destruct H as [-> _].
  - apply Exists_exists in H as (sig & Hin & Hi).
    rewrite Forall_forall in Hall. specialize (Hall _ Hin). congruence.
Qed.

(** The loop stops at the first element that is [null] or lacks a field. *)
Lemma validate_stops i pre (e : Handlers.BatchElement) post :
  Forall (fun sig => Handlers.incomplete sig = false) pre ->
  Handlers.validate i (map Handlers.Element pre ++ e :: post)%list
  = match e with
    | Handlers.NullElement => Handlers.ThrowsAt (i + length pre)
    | Handlers.Element sig =>
        if Handlers.incomplete sig then Handlers.IncompleteAt (i + length pre)
        else match Handlers.validate (S (i + length pre)) post with
             | Handlers.Complete l => Handlers.Complete (pre ++ sig :: l)%list
             | r => r
             end
    end.
Proof.
  intros Hpre. revert i. induction Hpre as [|s pre Hs _ IH]; intros i.
  - cbn [map app length Handlers.validate]. rewrite Nat.add_0_r. done.
  - cbn [map app length Handlers.validate]. rewrite Hs, IH.
    replace (S i + length pre)%nat with (i + S (length pre))%nat by lia.
    destruct e as [|sig]; [done|]. destruct (Handlers.incomplete sig); [done|].
    by destruct (Handlers.validate _ post).
Qed.

Lemma validate_incomplete_inv i (els : list Handlers.BatchElement) j :
  Handlers.validate i els = Handlers.IncompleteAt j ->
  exists pre sig post,
    els = (map Handlers.Element pre ++ Handlers.Element sig :: post)%list /\
    Forall (fun sig => Handlers.incomplete sig = false) pre /\
    Handlers.incomplete sig = true /\ j = (i + length pre)%nat.
Proof.
  revert i. induction els as [|e els IH]; intros i; cbn [Handlers.validate]; [done|].
  destruct e as [|sig0]; [done|].
  destruct (Handlers.incomplete sig0) eqn:Hs.
  - intros [= <-]. exists [], sig0, els. rewrite Nat.add_0_r. by repeat split.
  - destruct (Handlers.validate (S i) els) as [l|k|k] eqn:Hv; try done.
    intros [= <-]. destruct (IH (S i) Hv) as (pre & sig & post & -> & Hpre & Hi & ->).
    exists (sig0 :: pre), sig, post. cbn [map app length].
    split; [done|]. split; [by constructor|]. split; [done|lia].
Qed.

(** C2, as the code has it.  A missing or non-array [signatures] field is
    a validation error.  An array is answered with 400 exactly when its first
    element that is not an object carrying [encrypted_signature], [n_param]
    and [player_url] is an object that lacks one of them; for an array of
    objects, that is when one of them lacks a field.  An array of objects
    that all carry the three fields is answered with 200 and the response's
    own success flag, one result per element in order, each echoing the three
    fields of its input, with a summary whose total is the number of elements
    and whose two counts add up to it; the empty array gives [results: []]
    and a summary of zeros.  What the results hold besides the echoed input
    is not stated here. *)
Theorem C2_batch_of_complete_items (req : Handlers.BatchDecryptRequest) :
  (Handlers.signatures req = None ->
   Handlers.status (Handlers.handleBatchDecrypt req) = 400) /\
  (forall els, Handlers.signatures req = Some els ->
     (Handlers.status (Handlers.handleBatchDecrypt req) = 400 <->
      exists pre sig post,
        els = (map Handlers.Element pre ++ Handlers.Element sig :: post)%list /\
        Forall (fun sig => Handlers.incomplete sig = false) pre /\
        Handlers.incomplete sig = true)) /\
  (forall l, Handlers.signatures req = Some (map Handlers.Element l) ->
     (Handlers.status (Handlers.handleBatchDecrypt req) = 400 <->
      Exists (fun sig => Handlers.incomplete sig = true) l) /\
     (Forall (fun sig => Handlers.incomplete sig = false) l ->
      exists results successful failed,
        Handlers.handleBatchDecrypt req
        = Handlers.respond 200
            (Handlers.Batch results true (Z.of_nat (length l)) successful failed) /\
        0 <= successful /\ 0 <= failed /\
        successful + failed = Z.of_nat (length l) /\
        length results = length l /\
        forall i sig, l !! i = Some sig ->
          exists r, results !! i = Some r /\
            Handlers.r_encrypted_signature r = Handlers.encrypted_signature sig /\
            Handlers.r_n_param r = Handlers.n_param sig /\
            Handlers.r_player_url r = Handlers.player_url sig)) /\
  Handlers.handleBatchDecrypt {| Handlers.signatures := Some [] |}
  = Handlers.respond 200 (Handlers.Batch [] true 0 0 0).
Proof.
  split; [|split; [|split; [|done]]].
  - intros Hn. unfold Handlers.handleBatchDecrypt. by rewrite Hn.
  - intros els Hs. unfold Handlers.handleBatchDecrypt. rewrite Hs. split.
    + destruct (Handlers.validate 0 els) as [l'|j|j] eqn:Hv; simpl; try done.
      intros _. destruct (validate_incomplete_inv 0 els j Hv)
        as (pre & sig & post & -> & Hpre & Hi & _).
      by exists pre, sig, post.
    + intros (pre & sig & post & -> & Hpre & Hi).
      by rewrite (validate_stops 0 pre (Handlers.Element sig) post Hpre), Hi.
  - intros l Hs. unfold Handlers.handleBatchDecrypt. rewrite Hs. split.
    + pose proof (validate_objects 0 l) as H.
      destruct (Handlers.validate 0 (map Handlers.Element l)) as [l'|j|j]; simpl.
      * destruct H as [-> Hall]. split; [done|]. intros Hex.
        apply Exists_exists in Hex as (sig & Hin & Hi).
        rewrite Forall_forall in Hall. specialize (Hall _ Hin). congruence.
      * done.
      * done.
    + intros Hall. rewrite (validate_complete 0 l Hall), !length_map.
      pose proof (length_filter (fun r => Handlers.r_success r = true)
                    (map Handlers.simulate l)) as Hle.
      rewrite length_map in Hle.
      eexists _, _, _. split; [reflexivity|].
      split; [lia|]. split; [lia|]. split; [lia|].
      split; [by rewrite length_map|].
      intros i sig Hi. exists (Handlers.simulate sig).
      split; [|done]. by rewrite list_lookup_fmap, Hi.
Qed.

End batch_facts.

(** C2 fails as stated: with an array whose second element has no
    [n_param], the whole batch is a validation error. *)
Lemma C2_incomplete_item_rejects_batch :
  let item1 := {| Handlers.encrypted_signature := Some "AAAA";
                  Handlers.n_param := Some "BBBB";
                  Handlers.player_url := Some "https://www.youtube.com/s/player/x/player.js" |} in
  let item2 := {| Handlers.encrypted_signature := Some "CCCC";
                  Handlers.n_param := None;
                  Handlers.player_url := Some "https://www.youtube.com/s/player/x/player.js" |} in
  Handlers.handleBatchDecrypt
    {| Handlers.signatures := Some [Handlers.Element item1; Handlers.Element item2] |}
  = Handlers.respond 400
      (Handlers.ApiError "Invalid signature object at index 1" "INVALID_REQUEST").
Proof. by vm_compute. Qed.

(** ** C7: [/decrypt_signature] *)

Section decrypt_facts.
Variable sha256hex : string -> string.
Variable fetch : string -> JS.outcome (Z * string).
Variable execInPool : string -> JS.outcome string.
Variable getFromPrepared : string -> JS.outcome (option Solvers).

Lemma solveField_threw tok f msg :
  f tok = JS.Threw msg -> Handlers.solveField (Some tok) (Some f) = "".
Proof. intros H. unfold Handlers.solveField. rewrite H. by destruct (JS.truthy tok). Qed.

Lemma solveField_absent token solver :
  JS.truthy_opt token = false \/ solver = None ->
  Handlers.solveField token solver = "".
Proof.
  unfold Handlers.solveField. intros [H| ->].
  - destruct token as [tok|]; [|done]. simpl in H. rewrite H. by destruct solver.
  - by destruct token.
Qed.

Lemma solveField_returned tok f v :
  JS.truthy tok = true -> f tok = JS.Returned v ->
  Handlers.solveField (Some tok) (Some f) = v.
Proof. intros Ht H. unfold Handlers.solveField. by rewrite Ht, H. Qed.

(** C7.  For a decrypt request whose [player_url] yields a solvers pair:
    when the sig solver or the n solver throws on the supplied token, the
    corresponding field of the response is the empty string; a field is the
    empty string as well when its token or its solver is absent; in every
    case the response has status 200 and [success: true]. *)
Theorem C7_decrypt_contains_solver_failures
    (req : Handlers.SignatureRequest) (w w' : World) (url : string) (solvers : Solvers) :
  Handlers.player_url req = Some url ->
  JS.truthy url = true ->
  Pipeline.getSolvers sha256hex fetch execInPool getFromPrepared url w
  = (JS.Returned (Some solvers), w') ->
  exists ds dn,
    Handlers.handleDecryptSignature sha256hex fetch execInPool getFromPrepared req w
    = (Handlers.respond 200 (Handlers.Decrypted ds dn true), w') /\
    (forall tok f msg, Handlers.encrypted_signature req = Some tok ->
       Types.sig solvers = Some f -> f tok = JS.Threw msg -> ds = "") /\
    (JS.truthy_opt (Handlers.encrypted_signature req) = false \/
     Types.sig solvers = None -> ds = "") /\
    (forall tok f v, Handlers.encrypted_signature req = Some tok -> JS.truthy tok = true ->
       Types.sig solvers = Some f -> f tok = JS.Returned v -> ds = v) /\
    (forall tok f msg, Handlers.n_param req = Some tok ->
       Types.n solvers = Some f -> f tok = JS.Threw msg -> dn = "") /\
    (JS.truthy_opt (Handlers.n_param req) = false \/ Types.n solvers = None -> dn = "") /\
    (forall tok f v, Handlers.n_param req = Some tok -> JS.truthy tok = true ->
       Types.n solvers = Some f -> f tok = JS.Returned v -> dn = v).
Proof.
  intros Hurl Htr Hs.
  exists (Handlers.solveField (Handlers.encrypted_signature req) (Types.sig solvers)).
  exists (Handlers.solveField (Handlers.n_param req) (Types.n solvers)).
  split.
  { unfold Handlers.handleDecryptSignature. by rewrite Hurl, Htr, Hs. }
  repeat split.
  - intros tok f msg -> ->. apply solveField_threw.
  - apply solveField_absent.
  - intros tok f v -> Ht ->. by apply solveField_returned.
  - intros tok f msg -> ->. apply solveField_threw.
  - apply solveField_absent.
  - intros tok f v -> Ht ->. by apply solveField_returned.
Qed.

End decrypt_facts.

(** ** C6: [/resolve_url] *)

Section params_facts.
Implicit Types (l : list (string * string)) (k v : string).

Lemma getAll_delete_eq k l : URLSearchParams.getAll k (URLSearchParams.delete k l) = [].
Proof.
  induction l as [|[k' v'] l IH]; simpl; [done|].
  destruct (String.eqb_spec k' k) as [->|Hne]; [done|].
  simpl. destruct (String.eqb_spec k' k); [done|]. exact IH.
Qed.

Lemma getAll_delete_ne k k' l :
  k <> k' ->
  URLSearchParams.getAll k (URLSearchParams.delete k' l) = URLSearchParams.getAll k l.
Proof.
  intros Hne. induction l as [|[k0 v0] l IH]; simpl; [done|].
  destruct (String.eqb_spec k0 k') as [->|Hne'].
  - destruct (String.eqb_spec k' k); [congruence|done].
  - simpl. by rewrite IH.
Qed.

Lemma getAll_set_eq k v l : URLSearchParams.getAll k (URLSearchParams.set k v l) = [v].
Proof.
  induction l as [|[k' v'] l IH]; simpl.
  - by rewrite String.eqb_refl.
  - destruct (String.eqb_spec k' k) as [->|Hne]; simpl.
    + by rewrite String.eqb_refl, getAll_delete_eq.
    + destruct (String.eqb_spec k' k); [done|]. exact IH.
Qed.

Lemma getAll_set_ne k k' v l :
  k <> k' ->
  URLSearchParams.getAll k (URLSearchParams.set k' v l) = URLSearchParams.getAll k l.
Proof.
  intros Hne. induction l as [|[k0 v0] l IH]; simpl.
  - destruct (String.eqb_spec k' k); [congruence|done].
  - destruct (String.eqb_spec k0 k') as [->|Hne']; simpl.
    + destruct (String.eqb_spec k' k); [congruence|]. by apply getAll_delete_ne.
    + by rewrite IH.
Qed.

Lemma get_head k l : URLSearchParams.get k l = head (URLSearchParams.getAll k l).
Proof.
  induction l as [|[k' v'] l IH]; simpl; [done|].
  by destruct (String.eqb k' k).
Qed.

End params_facts.

Section resolve_facts.
Variable sha256hex : string -> string.
Variable fetch : string -> JS.outcome (Z * string).
Variable execInPool : string -> JS.outcome string.
Variable getFromPrepared : string -> JS.outcome (option Solvers).
Variable parseURL : string -> option URL.
Implicit Types (req : Handlers.ResolveUrlRequest) (solvers : Solvers) (url : URL).

Lemma applySignature_None req solvers url :
  Handlers.applySignature req solvers url = None <->
  JS.truthy_opt (Handlers.rencrypted_signature req) = true /\ Types.sig solvers = None.
Proof.
  unfold Handlers.applySignature.
  destruct (Handlers.rencrypted_signature req) as [enc|]; simpl.
  - destruct (JS.truthy enc); [|split; [done|by intros []]].
    destruct (Types.sig solvers) as [f|]; [|done].
    split; [|by intros []]. by destruct (f enc).
  - split; [done|by intros []].
Qed.

Lemma applySignature_absent req solvers url :
  JS.truthy_opt (Handlers.rencrypted_signature req) = false ->
  Handlers.applySignature req solvers url = Some url.
Proof.
  unfold Handlers.applySignature.
  destruct (Handlers.rencrypted_signature req) as [enc|]; simpl; [|done].
  by intros ->.
Qed.

Lemma applySignature_base req solvers url url1 :
  Handlers.applySignature req solvers url = Some url1 -> base url1 = base url.
Proof.
  unfold Handlers.applySignature.
  destruct (Handlers.rencrypted_signature req) as [enc|]; [|by intros [= <-]].
  destruct (JS.truthy enc); [|by intros [= <-]].
  destruct (Types.sig solvers) as [f|]; [|done].
  destruct (f enc); by intros [= <-].
Qed.

Lemma applySignature_other req solvers url url1 k :
  Handlers.applySignature req solvers url = Some url1 ->
  k <> JS.or_else (Handlers.signature_key req) "sig" -> k <> "s" ->
  URLSearchParams.getAll k (searchParams url1) = URLSearchParams.getAll k (searchParams url).
Proof.
  unfold Handlers.applySignature. intros H Hk Hs.
  destruct (Handlers.rencrypted_signature req) as [enc|]; [|by injection H as <-].
  destruct (JS.truthy enc); [|by injection H as <-].
  destruct (Types.sig solvers) as [f|]; [|done].
  destruct (f enc); injection H as <-; [|done]. simpl.
  by rewrite getAll_delete_ne, getAll_set_ne.
Qed.

Lemma applySignature_set req solvers url enc f d :
  Handlers.rencrypted_signature req = Some enc -> JS.truthy enc = true ->
  Types.sig solvers = Some f -> f enc = JS.Returned d ->
  exists url1, Handlers.applySignature req solvers url = Some url1 /\
    URLSearchParams.getAll "s" (searchParams url1) = [] /\
    (JS.or_else (Handlers.signature_key req) "sig" <> "s" ->
     URLSearchParams.getAll (JS.or_else (Handlers.signature_key req) "sig")
       (searchParams url1) = [d]).
Proof.
  intros He Ht Hf Hd. unfold Handlers.applySignature. rewrite He, Ht, Hf, Hd.
  eexists. split; [done|]. simpl. split.
  - apply getAll_delete_eq.
  - intros Hne. by rewrite getAll_delete_ne, getAll_set_eq.
Qed.

Lemma applyN_base req solvers url : base (Handlers.applyN req solvers url) = base url.
Proof.
  unfold Handlers.applyN. destruct (Types.n solvers) as [g|]; [|done].
  destruct (Handlers.effectiveN req url) as [np|]; [|done].
  destruct (JS.truthy np); [|done]. by destruct (g np).
Qed.

Lemma applyN_other req solvers url k :
  k <> "n" ->
  URLSearchParams.getAll k (searchParams (Handlers.applyN req solvers url))
  = URLSearchParams.getAll k (searchParams url).
Proof.
  intros Hk. unfold Handlers.applyN. destruct (Types.n solvers) as [g|]; [|done].
  destruct (Handlers.effectiveN req url) as [np|]; [|done].
  destruct (JS.truthy np); [|done]. destruct (g np); [|done].
  simpl. by apply getAll_set_ne.
Qed.

Lemma applyN_set req solvers url np g d :
  Handlers.effectiveN req url = Some np -> JS.truthy np = true ->
  Types.n solvers = Some g -> g np = JS.Returned d ->
  URLSearchParams.getAll "n" (searchParams (Handlers.applyN req solvers url)) = [d].
Proof.
  intros He Ht Hg Hd. unfold Handlers.applyN. rewrite Hg, He, Ht, Hd.
  simpl. apply getAll_set_eq.
Qed.

Lemma effectiveN_after_signature req solvers url url1 :
  Handlers.applySignature req solvers url = Some url1 ->
  JS.or_else (Handlers.signature_key req) "sig" <> "n" ->
  Handlers.effectiveN req url1 = Handlers.effectiveN req url.
Proof.
  intros H Hk. unfold Handlers.effectiveN.
  destruct (JS.truthy_opt (Handlers.rn_param req)); [done|].
  rewrite !get_head. f_equal. eapply applySignature_other; [done|congruence|done].
Qed.

Lemma applySignature_threw req solvers url enc f msg :
  Handlers.rencrypted_signature req = Some enc ->
  Types.sig solvers = Some f -> f enc = JS.Threw msg ->
  Handlers.applySignature req solvers url = Some url.
Proof.
  intros He Hf Hd. unfold Handlers.applySignature. rewrite He, Hf, Hd.
  by destruct (JS.truthy enc).
Qed.

Lemma applySignature_params req solvers url enc f d :
  Handlers.rencrypted_signature req = Some enc -> JS.truthy enc = true ->
  Types.sig solvers = Some f -> f enc = JS.Returned d ->
  Handlers.applySignature req solvers url
  = Some (with_searchParams url
            (URLSearchParams.delete "s"
               (URLSearchParams.set (JS.or_else (Handlers.signature_key req) "sig") d
                  (searchParams url)))).
Proof.
  intros He Ht Hf Hd. unfold Handlers.applySignature. by rewrite He, Ht, Hf, Hd.
Qed.

Lemma applyN_untouched req solvers url :
  Types.n solvers = None \/
  JS.truthy_opt (Handlers.effectiveN req url) = false \/
  (exists np g msg, Handlers.effectiveN req url = Some np /\
     Types.n solvers = Some g /\ g np = JS.Threw msg) ->
  Handlers.applyN req solvers url = url.
Proof.
  unfold Handlers.applyN. intros [Hn|[He|(np & g & msg & He & Hg & Hd)]].
  - by rewrite Hn.
  - destruct (Types.n solvers) as [g|]; [|done].
    destruct (Handlers.effectiveN req url) as [np|]; [|done].
    simpl in He. by rewrite He.
  - rewrite Hg, He, Hd. by destruct (JS.truthy np).
Qed.

(** C6, as the code has it.  For a resolve request whose player yields a
    solvers pair and whose [stream_url] parses: with [encrypted_signature]
    present and no sig solver the answer is the error [NO_SIGNATURE_SOLVER];
    otherwise the answer is the rewritten URL.  When the signature is
    present and its solver returns, [s] is gone whatever [signature_key] is,
    and the parameter named by [signature_key] (default [sig]) is the
    decrypted signature unless that name is [s], which is deleted at once,
    or [n], which then goes through the n step with the decrypted signature
    as the URL's [n].  When no signature is supplied or its solver throws,
    the signature step changes nothing.  Every parameter other than the
    signature key, [n] and [s] is as it was.  The n step takes the body's
    [n_param] or else the URL's [n]; when that is present and the n solver
    returns, [n] is the decrypted value, and when there is none, or no n
    solver, or the n solver throws, [n] is left alone. *)
Theorem C6_resolve_rewrites_query req (w w' : World) solvers url :
  JS.truthy_opt (Handlers.stream_url req) = true ->
  JS.truthy_opt (Handlers.rplayer_url req) = true ->
  Pipeline.getSolvers sha256hex fetch execInPool getFromPrepared
    (default "" (Handlers.rplayer_url req)) w = (JS.Returned (Some solvers), w') ->
  parseURL (default "" (Handlers.stream_url req)) = Some url ->
  let sigKey := JS.or_else (Handlers.signature_key req) "sig" in
  let resp :=
    fst (Handlers.handleResolveUrl sha256hex fetch execInPool getFromPrepared parseURL req w) in
  let stored d :=
    exists enc f, Handlers.rencrypted_signature req = Some enc /\ JS.truthy enc = true /\
      Types.sig solvers = Some f /\ f enc = JS.Returned d in
  let skipped :=
    JS.truthy_opt (Handlers.rencrypted_signature req) = false \/
    exists enc f msg, Handlers.rencrypted_signature req = Some enc /\
      Types.sig solvers = Some f /\ f enc = JS.Threw msg in
  (JS.truthy_opt (Handlers.rencrypted_signature req) = true ->
   Types.sig solvers = None ->
   resp = Handlers.respond 500
            (Handlers.ApiError "No signature solver found for this player"
                               "NO_SIGNATURE_SOLVER")) /\
  (JS.truthy_opt (Handlers.rencrypted_signature req) = false \/
   Types.sig solvers <> None ->
   exists url',
     resp = Handlers.respond 200 (Handlers.Resolved url' true) /\
     base url' = base url /\
     (forall d, stored d ->
        URLSearchParams.getAll "s" (searchParams url') = [] /\
        (sigKey <> "s" -> sigKey <> "n" ->
         URLSearchParams.getAll sigKey (searchParams url') = [d])) /\
     (skipped ->
      forall k, k <> "n" ->
        URLSearchParams.getAll k (searchParams url')
        = URLSearchParams.getAll k (searchParams url)) /\
     (forall k, k <> sigKey -> k <> "n" -> k <> "s" ->
        URLSearchParams.getAll k (searchParams url')
        = URLSearchParams.getAll k (searchParams url)) /\
     (forall np g d,
        sigKey <> "n" \/ skipped ->
        Handlers.effectiveN req url = Some np -> JS.truthy np = true ->
        Types.n solvers = Some g -> g np = JS.Returned d ->
        URLSearchParams.getAll "n" (searchParams url') = [d]) /\
     (sigKey <> "n" \/ skipped ->
      Types.n solvers = None \/
      JS.truthy_opt (Handlers.effectiveN req url) = false \/
      (exists np g msg, Handlers.effectiveN req url = Some np /\
         Types.n solvers = Some g /\ g np = JS.Threw msg) ->
      URLSearchParams.getAll "n" (searchParams url')
      = URLSearchParams.getAll "n" (searchParams url)) /\
     (forall d, stored d -> sigKey = "n" ->
        let np := if JS.truthy_opt (Handlers.rn_param req)
                  then default "" (Handlers.rn_param req) else d in
        URLSearchParams.getAll "n" (searchParams url')
        = [match Types.n solvers with
           | Some g =>
               if JS.truthy np
               then match g np with JS.Returned dn => dn | JS.Threw _ => d end
               else d
           | None => d
           end])).
Proof.
  intros Hst Hpl Hs Hp sigKey resp stored skipped. subst resp.
  unfold Handlers.handleResolveUrl. rewrite Hst, Hpl, Hs, Hp. simpl. split.
  - intros He Hn.
    by rewrite (proj2 (applySignature_None req solvers url) (conj He Hn)).
  - intros Hcase.
    destruct (Handlers.applySignature req solvers url) as [url1|] eqn:H1.
    2: { apply applySignature_None in H1 as [He Hn]. destruct Hcase; congruence. }
    assert (Hskip : skipped -> url1 = url).
    { intros [He|(enc & f & msg & He & Hf & Hd)].
      - rewrite (applySignature_absent _ solvers url He) in H1. by injection H1.
      - rewrite (applySignature_threw _ _ url _ _ _ He Hf Hd) in H1. by injection H1. }
    assert (Heff : sigKey <> "n" \/ skipped ->
                   Handlers.effectiveN req url1 = Handlers.effectiveN req url).
    { intros [Hkn|Hsk]; [|by rewrite (Hskip Hsk)].
      by apply (effectiveN_after_signature req solvers url url1). }
    assert (Hn1 : sigKey <> "n" \/ skipped ->
                  URLSearchParams.getAll "n" (searchParams url1)
                  = URLSearchParams.getAll "n" (searchParams url)).
    { intros [Hkn|Hsk]; [|by rewrite (Hskip Hsk)].
      destruct (decide (JS.truthy_opt (Handlers.rencrypted_signature req) = true)) as [Ht|Hf].
      - unfold Handlers.applySignature in H1.
        destruct (Handlers.rencrypted_signature req) as [enc|]; [|by injection H1 as <-].
        destruct (JS.truthy enc); [|by injection H1 as <-].
        destruct (Types.sig solvers) as [f|]; [|done].
        destruct (f enc); injection H1 as <-; [|done]. simpl.
        rewrite getAll_delete_ne by done. apply getAll_set_ne. by intros E; apply Hkn.
      - assert (JS.truthy_opt (Handlers.rencrypted_signature req) = false) as He
          by (destruct (JS.truthy_opt (Handlers.rencrypted_signature req)); congruence).
        rewrite (applySignature_absent _ solvers url He) in H1. by injection H1 as <-. }
    exists (Handlers.applyN req solvers url1). simpl. split; [done|].
    split; [by rewrite applyN_base, (applySignature_base _ _ _ _ H1)|].
    split; [|split; [|split; [|split; [|split]]]].
    + intros d (enc & f & He & Ht & Hf & Hd). rewrite applyN_other by done.
      destruct (applySignature_set req solvers url enc f d He Ht Hf Hd)
        as (u & Hu & Hs0 & Hk).
      rewrite H1 in Hu. injection Hu as <-. split; [done|].
      intros Hks Hkn. rewrite applyN_other by done. by apply Hk.
    + intros Hsk k Hk. rewrite applyN_other by done. by rewrite (Hskip Hsk).
    + intros k Hk Hn Hs'. rewrite applyN_other by done.
      by apply (applySignature_other req solvers url).
    + intros np g d Hc He Ht Hg Hd.
      apply (applyN_set req solvers url1 np g d); try done. by rewrite Heff.
    + intros Hc Hun. rewrite applyN_untouched; [by apply Hn1|].
      by rewrite (Heff Hc).
    + intros d (enc & f & He & Ht & Hf & Hd) Hkn.
      set (np := if JS.truthy_opt (Handlers.rn_param req)
                 then default "" (Handlers.rn_param req) else d).
      rewrite (applySignature_params req solvers url enc f d He Ht Hf Hd) in H1.
      injection H1 as <-. fold sigKey. rewrite Hkn.
      assert (Hget : URLSearchParams.getAll "n"
                (URLSearchParams.delete "s" (URLSearchParams.set "n" d (searchParams url)))
              = [d]).
      { rewrite getAll_delete_ne by done. apply getAll_set_eq. }
      assert (Heffn : Handlers.effectiveN req
                (with_searchParams url
                   (URLSearchParams.delete "s"
                      (URLSearchParams.set "n" d (searchParams url))))
              = Some np).
      { unfold Handlers.effectiveN, np.
        destruct (Handlers.rn_param req) as [rn|]; simpl.
        - destruct (JS.truthy rn); [done|]. by rewrite get_head, Hget.
        - by rewrite get_head, Hget. }
      unfold Handlers.applyN. rewrite Heffn.
      destruct (Types.n solvers) as [g|]; [|done].
      destruct (JS.truthy np); [|done].
      destruct (g np) as [dn|msg]; [|done].
      simpl. by rewrite getAll_set_eq.
Qed.

End resolve_facts.

(** C6 fails as stated, three times over.  With [encrypted_signature]
    present and a sig solver that exists but throws, the answer is still a
    resolved URL, in which no [sig] parameter is set and [s] is not deleted.
    With [signature_key] set to [s], the decrypted signature is stored under
    [s] and deleted at once, so the resolved URL has no parameter of the
    name given by [signature_key].  And with [signature_key] set to [n], the
    parameter of that name ends as the n solver's answer, not as the
    decrypted signature. *)
Lemma C6_signature_not_always_set :
  let resolve extract key :=
    fst (Handlers.handleResolveUrl Sample.sha256hex Sample.fetch Sample.execInPool
           extract Sample.parseURL
           {| Handlers.stream_url := Some Sample.streamUrl;
              Handlers.rplayer_url := Some Sample.playerUrl;
              Handlers.rencrypted_signature := Some "AA";
              Handlers.signature_key := key;
              Handlers.rn_param := None |} coldWorld) in
  (exists url',
     resolve Sample.throwingSolvers None = Handlers.respond 200 (Handlers.Resolved url' true) /\
     URLSearchParams.get "sig" (searchParams url') = None /\
     URLSearchParams.get "s" (searchParams url') = Some "AA") /\
  (Sample.sigSolver "AA" = JS.Returned "sig(AA)" /\
   exists url',
     resolve Sample.getFromPrepared (Some "s")
     = Handlers.respond 200 (Handlers.Resolved url' true) /\
     URLSearchParams.get "s" (searchParams url') = None) /\
  (exists url',
     resolve Sample.getFromPrepared (Some "n")
     = Handlers.respond 200 (Handlers.Resolved url' true) /\
     URLSearchParams.getAll "n" (searchParams url') = ["n(sig(AA))"]).
Proof.
  split; [|split].
  - eexists. split; [vm_compute; reflexivity|]. split; reflexivity.
  - split; [reflexivity|]. eexists. split; [vm_compute; reflexivity|]. reflexivity.
  - eexists. split; [vm_compute; reflexivity|]. reflexivity.
Qed.

(** ** C5: [/get_sts] *)

Section regex_facts.

Lemma all_digits_app a b : all_digits (a ++ b) = all_digits a && all_digits b.
Proof.
  induction a as [|ch a IH]; simpl; [done|]. by rewrite IH, andb_assoc.
Qed.

Lemma starSpaces_inv {A} (k : string -> option A) s r :
  Regex.starSpaces k s = Some r -> exists s', k s' = Some r.
Proof.
  induction s as [|ch s IH]; simpl; [by exists ""|].
  destruct (Regex.is_space ch); [|by exists (String ch s)].
  destruct (Regex.starSpaces k s) as [r'|]; [|by exists (String ch s)].
  intros [= ->]. by apply IH.
Qed.

Lemma moreDigits_inv {A} (k : string -> string -> option A) acc s r :
  decimal acc ->
  Regex.moreDigits k acc s = Some r -> exists d s', decimal d /\ k d s' = Some r.
Proof.
  revert acc. induction s as [|ch s IH]; intros acc Hacc; simpl; [by exists acc, ""|].
  destruct (Regex.is_digit ch) eqn:Hd; [|by exists acc, (String ch s)].
  destruct (Regex.moreDigits k (acc ++ String ch "") s) as [r'|] eqn:Hm;
    [|by exists acc, (String ch s)].
  intros [= ->]. apply (IH (acc ++ String ch "")); [|done].
  destruct Hacc as [Hne Hall]. split.
  - destruct acc; [done|discriminate].
  - rewrite all_digits_app, Hall. simpl. by rewrite Hd.
Qed.

Lemma plusDigits_inv {A} (k : string -> string -> option A) s r :
  Regex.plusDigits k s = Some r -> exists d s', decimal d /\ k d s' = Some r.
Proof.
  destruct s as [|ch s]; simpl; [done|].
  destruct (Regex.is_digit ch) eqn:Hd; [|done].
  apply moreDigits_inv. split; [done|]. simpl. by rewrite Hd.
Qed.

(** The capture of a match is a non-empty run of digits. *)
Lemma matchAt_capture p cap s d :
  Regex.matchAt p cap s = Some (Some d) -> cap = Some d \/ decimal d.
Proof.
  revert cap s. induction p as [|a p IH]; intros cap s; simpl.
  - intros [= ->]. by left.
  - destruct a as [l|x y| |].
    + destruct (Regex.strip l s); [apply IH|done].
    + destruct (match Regex.strip x s with
                | Some s' => Regex.matchAt p cap s'
                | None => None
                end) as [r|] eqn:Hx.
      * intros [= ->]. destruct (Regex.strip x s); [by eapply IH|done].
      * destruct (Regex.strip y s); [apply IH|done].
    + intros H. apply starSpaces_inv in H as [s' H]. by eapply IH.
    + intros H. apply plusDigits_inv in H as (d' & s' & Hd' & H).
      destruct (IH _ _ H) as [[= <-]|]; by right.
Qed.

Lemma search_capture p s d : Regex.search p s = Some (Some d) -> decimal d.
Proof.
  induction s as [|ch s IH]; simpl.
  - destruct (Regex.matchAt p None "") as [r|] eqn:Hm; [|done].
    intros [= ->]. by destruct (matchAt_capture _ _ _ _ Hm).
  - destruct (Regex.matchAt p None (String ch s)) as [r|] eqn:Hm; [|exact IH].
    intros [= ->]. by destruct (matchAt_capture _ _ _ _ Hm).
Qed.

Lemma firstMatch_decimal ps s d : Handlers.firstMatch ps s = Some d -> decimal d.
Proof.
  induction ps as [|p ps IH]; simpl; [done|].
  destruct (Regex.search p s) as [[m|]|] eqn:Hs; try exact IH.
  destruct (JS.truthy m); [|exact IH]. intros [= <-]. by eapply search_capture.
Qed.

(** The first pattern that matches decides. *)
Lemma firstMatch_first p ps s m :
  Regex.search p s = Some (Some m) -> Handlers.firstMatch (p :: ps) s = Some m.
Proof.
  intros Hs. simpl. rewrite Hs.
  destruct (search_capture _ _ _ Hs) as [Hne _].
  by rewrite (proj2 (truthy_nonempty m) Hne).
Qed.

Lemma firstMatch_next p ps s :
  Regex.search p s = None -> Handlers.firstMatch (p :: ps) s = Handlers.firstMatch ps s.
Proof. intros Hs. simpl. by rewrite Hs. Qed.

Lemma digit_not_space ch : Regex.is_digit ch = true -> Regex.is_space ch = false.
Proof.
  unfold Regex.is_digit, Regex.is_space. intros H.
  apply andb_prop in H as [H1 H2]. apply Nat.leb_le in H1, H2.
  repeat (apply orb_false_intro); [apply andb_false_iff; right| |];
    first [apply Nat.leb_gt|apply Nat.eqb_neq]; lia.
Qed.

Lemma digits_decimal acc seen s :
  all_digits s = true -> 0 <= acc -> (seen = true \/ s <> "") ->
  exists v, ParseInt.digits acc seen s = Some v /\ acc <= v.
Proof.
  revert acc seen. induction s as [|ch s IH]; intros acc seen Hall Hacc Hs; simpl.
  - destruct Hs as [->|]; [|done]. exists acc. split; [done|lia].
  - simpl in Hall. apply andb_prop in Hall as [Hd Hall]. rewrite Hd.
    assert (48 <= Z.of_nat (nat_of_ascii ch)) as Hge.
    { unfold Regex.is_digit in Hd. apply andb_prop in Hd as [H1 _].
      apply Nat.leb_le in H1. lia. }
    destruct (IH (acc * 10 + (Z.of_nat (nat_of_ascii ch) - 48)) true Hall) as (v & Hv & Hle);
      [lia|by left|].
    exists v. split; [done|lia].
Qed.

Lemma parseInt_decimal d :
  decimal d -> exists v, ParseInt.parseInt d = Some v /\ 0 <= v.
Proof.
  intros [Hne Hall]. destruct d as [|ch d]; [done|].
  assert (Hd : Regex.is_digit ch = true).
  { simpl in Hall. by apply andb_prop in Hall as [? _]. }
  unfold ParseInt.parseInt. simpl ParseInt.skipSpaces.
  rewrite (digit_not_space _ Hd).
  destruct (digits_decimal 0 false (String ch d) Hall) as (v & Hv & Hle);
    [lia|by right|].
  exists v. split; [|done].
  destruct (Ascii.eqb_spec ch "-") as [->|Hm]; [done|].
  destruct (Ascii.eqb_spec ch "+") as [->|Hp]; [done|].
  destruct ch as [[] [] [] [] [] [] [] []]; try done.
Qed.

(** *** The scan on scripts given letter by letter *)

Lemma is_digit_spec ch :
  Regex.is_digit ch = false <-> (nat_of_ascii ch < 48 \/ 57 < nat_of_ascii ch)%nat.
Proof.
  unfold Regex.is_digit. cbv zeta. rewrite andb_false_iff, !Nat.leb_gt. lia.
Qed.

Lemma digit_char d :
  0 <= d <= 9 ->
  Regex.is_digit (ascii_of_nat (48 + Z.to_nat d)) = true /\
  Z.of_nat (nat_of_ascii (ascii_of_nat (48 + Z.to_nat d))) - 48 = d.
Proof.
  intros Hd.
  assert (d = 0 \/ d = 1 \/ d = 2 \/ d = 3 \/ d = 4 \/ d = 5 \/ d = 6 \/ d = 7 \/
          d = 8 \/ d = 9) as Hc by lia.
  repeat (destruct Hc as [->|Hc]; [by vm_compute|]). subst d. by vm_compute.
Qed.

Lemma decimal_numeral sts :
  decimal sts ->
  exists ds, ds <> [] /\ Forall (fun d => 0 <= d <= 9) ds /\ sts = numeral ds.
Proof.
  intros [Hne Hall].
  assert (exists ds, Forall (fun d => 0 <= d <= 9) ds /\ sts = numeral ds /\
                     (ds = [] -> sts = "")) as (ds & Hds & Hs & Hnil).
  { clear Hne. induction sts as [|ch sts IH]; [by exists []|].
    simpl in Hall. apply andb_prop in Hall as [Hd Hall].
    destruct (IH Hall) as (ds & Hds & Hs & _).
    unfold Regex.is_digit in Hd. cbv zeta in Hd. apply andb_prop in Hd as [H1 H2].
    apply Nat.leb_le in H1, H2.
    exists (Z.of_nat (nat_of_ascii ch) - 48 :: ds). split; [constructor; [lia|done]|].
    split; [|done]. cbn [foldr]. rewrite <- Hs.
    replace (48 + Z.to_nat (Z.of_nat (nat_of_ascii ch) - 48))%nat with (nat_of_ascii ch)
      by lia.
    by rewrite ascii_nat_embedding. }
  exists ds. split; [|done]. intros ->. by apply Hne, Hnil.
Qed.

Lemma digits_numeral acc seen ds :
  Forall (fun d => 0 <= d <= 9) ds -> (seen = true \/ ds <> []) ->
  ParseInt.digits acc seen (numeral ds) = Some (foldl (fun a d => 10 * a + d) acc ds).
Proof.
  intros Hds. revert acc seen. induction Hds as [|d ds Hd _ IH]; intros acc seen Hs.
  - destruct Hs as [->|]; done.
  - cbn [foldr foldl ParseInt.digits].
    destruct (digit_char d Hd) as [-> ->].
    rewrite IH by by left. f_equal. f_equal. lia.
Qed.

(** [parseInt] of a numeral is the number it writes. *)
Lemma parseInt_numeral ds :
  ds <> [] -> Forall (fun d => 0 <= d <= 9) ds ->
  ParseInt.parseInt (numeral ds) = Some (foldl (fun a d => 10 * a + d) 0 ds).
Proof.
  intros Hne Hds. destruct ds as [|d ds]; [done|].
  rewrite <- (digits_numeral 0 false (d :: ds) Hds) by by right.
  inversion Hds as [|? ? Hd _]; subst.
  destruct (digit_char d Hd) as [Hdig _].
  unfold ParseInt.parseInt. cbn [foldr ParseInt.skipSpaces].
  rewrite (digit_not_space _ Hdig).
  set (ch := ascii_of_nat (48 + Z.to_nat d)) in *.
  destruct (Ascii.eqb_spec ch "-") as [E|_]; [by rewrite E in Hdig|].
  destruct (Ascii.eqb_spec ch "+") as [E|_]; [by rewrite E in Hdig|].
  destruct ch as [[] [] [] [] [] [] [] []]; try done.
Qed.

Lemma append_nil_l (s : string) : "" ++ s = s.
Proof. reflexivity. Qed.

Lemma append_cons ch (a b : string) : String ch a ++ b = String ch (a ++ b).
Proof. reflexivity. Qed.

Lemma append_nil_r (s : string) : s ++ "" = s.
Proof. induction s as [|ch s IH]; [done|]. by rewrite append_cons, IH. Qed.

Lemma append_assoc (a b c : string) : (a ++ b) ++ c = a ++ b ++ c.
Proof. induction a as [|ch a IH]; [done|]. by rewrite !append_cons, IH. Qed.

Local Ltac sapp := rewrite ?append_cons, ?append_nil_l.

Lemma moreDigits_numeral acc ds rest :
  Forall (fun d => 0 <= d <= 9) ds ->
  (forall ch rest', rest = String ch rest' -> Regex.is_digit ch = false) ->
  Regex.moreDigits (fun d s' => Regex.matchAt [] (Some d) s') acc (numeral ds ++ rest)
  = Some (Some (acc ++ numeral ds)).
Proof.
  intros Hds Hrest. revert acc. induction Hds as [|d ds Hd _ IH]; intros acc.
  - cbn [foldr]. sapp. rewrite append_nil_r.
    destruct rest as [|ch rest']; [done|]. cbn [Regex.moreDigits].
    by rewrite (Hrest ch rest' eq_refl).
  - cbn [foldr]. sapp. cbn [Regex.moreDigits].
    destruct (digit_char d Hd) as [-> _]. rewrite IH, append_assoc. by sapp.
Qed.

Lemma plusDigits_numeral ds rest :
  ds <> [] -> Forall (fun d => 0 <= d <= 9) ds ->
  (forall ch rest', rest = String ch rest' -> Regex.is_digit ch = false) ->
  Regex.matchAt [Regex.Digits] None (numeral ds ++ rest) = Some (Some (numeral ds)).
Proof.
  intros Hne Hds Hrest. destruct ds as [|d ds]; [done|].
  inversion Hds as [|? ? Hd Hds']; subst.
  cbn [foldr]. sapp. cbn [Regex.matchAt Regex.plusDigits].
  destruct (digit_char d Hd) as [-> _].
  by rewrite (moreDigits_numeral _ ds rest Hds' Hrest).
Qed.

Lemma starSpaces_blank {A} (k : string -> option A) ws tail r :
  Forall (fun ch => Regex.is_space ch = true) (chars ws) ->
  (forall ch tail', tail = String ch tail' -> Regex.is_space ch = false) ->
  k tail = Some r ->
  Regex.starSpaces k (ws ++ tail) = Some r.
Proof.
  intros Hws Htail Hk. induction ws as [|ch ws IH].
  - sapp. destruct tail as [|c tail']; [done|].
    cbn [Regex.starSpaces]. by rewrite (Htail c tail' eq_refl).
  - cbn [list_ascii_of_string] in Hws. inversion Hws as [|? ? Hc Hws']; subst.
    sapp. cbn [Regex.starSpaces]. by rewrite Hc, (IH Hws').
Qed.

(** The first pattern at a place where it stands. *)
Lemma matchAt_first_pattern key ws ds rest :
  key = "signatureTimestamp" \/ key = "sts" ->
  Forall (fun ch => Regex.is_space ch = true) (chars ws) ->
  ds <> [] -> Forall (fun d => 0 <= d <= 9) ds ->
  (forall ch rest', rest = String ch rest' -> Regex.is_digit ch = false) ->
  Regex.matchAt [Regex.Alt "signatureTimestamp" "sts"; Regex.Lit ":"; Regex.Spaces;
                 Regex.Digits] None (key ++ ":" ++ ws ++ numeral ds ++ rest)
  = Some (Some (numeral ds)).
Proof.
  intros Hkey Hws Hne Hds Hrest.
  assert (Regex.starSpaces (Regex.matchAt [Regex.Digits] None) (ws ++ numeral ds ++ rest)
          = Some (Some (numeral ds))) as Hs.
  { apply starSpaces_blank; [done| |by apply plusDigits_numeral].
    destruct ds as [|d ds]; [done|]. inversion Hds as [|? ? Hd _]; subst.
    cbn [foldr]. sapp. intros ch tail' [= <- _].
    apply digit_not_space. by destruct (digit_char d Hd). }
  destruct Hkey as [-> | ->].
  - change (Regex.matchAt
              [Regex.Alt "signatureTimestamp" "sts"; Regex.Lit ":"; Regex.Spaces;
               Regex.Digits] None
              ("signatureTimestamp" ++ ":" ++ ws ++ numeral ds ++ rest))
      with (match Regex.starSpaces (Regex.matchAt [Regex.Digits] None)
                    (ws ++ numeral ds ++ rest) with
            | Some r => Some r
            | None => None
            end).
    by rewrite Hs.
  - change (Regex.matchAt
              [Regex.Alt "signatureTimestamp" "sts"; Regex.Lit ":"; Regex.Spaces;
               Regex.Digits] None
              ("sts" ++ ":" ++ ws ++ numeral ds ++ rest))
      with (Regex.starSpaces (Regex.matchAt [Regex.Digits] None)
              (ws ++ numeral ds ++ rest)).
    exact Hs.
Qed.

Lemma search_first_pattern pre t r :
  ~ In "s"%char (chars pre) ->
  Regex.matchAt [Regex.Alt "signatureTimestamp" "sts"; Regex.Lit ":"; Regex.Spaces;
                 Regex.Digits] None t = Some r ->
  Regex.search [Regex.Alt "signatureTimestamp" "sts"; Regex.Lit ":"; Regex.Spaces;
                Regex.Digits] (pre ++ t) = Some r.
Proof.
  intros Hpre Ht. induction pre as [|ch pre IH].
  - sapp. destruct t; cbn [Regex.search]; by rewrite Ht.
  - cbn [list_ascii_of_string] in Hpre.
    assert (Ascii.eqb "s" ch = false) as Hch.
    { apply Ascii.eqb_neq. intros <-. apply Hpre. by left. }
    sapp. cbn [Regex.search Regex.matchAt Regex.strip]. rewrite Hch.
    apply IH. intros Hin. apply Hpre. by right.
Qed.

Lemma not_in_chars c s :
  forallb (fun ch => negb (Ascii.eqb c ch)) (chars s) = true -> ~ In c (chars s).
Proof.
  induction s as [|ch s IH]; cbn [list_ascii_of_string forallb]; [by intros _ []|].
  intros H. apply andb_prop in H as [Hc Hs]. intros [->|Hin]; [|by apply IH].
  by rewrite Ascii.eqb_refl in Hc.
Qed.

(** A script without digits matches none of the patterns. *)
Lemma strip_chars l s s' :
  Regex.strip l s = Some s' -> forall ch, In ch (chars s') -> In ch (chars s).
Proof.
  revert s. induction l as [|a l IH]; intros s; cbn [Regex.strip].
  - by intros [= ->].
  - destruct s as [|b s]; [done|]. destruct (Ascii.eqb a b); [|done].
    intros H ch Hin. right. by apply (IH s).
Qed.

Lemma starSpaces_None {A} (k : string -> option A) s :
  (forall s', (forall ch, In ch (chars s') -> In ch (chars s)) -> k s' = None) ->
  Regex.starSpaces k s = None.
Proof.
  induction s as [|ch s IH]; intros Hk; cbn [Regex.starSpaces].
  - by apply Hk.
  - rewrite IH; [|intros s' Hs'; apply Hk; intros c Hc; right; by apply Hs'].
    rewrite Hk by done. by destruct (Regex.is_space ch).
Qed.

Lemma matchAt_no_digit p cap s :
  In Regex.Digits p ->
  (forall ch, In ch (chars s) -> Regex.is_digit ch = false) ->
  Regex.matchAt p cap s = None.
Proof.
  revert cap s. induction p as [|a p IH]; intros cap s Hin Hs; [done|].
  destruct a as [l|x y| |]; cbn [Regex.matchAt].
  - destruct Hin as [|Hin]; [done|].
    destruct (Regex.strip l s) as [s'|] eqn:Hl; [|done].
    apply IH; [done|]. intros ch Hch. apply Hs. by apply (strip_chars l s s').
  - destruct Hin as [|Hin]; [done|].
    assert (forall z, match Regex.strip z s with
                      | Some s' => Regex.matchAt p cap s'
                      | None => None
                      end = None) as Hz.
    { intros z. destruct (Regex.strip z s) as [s'|] eqn:Hl; [|done].
      apply IH; [done|]. intros ch Hch. apply Hs. by apply (strip_chars z s s'). }
    by rewrite !Hz.
  - destruct Hin as [|Hin]; [done|].
    apply starSpaces_None. intros s' Hs'. apply IH; [done|].
    intros ch Hch. by apply Hs, Hs'.
  - destruct s as [|ch s]; [done|]. cbn [Regex.plusDigits].
    rewrite (Hs ch); [done|by left].
Qed.

Lemma search_no_digit p s :
  In Regex.Digits p ->
  (forall ch, In ch (chars s) -> Regex.is_digit ch = false) ->
  Regex.search p s = None.
Proof.
  intros Hin. induction s as [|ch s IH]; intros Hs; cbn [Regex.search].
  - by rewrite matchAt_no_digit.
  - rewrite matchAt_no_digit by done. apply IH. intros c Hc. apply Hs. by right.
Qed.

Lemma firstMatch_no_digit s :
  (forall ch, In ch (chars s) -> Regex.is_digit ch = false) ->
  Handlers.firstMatch Handlers.patterns s = None.
Proof.
  intros Hs.
  assert (Forall (fun p => In Regex.Digits p) Handlers.patterns) as Hps.
  { repeat (constructor; [cbn; tauto|]). constructor. }
  induction Hps as [|p ps Hp _ IH]; [done|].
  cbn [Handlers.firstMatch]. by rewrite search_no_digit.
Qed.

(** The scan of a script that holds [signatureTimestamp:] or [sts:] and a
    numeral after a prefix without the letter [s]. *)
Lemma firstMatch_first_pattern pre key ws ds rest :
  ~ In "s"%char (chars pre) ->
  key = "signatureTimestamp" \/ key = "sts" ->
  Forall (fun ch => ch = " "%char \/ ch = "009"%char \/ ch = "010"%char) (chars ws) ->
  ds <> [] -> Forall (fun d => 0 <= d <= 9) ds ->
  (forall ch rest', rest = String ch rest' ->
     (nat_of_ascii ch < 48 \/ 57 < nat_of_ascii ch)%nat) ->
  Handlers.firstMatch Handlers.patterns (pre ++ key ++ ":" ++ ws ++ numeral ds ++ rest)
  = Some (numeral ds).
Proof.
  intros Hpre Hkey Hws Hne Hds Hrest.
  apply firstMatch_first, search_first_pattern; [done|].
  apply matchAt_first_pattern; try done.
  - eapply Forall_impl; [exact Hws|]. by intros ch [-> | [-> | ->]].
  - intros ch rest' E. apply is_digit_spec. by apply (Hrest ch rest').
Qed.

End regex_facts.

Section sts_facts.
Variable sha256hex : string -> string.
Variable fetch : string -> JS.outcome (Z * string).

Lemma handleGetSts_miss player_url (w w1 : World) path f :
  Pipeline.getPlayerFilePath sha256hex fetch player_url w = (JS.Returned path, w1) ->
  JS.truthy_opt (fst (InstrumentedLRU.get (clock w1) path (stsCache w1))) = false ->
  disk w1 !! path = Some f ->
  Handlers.handleGetSts sha256hex fetch player_url w
  = Handlers.scanPlayer path (content f)
      (set_stsCache w1 (snd (InstrumentedLRU.get (clock w1) path (stsCache w1)))).
Proof.
  intros Hp Hmiss Hf. unfold Handlers.handleGetSts. rewrite Hp.
  destruct (InstrumentedLRU.get (clock w1) path (stsCache w1)) as [cached c].
  simpl in *. rewrite Hf. destruct cached as [sts|]; [|done].
  simpl in Hmiss. by rewrite Hmiss.
Qed.

Lemma scanPlayer_short path script w :
  Z.of_nat (String.length script) < 1000 ->
  Handlers.scanPlayer path script w
  = (Handlers.respond 500 (Handlers.PlainError "Invalid or too short player content"), w).
Proof.
  intros Hlen. unfold Handlers.scanPlayer.
  destruct (Z.ltb_spec (Z.of_nat (String.length script)) 1000); [|lia].
  by rewrite orb_true_r.
Qed.

Lemma scanPlayer_long path script w :
  1000 <= Z.of_nat (String.length script) ->
  Handlers.scanPlayer path script w
  = match Handlers.firstMatch Handlers.patterns script with
    | None =>
        (Handlers.respond 404
           (Handlers.PlainError "Signature timestamp not found in player script"), w)
    | Some sts =>
        if Handlers.invalidSts sts then
          (Handlers.respond 400 (Handlers.PlainError "Invalid signature timestamp value"), w)
        else
          ({| Handlers.status := 200; Handlers.body := Handlers.Sts sts;
              Handlers.xCacheHit := Some "false" |},
           set_stsCache w (InstrumentedLRU.set (clock w) path sts (stsCache w)))
    end.
Proof.
  intros Hlen. unfold Handlers.scanPlayer.
  destruct (Z.ltb_spec (Z.of_nat (String.length script)) 1000); [lia|].
  assert (JS.truthy script = true) as ->; [|done].
  apply truthy_nonempty. by intros ->.
Qed.

Lemma handleGetSts_cached player_url (w w1 : World) path sts :
  Pipeline.getPlayerFilePath sha256hex fetch player_url w = (JS.Returned path, w1) ->
  fst (InstrumentedLRU.get (clock w1) path (stsCache w1)) = Some sts ->
  JS.truthy sts = true ->
  fst (Handlers.handleGetSts sha256hex fetch player_url w)
  = {| Handlers.status := 200; Handlers.body := Handlers.Sts sts;
       Handlers.xCacheHit := Some "true" |}.
Proof.
  intros Hp Hget Ht. unfold Handlers.handleGetSts. rewrite Hp.
  destruct (InstrumentedLRU.get (clock w1) path (stsCache w1)) as [cached c].
  simpl in Hget. subst cached. by rewrite Ht.
Qed.

(** C5.  For a [get_sts] request whose player script is on disk.  When the
    STS cache answers a non-empty value for the path of the script, that
    value is the answer, with status 200 and [X-Cache-Hit: true], and the
    script is not looked at.  Otherwise: a script of fewer than 1000 code
    units is rejected as invalid player content; a longer one is scanned with
    the ordered pattern list, the first being
    [(?:signatureTimestamp|sts):\s*(\d+)] and the first pattern that matches
    deciding.  The matched value is a decimal numeral [ds]; [parseInt] reads
    it as the number [v] its digits write; when [v] is above 9999999999 the
    request is rejected as an invalid STS value, while for [v] in
    [0, 9999999999] the numeral is the body of the answer, with status 200,
    and is put in the STS cache at the time of the call, where a read of the
    path within the TTL finds it (the capacity being at least 1); when no
    pattern matches the answer has status 404.  On the scan itself: a script
    made of a part without the letter [s], then [signatureTimestamp] or [sts],
    a colon, blanks, tabs or line feeds, a numeral and a rest that does not
    begin with a digit, yields that numeral; a script without any digit
    matches no pattern. *)
Theorem C5_sts_from_script player_url (w w1 : World) path f :
  Pipeline.getPlayerFilePath sha256hex fetch player_url w = (JS.Returned path, w1) ->
  disk w1 !! path = Some f ->
  let script := content f in
  let cached := fst (InstrumentedLRU.get (clock w1) path (stsCache w1)) in
  let r := Handlers.handleGetSts sha256hex fetch player_url w in
  (forall sts, cached = Some sts -> JS.truthy sts = true ->
     fst r = {| Handlers.status := 200; Handlers.body := Handlers.Sts sts;
                Handlers.xCacheHit := Some "true" |}) /\
  (JS.truthy_opt cached = false ->
   (Z.of_nat (String.length script) < 1000 ->
    fst r = Handlers.respond 500
              (Handlers.PlainError "Invalid or too short player content")) /\
   (1000 <= Z.of_nat (String.length script) ->
    (Handlers.firstMatch Handlers.patterns script = None ->
     fst r = Handlers.respond 404
               (Handlers.PlainError "Signature timestamp not found in player script")) /\
    (forall sts, Handlers.firstMatch Handlers.patterns script = Some sts ->
       decimal sts /\
       exists ds v, ds <> [] /\ Forall (fun d => 0 <= d <= 9) ds /\
         sts = numeral ds /\
         v = foldl (fun a d => 10 * a + d) 0 ds /\
         ParseInt.parseInt sts = Some v /\ 0 <= v /\
         (9999999999 < v ->
          fst r = Handlers.respond 400
                    (Handlers.PlainError "Invalid signature timestamp value")) /\
         (v <= 9999999999 ->
          fst r = {| Handlers.status := 200; Handlers.body := Handlers.Sts sts;
                     Handlers.xCacheHit := Some "false" |} /\
          InstrumentedLRU.entries (stsCache (snd r)) !! path
          = Some (InstrumentedLRU.Entry sts (clock w1)) /\
          (1 <= LRU.maxSize (InstrumentedLRU.lru (stsCache w1)) ->
           forall t, t - clock w1 <= InstrumentedLRU.ttl (stsCache w1) ->
             fst (InstrumentedLRU.get t path (stsCache (snd r))) = Some sts))))) /\
  (forall pre key ws ds rest,
     script = pre ++ key ++ ":" ++ ws ++ numeral ds ++ rest ->
     ~ In "s"%char (chars pre) ->
     key = "signatureTimestamp" \/ key = "sts" ->
     Forall (fun ch => ch = " "%char \/ ch = "009"%char \/ ch = "010"%char) (chars ws) ->
     ds <> [] -> Forall (fun d => 0 <= d <= 9) ds ->
     (forall ch rest', rest = String ch rest' ->
        (nat_of_ascii ch < 48 \/ 57 < nat_of_ascii ch)%nat) ->
     Handlers.firstMatch Handlers.patterns script = Some (numeral ds)) /\
  ((forall ch, In ch (chars script) -> (nat_of_ascii ch < 48 \/ 57 < nat_of_ascii ch)%nat) ->
   Handlers.firstMatch Handlers.patterns script = None) /\
  head Handlers.patterns
  = Some [Regex.Alt "signatureTimestamp" "sts"; Regex.Lit ":"; Regex.Spaces; Regex.Digits] /\
  (forall p ps m, Regex.search p script = Some (Some m) ->
     Handlers.firstMatch (p :: ps) script = Some m) /\
  (forall p ps, Regex.search p script = None ->
     Handlers.firstMatch (p :: ps) script = Handlers.firstMatch ps script).
Proof.
  intros Hp Hf script cached r.
  split; [|split; [|split; [|split; [|split; [done|split]]]]].
  - intros sts Hc Ht. by apply (handleGetSts_cached player_url w w1 path sts).
  - intros Hmiss.
    assert (Hr : r = Handlers.scanPlayer path script
      (set_stsCache w1 (snd (InstrumentedLRU.get (clock w1) path (stsCache w1))))).
    { by apply handleGetSts_miss. }
    split.
    + intros Hlen. by rewrite Hr, scanPlayer_short.
    + intros Hlen. rewrite Hr, scanPlayer_long by done. split.
      * by intros ->.
      * intros sts Hm. rewrite Hm. pose proof (firstMatch_decimal _ _ _ Hm) as Hd.
        split; [done|].
        destruct (decimal_numeral sts Hd) as (ds & Hne & Hds & ->).
        pose proof (parseInt_numeral ds Hne Hds) as Hv.
        destruct (parseInt_decimal _ Hd) as (v' & Hv' & Hpos).
        rewrite Hv in Hv'. injection Hv' as Hv'.
        set (v := foldl (fun a d => 10 * a + d) 0 ds) in *.
        exists ds, v. do 5 (split; [done|]). split; [lia|].
        unfold Handlers.invalidSts. rewrite Hv.
        destruct (Z.ltb_spec v 0); [lia|]. simpl. split.
        -- intros Hbig. destruct (Z.gtb_spec v 9999999999); [done|lia].
        -- intros Hok. destruct (Z.gtb_spec v 9999999999); [lia|].
           split; [done|]. cbn [snd stsCache set_stsCache clock]. split.
           ++ apply set_entry.
           ++ intros Hcap t Ht.
              destruct (ttl_get (clock w1) path (stsCache w1)) as [Httl' Hcap'].
              apply get_after_set; [by rewrite Hcap'|by rewrite Httl'].
  - intros pre key ws ds rest -> Hpre Hkey Hws Hne Hds Hrest.
    by apply firstMatch_first_pattern.
  - intros Hnone. apply firstMatch_no_digit. intros ch Hch.
    apply is_digit_spec. by apply Hnone.
  - intros p ps m. apply firstMatch_first.
  - intros p ps. apply firstMatch_next.
Qed.

(** C5 does not hold as stated.  A script of 1000 bytes whose first
    character takes two of them has 999 code units: it holds
    [signatureTimestamp:19999], yet the request is rejected as too short.
    And a script of one byte is not rejected when the STS cache holds a value
    for its path: the cached value is the answer. *)
Lemma C5_length_in_code_units_and_cache_first :
  let path := Pipeline.filePathOf Sample.sha256hex Sample.playerUrl in
  Str.utf8Length Probe.accentedScript = 1000 /\
  Z.of_nat (String.length Probe.accentedScript) = 999 /\
  Handlers.firstMatch Handlers.patterns Probe.accentedScript = Some "19999" /\
  fst (Handlers.handleGetSts Sample.sha256hex Sample.fetch Sample.playerUrl
         (Probe.worldWith Probe.accentedScript (stsCache coldWorld)))
  = Handlers.respond 500 (Handlers.PlainError "Invalid or too short player content") /\
  fst (Handlers.handleGetSts Sample.sha256hex Sample.fetch Sample.playerUrl
         (Probe.worldWith "x" (InstrumentedLRU.set 0 path "19999" (stsCache coldWorld))))
  = {| Handlers.status := 200; Handlers.body := Handlers.Sts "19999";
       Handlers.xCacheHit := Some "true" |}.
Proof. vm_compute. repeat split; reflexivity. Qed.

End sts_facts.

(** The boundary values of the STS scan, on scripts of more than 1000
    characters. *)
Example sts_accepts_zero :
  fst (Handlers.scanPlayer "p" (Sample.spaces 1000 ++ "signatureTimestamp: 0;") coldWorld)
  = {| Handlers.status := 200; Handlers.body := Handlers.Sts "0";
       Handlers.xCacheHit := Some "false" |}.
Proof. vm_compute. reflexivity. Qed.

Example sts_accepts_largest :
  fst (Handlers.scanPlayer "p"
         (Sample.spaces 1000 ++ Handlers.dq ++ "sts" ++ Handlers.dq ++ ": 9999999999}")
         coldWorld)
  = {| Handlers.status := 200; Handlers.body := Handlers.Sts "9999999999";
       Handlers.xCacheHit := Some "false" |}.
Proof. vm_compute. reflexivity. Qed.

Example sts_rejects_above_largest :
  fst (Handlers.scanPlayer "p" (Sample.spaces 1000 ++ "sts = 10000000000;") coldWorld)
  = Handlers.respond 400 (Handlers.PlainError "Invalid signature timestamp value").
Proof. vm_compute. reflexivity. Qed.

Example sts_absent :
  fst (Handlers.scanPlayer "p" (Sample.spaces 1000 ++ "var timestamp = -1;") coldWorld)
  = Handlers.respond 404
      (Handlers.PlainError "Signature timestamp not found in player script").
Proof. vm_compute. reflexivity. Qed.

Example sts_first_pattern_wins :
  Handlers.firstMatch Handlers.patterns "sts = 12; x = {signatureTimestamp:19999}"
  = Some "19999".
Proof. vm_compute. reflexivity. Qed.

(** ** C8: the start-up sweep of the player directory *)

Section sweep_facts.
Variable dateNow : nat -> Z.
Implicit Types (entries : list PlayerCache.DirEntry) (e : PlayerCache.DirEntry).

Lemma sweep_cons e entries i c :
  PlayerCache.sweep dateNow i (e :: entries) c
  = if PlayerCache.doomed dateNow i e then
      let r := PlayerCache.sweep dateNow (S i) entries c in
      {| PlayerCache.kept := PlayerCache.kept r;
         PlayerCache.removed := PlayerCache.name e :: PlayerCache.removed r;
         PlayerCache.fileCount := PlayerCache.fileCount r |}
    else
      let r := PlayerCache.sweep dateNow (S i) entries
                 (if PlayerCache.isFile e then c + 1 else c) in
      {| PlayerCache.kept := e :: PlayerCache.kept r;
         PlayerCache.removed := PlayerCache.removed r;
         PlayerCache.fileCount := PlayerCache.fileCount r |}.
Proof.
  unfold PlayerCache.doomed. simpl.
  destruct (PlayerCache.isFile e); [|done].
  by destruct (PlayerCache.stale _ _).
Qed.

Lemma sweep_forward entries i c j e :
  entries !! j = Some e ->
  (PlayerCache.doomed dateNow (i + j) e = true ->
   PlayerCache.name e ∈ PlayerCache.removed (PlayerCache.sweep dateNow i entries c)) /\
  (PlayerCache.doomed dateNow (i + j) e = false ->
   e ∈ PlayerCache.kept (PlayerCache.sweep dateNow i entries c)).
Proof.
  revert i c j. induction entries as [|e0 entries IH]; intros i c j Hj; [done|].
  rewrite sweep_cons. destruct j as [|j]; simpl in Hj.
  - injection Hj as ->. rewrite Nat.add_0_r.
    destruct (PlayerCache.doomed dateNow i e); simpl;
      (split; [intros ?|intros ?]); try done; apply list_elem_of_here.
  - replace (i + S j)%nat with (S i + j)%nat by lia.
    destruct (PlayerCache.doomed dateNow i e0); simpl.
    + destruct (IH (S i) c j Hj) as [H1 H2].
      split; [intros H; apply list_elem_of_further; auto|auto].
    + destruct (IH (S i) (if PlayerCache.isFile e0 then c + 1 else c) j Hj) as [H1 H2].
      split; [auto|intros H; apply list_elem_of_further; auto].
Qed.

Lemma sweep_removed entries i c nm :
  nm ∈ PlayerCache.removed (PlayerCache.sweep dateNow i entries c) ->
  exists j e, entries !! j = Some e /\ PlayerCache.name e = nm /\
    PlayerCache.doomed dateNow (i + j) e = true.
Proof.
  revert i c. induction entries as [|e0 entries IH]; intros i c; [by intros H; inversion H|].
  rewrite sweep_cons. destruct (PlayerCache.doomed dateNow i e0) eqn:Hd; simpl.
  - intros H. apply elem_of_cons in H as [->|H].
    + exists 0%nat, e0. by rewrite Nat.add_0_r.
    + destruct (IH _ _ H) as (j & e & Hj & Hn & Hdj). exists (S j), e.
      replace (i + S j)%nat with (S i + j)%nat by lia. done.
  - intros H. destruct (IH _ _ H) as (j & e & Hj & Hn & Hdj). exists (S j), e.
    replace (i + S j)%nat with (S i + j)%nat by lia. done.
Qed.

Lemma sweep_kept entries i c e :
  e ∈ PlayerCache.kept (PlayerCache.sweep dateNow i entries c) ->
  exists j, entries !! j = Some e /\ PlayerCache.doomed dateNow (i + j) e = false.
Proof.
  revert i c. induction entries as [|e0 entries IH]; intros i c; [by intros H; inversion H|].
  rewrite sweep_cons. destruct (PlayerCache.doomed dateNow i e0) eqn:Hd; simpl.
  - intros H. destruct (IH _ _ H) as (j & Hj & Hdj). exists (S j).
    replace (i + S j)%nat with (S i + j)%nat by lia. done.
  - intros H. apply elem_of_cons in H as [->|H].
    + exists 0%nat. by rewrite Nat.add_0_r.
    + destruct (IH _ _ H) as (j & Hj & Hdj). exists (S j).
      replace (i + S j)%nat with (S i + j)%nat by lia. done.
Qed.

Lemma sweep_count entries i c :
  PlayerCache.fileCount (PlayerCache.sweep dateNow i entries c)
  = c + Z.of_nat (length (filter (fun e => PlayerCache.isFile e = true)
                            (PlayerCache.kept (PlayerCache.sweep dateNow i entries c)))).
Proof.
  revert i c. induction entries as [|e0 entries IH]; intros i c; [simpl; lia|].
  rewrite sweep_cons. destruct (PlayerCache.doomed dateNow i e0) eqn:Hd; simpl.
  - apply IH.
  - rewrite IH. destruct (PlayerCache.isFile e0) eqn:Hf.
    + rewrite filter_cons_True by done. simpl length. lia.
    + rewrite filter_cons_False by congruence. done.
Qed.

Lemma stale_spec now f :
  PlayerCache.stale now f = true <->
  exists t, PlayerCache.lastAccessed f = Some t /\ t <> 0 /\
            PlayerCache.fourteenDays < now - t.
Proof.
  unfold PlayerCache.stale. destruct (PlayerCache.lastAccessed f) as [t|].
  - rewrite andb_true_iff, negb_true_iff, Z.eqb_neq, Z.gtb_gt. split.
    + intros [H1 H2]. exists t. split; [done|]. split; [done|lia].
    + intros (t' & [= <-] & H1 & H2). split; [done|lia].
  - split; [done|]. by intros (t & ? & _).
Qed.

(** C8, as the code has it.  The start-up sweep deletes exactly the regular
    files whose first available time among atime, mtime and birthtime, in
    this order, is not zero and lies more than 14 days before the clock
    reading made for the file; every other entry stays; and the number of
    regular files that stay is set on the player cache size gauge. *)
Theorem C8_sweep_by_first_available_time entries :
  let r := PlayerCache.initializeCache dateNow entries in
  (forall i e, entries !! i = Some e ->
     (PlayerCache.doomed dateNow i e = true -> PlayerCache.name e ∈ PlayerCache.removed r) /\
     (PlayerCache.doomed dateNow i e = false -> e ∈ PlayerCache.kept r)) /\
  (forall nm, nm ∈ PlayerCache.removed r ->
     exists i e, entries !! i = Some e /\ PlayerCache.name e = nm /\
       PlayerCache.doomed dateNow i e = true) /\
  (forall e, e ∈ PlayerCache.kept r ->
     exists i, entries !! i = Some e /\ PlayerCache.doomed dateNow i e = false) /\
  PlayerCache.fileCount r
  = Z.of_nat (length (filter (fun e => PlayerCache.isFile e = true) (PlayerCache.kept r))) /\
  (forall i e, PlayerCache.doomed dateNow i e = true <->
     PlayerCache.isFile e = true /\
     exists t, PlayerCache.lastAccessed (PlayerCache.stat e) = Some t /\ t <> 0 /\
       PlayerCache.fourteenDays < dateNow i - t) /\
  (forall f, PlayerCache.lastAccessed f
     = match atime f, mtime f with
       | Some t, _ => Some t
       | None, Some t => Some t
       | None, None => birthtime f
       end).
Proof.
  intros r. unfold r, PlayerCache.initializeCache.
  split; [|split; [|split; [|split; [|split]]]].
  - intros i e Hi. apply (sweep_forward entries 0 0 i e Hi).
  - intros nm H. apply (sweep_removed entries 0 0 nm H).
  - intros e H. apply (sweep_kept entries 0 0 e H).
  - by rewrite sweep_count.
  - intros i e. unfold PlayerCache.doomed. by rewrite andb_true_iff, stale_spec.
  - intros f. unfold PlayerCache.lastAccessed. by destruct (atime f), (mtime f).
Qed.

End sweep_facts.

(** C8 fails as stated: a file last accessed 20 days ago and modified one
    day ago has its newest time within the 14 days, and is deleted. *)
Lemma C8_recently_modified_file_deleted :
  let day := 24 * 60 * 60 * 1000 in
  let f := {| content := "var a;"; atime := Some (1 * day);
              mtime := Some (20 * day); birthtime := Some (1 * day) |} in
  let e := {| PlayerCache.name := "h.js"; PlayerCache.isFile := true;
              PlayerCache.stat := f |} in
  let r := PlayerCache.initializeCache (fun _ => 21 * day) [e] in
  PlayerCache.newest f = Some (20 * day) /\
  21 * day - 20 * day <= PlayerCache.fourteenDays /\
  PlayerCache.removed r = ["h.js"] /\
  PlayerCache.kept r = [] /\
  PlayerCache.fileCount r = 0.
Proof. vm_compute. repeat split; done. Qed.

(** ** The calls return *)

Section termination_facts.
Variable sha256hex : string -> string.
Variable fetch : string -> JS.outcome (Z * string).
Variable execInPool : string -> JS.outcome string.
Variable getFromPrepared : string -> JS.outcome (option Solvers).

Lemma stepPath_rank t w :
  (Pipeline.rankPath (fst (Pipeline.stepPath sha256hex fetch t w))
   <= pred (Pipeline.rankPath t))%nat.
Proof.
  destruct t as [u|u fp|u fp a m|u fp|u fp b|u fp c|fp|fp|msg]; simpl; try lia.
  - destruct (statFault (faults w) fp); [simpl; lia|].
    destruct (disk w !! fp); simpl; lia.
  - destruct (utimeFault (faults w) fp); [simpl; lia|].
    destruct (disk w !! fp); simpl; lia.
  - destruct (fetch u) as [[st b]|msg]; simpl; [|lia].
    destruct (Pipeline.ok st); simpl; lia.
  - destruct (textFault (faults w) u); simpl; lia.
  - destruct (writeFault (faults w) fp) as [[msg [partial|]]|]; simpl; lia.
  - destruct (readDirFault (faults w)); simpl; lia.
Qed.

Lemma runPath_rank k t w :
  (Pipeline.rankPath (fst (Pipeline.runPath sha256hex fetch k t w))
   <= Pipeline.rankPath t - k)%nat.
Proof.
  revert t w. induction k as [|k IH]; intros t w; simpl; [lia|].
  pose proof (stepPath_rank t w) as Hs.
  destruct (Pipeline.stepPath sha256hex fetch t w) as [t' w']. simpl in Hs.
  specialize (IH t' w'). lia.
Qed.

(** [getPlayerFilePath] resolves to a path or rejects: the seven steps
    are enough. *)
Lemma getPlayerFilePath_settles playerUrl w :
  match fst (Pipeline.runPath sha256hex fetch 7 (Pipeline.Hashing playerUrl) w) with
  | Pipeline.PathReady _ | Pipeline.PathFailed _ => True
  | _ => False
  end.
Proof.
  pose proof (runPath_rank 7 (Pipeline.Hashing playerUrl) w) as H.
  destruct (fst (Pipeline.runPath sha256hex fetch 7 (Pipeline.Hashing playerUrl) w));
    simpl in H; try lia; done.
Qed.

Lemma extractSolvers_rank key pp w :
  Pipeline.rank (fst (Pipeline.extractSolvers getFromPrepared key pp w)) = 0%nat.
Proof.
  unfold Pipeline.extractSolvers. by destruct (getFromPrepared pp) as [[s|]|msg].
Qed.

Lemma step_rank t w :
  (Pipeline.rank (fst (Pipeline.step sha256hex fetch execInPool getFromPrepared t w))
   <= pred (Pipeline.rank t))%nat.
Proof.
  destruct t as [p|key|key raw|r|msg]; simpl; try lia.
  - destruct p as [u|u fp|u fp a m|u fp|u fp b|u fp c|fp|fp|msg]; simpl; try lia.
    + destruct (statFault (faults w) fp); [simpl; lia|].
      destruct (disk w !! fp); simpl; lia.
    + destruct (utimeFault (faults w) fp); [simpl; lia|].
      destruct (disk w !! fp); simpl; lia.
    + destruct (fetch u) as [[st b]|msg]; simpl; [|lia].
      destruct (Pipeline.ok st); simpl; lia.
    + destruct (textFault (faults w) u); simpl; lia.
    + destruct (writeFault (faults w) fp) as [[msg [partial|]]|]; simpl; lia.
    + destruct (readDirFault (faults w)); simpl; lia.
    + unfold Pipeline.resume.
      destruct (InstrumentedLRU.get (clock w) fp (solverCache w)) as [[s|] sc]; simpl; [lia|].
      destruct (InstrumentedLRU.get (clock w) fp (preprocessedCache w)) as [pp pc].
      destruct (JS.truthy_opt pp); simpl; [|lia]. rewrite extractSolvers_rank. lia.
  - destruct (disk w !! key); simpl; lia.
  - destruct (execInPool raw) as [pp|msg]; simpl; [|lia].
    rewrite extractSolvers_rank. lia.
Qed.

Lemma run_rank k t w :
  (Pipeline.rank (fst (Pipeline.run sha256hex fetch execInPool getFromPrepared k t w))
   <= Pipeline.rank t - k)%nat.
Proof.
  revert t w. induction k as [|k IH]; intros t w; simpl; [lia|].
  pose proof (step_rank t w) as Hs.
  destruct (Pipeline.step sha256hex fetch execInPool getFromPrepared t w) as [t' w'].
  simpl in Hs. specialize (IH t' w'). lia.
Qed.

(** [getSolvers] returns or rejects: the eleven steps are enough. *)
Lemma getSolvers_settles player_url w :
  Pipeline.finished
    (fst (Pipeline.run sha256hex fetch execInPool getFromPrepared 11
            (Pipeline.InGetPlayerFilePath (Pipeline.Hashing player_url)) w)) = true.
Proof.
  pose proof (run_rank 11 (Pipeline.InGetPlayerFilePath (Pipeline.Hashing player_url)) w) as H.
  destruct (fst (Pipeline.run sha256hex fetch execInPool getFromPrepared 11
                   (Pipeline.InGetPlayerFilePath (Pipeline.Hashing player_url)) w))
    as [[]| | | |]; simpl in H; try lia; done.
Qed.

End termination_facts.

(** ** C3: concurrent calls of [getSolvers] *)

Section budget_facts.
Variable sha256hex : string -> string.
Variable fetch : string -> JS.outcome (Z * string).
Variable execInPool : string -> JS.outcome string.
Variable getFromPrepared : string -> JS.outcome (option Solvers).

Abbreviation step := (Pipeline.step sha256hex fetch execInPool getFromPrepared).
Abbreviation exec := (Pipeline.exec sha256hex fetch execInPool getFromPrepared).
Abbreviation exec1 := (Pipeline.exec1 sha256hex fetch execInPool getFromPrepared).

Lemma extractSolvers_counters key pp w :
  let r := Pipeline.extractSolvers getFromPrepared key pp w in
  playerScriptFetches (snd r) = playerScriptFetches w /\
  poolRuns (snd r) = poolRuns w /\
  Pipeline.fetchBudget (fst r) = 0%nat /\ Pipeline.poolBudget (fst r) = 0%nat.
Proof.
  unfold Pipeline.extractSolvers.
  destruct (getFromPrepared pp) as [[s|]|msg]; simpl; repeat split; lia.
Qed.

Lemma resume_counters key w :
  let r := Pipeline.resume getFromPrepared key w in
  playerScriptFetches (snd r) = playerScriptFetches w /\
  poolRuns (snd r) = poolRuns w /\
  Pipeline.fetchBudget (fst r) = 0%nat /\ (Pipeline.poolBudget (fst r) <= 1)%nat.
Proof.
  unfold Pipeline.resume.
  destruct (InstrumentedLRU.get (clock w) key (solverCache w)) as [[s|] sc]; simpl;
    [repeat split; lia|].
  destruct (InstrumentedLRU.get (clock w) key (preprocessedCache w)) as [pp pc].
  destruct (JS.truthy_opt pp); simpl; [|repeat split; lia].
  match goal with
  | |- context [Pipeline.extractSolvers _ ?k ?p ?w0] =>
      destruct (extractSolvers_counters k p w0) as (H1 & H2 & H3 & H4)
  end.
  rewrite H1, H2, H3, H4. simpl. lia.
Qed.

(** A step spends from the budgets what it adds to the counters. *)
Lemma step_budget t w :
  let r := step t w in
  (playerScriptFetches (snd r) + Pipeline.fetchBudget (fst r)
   <= playerScriptFetches w + Pipeline.fetchBudget t)%nat /\
  (poolRuns (snd r) + Pipeline.poolBudget (fst r)
   <= poolRuns w + Pipeline.poolBudget t)%nat /\
  (playerScriptFetches w <= playerScriptFetches (snd r))%nat /\
  (poolRuns w <= poolRuns (snd r))%nat.
Proof.
  destruct t as [p|key|key raw|r|msg]; simpl.
  - destruct p as [u|u fp|u fp a m|u fp|u fp b|u fp c|fp|fp|msg]; simpl;
      try (repeat split; lia).
    + destruct (statFault (faults w) fp); [simpl; repeat split; lia|].
      destruct (disk w !! fp); simpl; repeat split; lia.
    + destruct (utimeFault (faults w) fp); [simpl; repeat split; lia|].
      destruct (disk w !! fp); simpl; repeat split; lia.
    + destruct (fetch u) as [[st b]|msg]; simpl; [|repeat split; lia].
      destruct (Pipeline.ok st); simpl; repeat split; lia.
    + destruct (textFault (faults w) u); simpl; repeat split; lia.
    + destruct (writeFault (faults w) fp) as [[msg [partial|]]|]; simpl; repeat split; lia.
    + destruct (readDirFault (faults w)); simpl; repeat split; lia.
    + destruct (resume_counters fp w) as (H1 & H2 & H3 & H4).
      rewrite H1, H2, H3. repeat split; lia.
  - destruct (disk w !! key); simpl; repeat split; lia.
  - destruct (execInPool raw) as [pp|msg]; simpl; [|repeat split; lia].
    match goal with
    | |- context [Pipeline.extractSolvers _ ?k ?p ?w0] =>
        destruct (extractSolvers_counters k p w0) as (H1 & H2 & H3 & H4)
    end.
    rewrite H1, H2, H3, H4. simpl. repeat split; lia.
  - repeat split; lia.
  - repeat split; lia.
Qed.

Lemma total_insert (f : Pipeline.task -> nat) ts i t t' :
  ts !! i = Some t ->
  (Pipeline.total f (<[i := t']> ts) + f t = Pipeline.total f ts + f t')%nat.
Proof.
  revert i. induction ts as [|t0 ts IH]; intros [|i] Hi; simpl in *; try done.
  - injection Hi as ->. lia.
  - specialize (IH i Hi). lia.
Qed.

Lemma exec1_budget s e :
  let s' := exec1 s e in
  (playerScriptFetches (snd s') + Pipeline.total Pipeline.fetchBudget (fst s')
   <= playerScriptFetches (snd s) + Pipeline.total Pipeline.fetchBudget (fst s))%nat /\
  (poolRuns (snd s') + Pipeline.total Pipeline.poolBudget (fst s')
   <= poolRuns (snd s) + Pipeline.total Pipeline.poolBudget (fst s))%nat.
Proof.
  destruct s as [ts w]. destruct e as [t|i]; simpl; [lia|].
  destruct (ts !! i) as [t|] eqn:Hi; simpl; [|lia].
  pose proof (step_budget t w) as (H1 & H2 & _).
  destruct (step t w) as [t' w']. simpl in *.
  pose proof (total_insert Pipeline.fetchBudget ts i t t' Hi).
  pose proof (total_insert Pipeline.poolBudget ts i t t' Hi). lia.
Qed.

Lemma exec_budget sched s :
  let s' := exec sched s in
  (playerScriptFetches (snd s') + Pipeline.total Pipeline.fetchBudget (fst s')
   <= playerScriptFetches (snd s) + Pipeline.total Pipeline.fetchBudget (fst s))%nat /\
  (poolRuns (snd s') + Pipeline.total Pipeline.poolBudget (fst s')
   <= poolRuns (snd s) + Pipeline.total Pipeline.poolBudget (fst s))%nat.
Proof.
  revert s. induction sched as [|e sched IH]; intros s; simpl; [lia|].
  specialize (IH (exec1 s e)). pose proof (exec1_budget s e). simpl in *.
  unfold Pipeline.exec in *. lia.
Qed.

Lemma total_le_length (f : Pipeline.task -> nat) ts :
  (forall t, f t <= 1)%nat -> (Pipeline.total f ts <= length ts)%nat.
Proof.
  intros Hf. induction ts as [|t ts IH]; simpl; [lia|].
  specialize (Hf t). lia.
Qed.

End budget_facts.

Section sequential_facts.
Variable sha256hex : string -> string.
Variable fetch : string -> JS.outcome (Z * string).
Variable execInPool : string -> JS.outcome string.
Variable getFromPrepared : string -> JS.outcome (option Solvers).

(** A call on a cold state runs the whole pipeline once. *)
Lemma cold_call url (w : World) status body pp solvers :
  let path := Pipeline.filePathOf sha256hex url in
  faults w = noFaults ->
  disk w !! path = None ->
  fetch url = JS.Returned (status, body) -> Pipeline.ok status = true ->
  fst (InstrumentedLRU.get (clock w) path (solverCache w)) = None ->
  JS.truthy_opt (fst (InstrumentedLRU.get (clock w) path (preprocessedCache w))) = false ->
  execInPool body = JS.Returned pp ->
  getFromPrepared pp = JS.Returned (Some solvers) ->
  exists w1,
    Pipeline.getSolvers sha256hex fetch execInPool getFromPrepared url w
    = (JS.Returned (Some solvers), w1) /\
    playerScriptFetches w1 = S (playerScriptFetches w) /\
    poolRuns w1 = S (poolRuns w) /\
    clock w1 = clock w /\
    faults w1 = faults w /\
    is_Some (disk w1 !! path) /\
    solverCache w1
    = InstrumentedLRU.set (clock w) path solvers
        (snd (InstrumentedLRU.get (clock w) path (solverCache w))).
Proof.
  intros path Hquiet Hdisk Hfetch Hok Hsc Hpc Hpool Hext.
  destruct w as [now files platform solved prepared stamps fetches runs gauge].
  simpl in *. subst platform.
  unfold Pipeline.getSolvers. simpl. fold path. rewrite Hdisk. simpl.
  rewrite Hfetch, Hok. simpl.
  unfold Pipeline.written. simpl. rewrite Hdisk.
  unfold Pipeline.resume. simpl.
  destruct (InstrumentedLRU.get now path solved) as [r sc] eqn:Hg.
  simpl in Hsc. subst r. simpl.
  destruct (InstrumentedLRU.get now path prepared) as [q pc] eqn:Hq.
  simpl in Hpc. rewrite Hpc. simpl.
  rewrite lookup_insert_eq. simpl. rewrite Hpool.
  unfold Pipeline.extractSolvers. rewrite Hext. simpl.
  eexists. split; [reflexivity|]. simpl.
  rewrite lookup_insert_eq. repeat split; eauto.
Qed.

(** A call made once the file is on disk and the pair is cached runs
    neither the fetch nor the pool. *)
Lemma warm_call url (w : World) f solvers :
  let path := Pipeline.filePathOf sha256hex url in
  faults w = noFaults ->
  disk w !! path = Some f ->
  fst (InstrumentedLRU.get (clock w) path (solverCache w)) = Some solvers ->
  exists w2,
    Pipeline.getSolvers sha256hex fetch execInPool getFromPrepared url w
    = (JS.Returned (Some solvers), w2) /\
    playerScriptFetches w2 = playerScriptFetches w /\
    poolRuns w2 = poolRuns w.
Proof.
  intros path Hquiet Hdisk Hsc.
  destruct w as [now files platform solved prepared stamps fetches runs gauge].
  simpl in *. subst platform.
  unfold Pipeline.getSolvers. simpl. fold path. rewrite Hdisk. simpl.
  rewrite Hdisk. simpl. unfold Pipeline.resume. simpl.
  destruct (InstrumentedLRU.get now path solved) as [r sc] eqn:Hg.
  simpl in Hsc. subst r. simpl. eexists. split; [reflexivity|]. done.
Qed.

(** C3, as the code has it.  [getSolvers] keeps no table of calls in
    flight.  From a state in which the player file is absent and neither
    cache holds the fingerprint, on a platform whose file operations go
    through, a call runs the fetch and the pool once and stores the pair; a
    second call made after it has returned, within the TTL of the solver
    cache, runs neither and returns the same pair.  Under any schedule of
    any number of overlapping calls, and whatever the platform's errors,
    each call makes at most one fetch and at most one pool run of its own. *)
Theorem C3_one_pipeline_per_call url (w : World) status body pp solvers :
  let path := Pipeline.filePathOf sha256hex url in
  let getSolvers := Pipeline.getSolvers sha256hex fetch execInPool getFromPrepared in
  faults w = noFaults ->
  disk w !! path = None ->
  fetch url = JS.Returned (status, body) -> Pipeline.ok status = true ->
  fst (InstrumentedLRU.get (clock w) path (solverCache w)) = None ->
  JS.truthy_opt (fst (InstrumentedLRU.get (clock w) path (preprocessedCache w))) = false ->
  execInPool body = JS.Returned pp ->
  getFromPrepared pp = JS.Returned (Some solvers) ->
  1 <= LRU.maxSize (InstrumentedLRU.lru (solverCache w)) ->
  (forall t2, t2 - clock w <= InstrumentedLRU.ttl (solverCache w) ->
     exists w1 w2,
       getSolvers url w = (JS.Returned (Some solvers), w1) /\
       getSolvers url (set_clock w1 t2) = (JS.Returned (Some solvers), w2) /\
       playerScriptFetches w2 = S (playerScriptFetches w) /\
       poolRuns w2 = S (poolRuns w)) /\
  (forall (urls : list string) (sched : list Pipeline.event) (w0 : World),
     let calls := map (fun u => Pipeline.InGetPlayerFilePath (Pipeline.Hashing u)) urls in
     let s' := Pipeline.exec sha256hex fetch execInPool getFromPrepared sched (calls, w0) in
     (playerScriptFetches (snd s') <= playerScriptFetches w0 + length urls)%nat /\
     (poolRuns (snd s') <= poolRuns w0 + length urls)%nat).
Proof.
  intros path getSolvers Hq Hdisk Hfetch Hok Hsc Hpc Hpool Hext Hcap.
  subst path getSolvers. split.
  - intros t2 Ht2.
    destruct (cold_call url w status body pp solvers Hq Hdisk Hfetch Hok Hsc Hpc Hpool Hext)
      as (w1 & Hcall & Hf1 & Hp1 & Hclock & Hq1 & [f Hfile] & Hcache).
    destruct (ttl_get (clock w) (Pipeline.filePathOf sha256hex url) (solverCache w))
      as [Httl Hmax].
    destruct (warm_call url (set_clock w1 t2) f solvers) as (w2 & Hcall2 & Hf2 & Hp2).
    + simpl. by rewrite Hq1.
    + exact Hfile.
    + simpl. rewrite Hcache. apply get_after_set; [by rewrite Hmax|by rewrite Httl].
    + exists w1, w2. split; [done|]. split; [done|]. simpl in *. split; congruence.
  - intros urls sched w0 calls s'.
    pose proof (exec_budget sha256hex fetch execInPool getFromPrepared sched (calls, w0))
      as [Hf Hp]. fold s' in Hf, Hp. simpl in Hf, Hp.
    assert (length calls = length urls) as Hlen by (unfold calls; by rewrite length_map).
    pose proof (total_le_length Pipeline.fetchBudget calls) as Hbf.
    pose proof (total_le_length Pipeline.poolBudget calls) as Hbp.
    rewrite Hlen in Hbf, Hbp.
    assert (forall t, (Pipeline.fetchBudget t <= 1)%nat) as H1.
    { intros [[]| | | |]; simpl; lia. }
    assert (forall t, (Pipeline.poolBudget t <= 1)%nat) as H2.
    { intros [[]| | | |]; simpl; lia. }
    specialize (Hbf H1). specialize (Hbp H2). lia.
Qed.

End sequential_facts.

(** C3 fails as stated: two calls for the same player on a cold state,
    taking their steps in turn, are both inside the pipeline after two steps
    each, and when both have returned the upstream was fetched twice and the
    pool ran twice. *)
Lemma C3_two_calls_two_pipelines :
  let call := Pipeline.InGetPlayerFilePath (Pipeline.Hashing Sample.playerUrl) in
  let exec := Pipeline.exec Sample.sha256hex Sample.fetch Sample.execInPool
                Sample.getFromPrepared in
  let turns (k : nat) := concat (replicate k [Pipeline.Step 0; Pipeline.Step 1]) in
  let mid := exec (turns 2%nat) ([call; call], coldWorld) in
  let fin := exec (turns 10%nat) ([call; call], coldWorld) in
  forallb Pipeline.inFlight (fst mid) = true /\
  fst fin = [Pipeline.Done (Some Sample.solvers); Pipeline.Done (Some Sample.solvers)] /\
  playerScriptFetches (snd fin) = 2%nat /\
  poolRuns (snd fin) = 2%nat.
Proof. vm_compute. repeat split; done. Qed.

(* ===================================================================== *)
(** * The theorems at concrete inputs *)
(* ===================================================================== *)

(** C9 at a cache of TTL 10 holding one entry put at time 0: read at 5 and
    at 20. *)
Lemma C9_get_respects_ttl_witness :
  let config := {| InstrumentedLRU.cfg_maxSize := Some 2;
                   InstrumentedLRU.cfg_ttl := Some 10;
                   InstrumentedLRU.cfg_cleanupInterval := None |} in
  let ops := [InstrumentedLRU.OpSet 0 "k" "v"] in
  let c := InstrumentedLRU.run ops (InstrumentedLRU.new 0 "sts" 2 config) in
  InstrumentedLRU.entries c !! "k" = Some (InstrumentedLRU.Entry "v" 0) /\
  InstrumentedLRU.holds c "k" /\
  fst (InstrumentedLRU.get 20 "k" c) = None /\
  fst (InstrumentedLRU.get 5 "k" c) = Some "v".
Proof.
  intros config ops c.
  assert (He : InstrumentedLRU.entries c !! "k" = Some (InstrumentedLRU.Entry "v" 0))
    by (vm_compute; reflexivity).
  assert (Hh : InstrumentedLRU.holds c "k") by (exists "v"; vm_compute; reflexivity).
  split; [exact He|]. split; [exact Hh|]. split.
  - destruct (C9_get_respects_ttl 0 "sts" 2 config ops 20 "k") as (H1 & _).
    apply (H1 _ He). vm_compute. reflexivity.
  - destruct (C9_get_respects_ttl 0 "sts" 2 config ops 5 "k") as (_ & H2 & _).
    apply (H2 _ He Hh). vm_compute. discriminate.
Defined.

(** C10 at a request to [/get_sts] without [Authorization] header. *)
Lemma C10_default_token_enforced_witness :
  let env : Server.Env := ∅ in
  let req := {| Server.method := "POST"; Server.pathname := "/get_sts";
                Server.authorization := None;
                Server.contentType := Some "application/json";
                Server.bodyIsJson := true |} in
  env !! "API_TOKEN" = None /\
  Server.core_path (Server.pathname req) = true /\
  Server.authorization req <> Some "Bearer YO_TOKEN" /\
  Server.authorization req <> Some "YO_TOKEN" /\
  Server.status (Server.baseHandler env req) = 401.
Proof.
  intros env req.
  assert (H1 : env !! "API_TOKEN" = None) by reflexivity.
  assert (H2 : Server.core_path (Server.pathname req) = true) by reflexivity.
  assert (H3 : Server.authorization req <> Some "Bearer YO_TOKEN") by discriminate.
  assert (H4 : Server.authorization req <> Some "YO_TOKEN") by discriminate.
  split; [exact H1|]. split; [exact H2|]. split; [exact H3|]. split; [exact H4|].
  exact (proj1 (proj2 (C10_default_token_enforced env req H1 H2 H3 H4))).
Defined.

(** C4 at the token [secret] and the header [Bearer secret]. *)
Lemma C4_bearer_or_raw_token_witness :
  let env : Server.Env := {[ "API_TOKEN" := "secret" ]} in
  let req := {| Server.method := "POST"; Server.pathname := "/decrypt_signature";
                Server.authorization := Some "Bearer secret";
                Server.contentType := Some "application/json";
                Server.bodyIsJson := true |} in
  Server.apiToken env = "secret" /\
  "secret" <> "YOUR_API_TOKEN" /\
  Server.core_path (Server.pathname req) = true /\
  env !! "RY4N" = None /\
  Middleware.gate Sample.atob env req <> 401.
Proof.
  intros env req.
  assert (H1 : Server.apiToken env = "secret") by (vm_compute; reflexivity).
  assert (H2 : "secret" <> "YOUR_API_TOKEN") by discriminate.
  assert (H3 : Server.core_path (Server.pathname req) = true) by reflexivity.
  assert (H4 : env !! "RY4N" = None) by (vm_compute; reflexivity).
  split; [exact H1|]. split; [exact H2|]. split; [exact H3|]. split; [exact H4|].
  destruct (C4_bearer_or_raw_token Sample.atob env req "secret" H1 H2 H3) as (_ & Hg & _).
  apply (Hg H4). left. reflexivity.
Defined.

(** C2 at a batch of two complete elements. *)
Lemma C2_batch_of_complete_items_witness :
  let item := {| Handlers.encrypted_signature := Some "AAAA";
                 Handlers.n_param := Some "BBBB";
                 Handlers.player_url := Some Sample.playerUrl |} in
  let req := {| Handlers.signatures := Some [Handlers.Element item; Handlers.Element item] |} in
  Forall (fun sig => Handlers.incomplete sig = false) [item; item] /\
  exists results successful failed,
    Handlers.handleBatchDecrypt req
    = Handlers.respond 200 (Handlers.Batch results true 2 successful failed) /\
    successful + failed = 2 /\
    length results = 2%nat /\
    exists r, results !! 1%nat = Some r /\
      Handlers.r_encrypted_signature r = Some "AAAA" /\
      Handlers.r_n_param r = Some "BBBB" /\
      Handlers.r_player_url r = Some Sample.playerUrl.
Proof.
  intros item req.
  assert (Hall : Forall (fun sig => Handlers.incomplete sig = false) [item; item]).
  { repeat constructor. }
  split; [exact Hall|].
  destruct (C2_batch_of_complete_items req) as (_ & _ & H & _).
  destruct (H [item; item] eq_refl) as (_ & Hok).
  destruct (Hok Hall) as (results & successful & failed & Hr & _ & _ & Hsum & Hlen & Hecho).
  exists results, successful, failed.
  split; [exact Hr|]. split; [exact Hsum|]. split; [exact Hlen|].
  exact (Hecho 1%nat item eq_refl).
Defined.

(** C7 at a player whose sig solver throws and which has no n solver. *)
Lemma C7_decrypt_contains_solver_failures_witness :
  let req := {| Handlers.encrypted_signature := Some "AA";
                Handlers.n_param := Some "BB";
                Handlers.player_url := Some Sample.playerUrl |} in
  let solvers := {| Types.n := None; Types.sig := Some Sample.throwing |} in
  let r := Pipeline.getSolvers Sample.sha256hex Sample.fetch Sample.execInPool
             Sample.throwingSolvers Sample.playerUrl coldWorld in
  JS.truthy Sample.playerUrl = true /\
  r = (JS.Returned (Some solvers), snd r) /\
  Sample.throwing "AA" = JS.Threw "solver failed" /\
  fst (Handlers.handleDecryptSignature Sample.sha256hex Sample.fetch Sample.execInPool
         Sample.throwingSolvers req coldWorld)
  = Handlers.respond 200 (Handlers.Decrypted "" "" true).
Proof.
  intros req solvers r.
  assert (H1 : JS.truthy Sample.playerUrl = true) by reflexivity.
  assert (H2 : r = (JS.Returned (Some solvers), snd r)) by (vm_compute; reflexivity).
  split; [exact H1|]. split; [exact H2|]. split; [reflexivity|].
  destruct (C7_decrypt_contains_solver_failures Sample.sha256hex Sample.fetch
              Sample.execInPool Sample.throwingSolvers req coldWorld (snd r)
              Sample.playerUrl solvers eq_refl H1 H2)
    as (ds & dn & Hresp & Hthrow & _ & _ & _ & Habsent & _).
  rewrite Hresp. simpl.
  rewrite (Hthrow "AA" Sample.throwing "solver failed" eq_refl eq_refl eq_refl).
  rewrite (Habsent (or_intror eq_refl)). reflexivity.
Defined.

(** C6 at the sample stream URL, with the default signature key. *)
Lemma C6_resolve_rewrites_query_witness :
  let req := {| Handlers.stream_url := Some Sample.streamUrl;
                Handlers.rplayer_url := Some Sample.playerUrl;
                Handlers.rencrypted_signature := Some "AA";
                Handlers.signature_key := None;
                Handlers.rn_param := None |} in
  let r := Pipeline.getSolvers Sample.sha256hex Sample.fetch Sample.execInPool
             Sample.getFromPrepared Sample.playerUrl coldWorld in
  r = (JS.Returned (Some Sample.solvers), snd r) /\
  is_Some (Sample.parseURL Sample.streamUrl) /\
  exists url',
    fst (Handlers.handleResolveUrl Sample.sha256hex Sample.fetch Sample.execInPool
           Sample.getFromPrepared Sample.parseURL req coldWorld)
    = Handlers.respond 200 (Handlers.Resolved url' true) /\
    URLSearchParams.getAll "sig" (searchParams url') = ["sig(AA)"] /\
    URLSearchParams.getAll "s" (searchParams url') = [] /\
    URLSearchParams.getAll "n" (searchParams url') = ["n(BB)"] /\
    URLSearchParams.getAll "c" (searchParams url') = ["WEB"].
Proof.
  intros req r.
  assert (H1 : r = (JS.Returned (Some Sample.solvers), snd r)) by (vm_compute; reflexivity).
  split; [exact H1|]. split; [eexists; vm_compute; reflexivity|].
  destruct (C6_resolve_rewrites_query Sample.sha256hex Sample.fetch Sample.execInPool
              Sample.getFromPrepared Sample.parseURL req coldWorld (snd r) Sample.solvers
              {| base := "https://rr.example/video";
                 searchParams := [("c", "WEB"); ("s", "AA"); ("n", "BB")];
                 hash := "" |} eq_refl eq_refl H1 eq_refl) as (_ & Hrw).
  destruct Hrw as (url' & Hresp & _ & Hsig & _ & Hother & Hn & _).
  { right. discriminate. }
  exists url'. split; [exact Hresp|].
  destruct (Hsig "sig(AA)") as [Hs1 Hs2].
  { exists "AA", Sample.sigSolver. repeat split; reflexivity. }
  split; [apply Hs2; discriminate|]. split; [exact Hs1|]. split.
  - apply (Hn "BB" Sample.nSolver "n(BB)"); try reflexivity. left. discriminate.
  - rewrite (Hother "c"); [reflexivity|discriminate|discriminate|discriminate].
Defined.

(** C5 at the sample script, whose STS is 19999. *)
Lemma C5_sts_from_script_witness :
  let path := Pipeline.filePathOf Sample.sha256hex Sample.playerUrl in
  let r1 := Pipeline.getPlayerFilePath Sample.sha256hex Sample.fetch Sample.playerUrl
              Sample.worldWithScript in
  let r := Handlers.handleGetSts Sample.sha256hex Sample.fetch Sample.playerUrl
             Sample.worldWithScript in
  r1 = (JS.Returned path, snd r1) /\
  disk (snd r1) !! path = Some Sample.scriptFile /\
  fst (InstrumentedLRU.get (clock (snd r1)) path (stsCache (snd r1))) = None /\
  1000 <= Z.of_nat (String.length Sample.script) /\
  Sample.script
  = Sample.spaces 1000 ++ "signatureTimestamp" ++ ":" ++ "" ++ numeral [1; 9; 9; 9; 9] ++ "," /\
  Handlers.firstMatch Handlers.patterns Sample.script = Some "19999" /\
  fst r = {| Handlers.status := 200; Handlers.body := Handlers.Sts "19999";
             Handlers.xCacheHit := Some "false" |} /\
  fst (InstrumentedLRU.get 1000 path (stsCache (snd r))) = Some "19999".
Proof.
  intros path r1 r.
  assert (H1 : r1 = (JS.Returned path, snd r1)) by (vm_compute; reflexivity).
  assert (H2 : fst (InstrumentedLRU.get (clock (snd r1)) path (stsCache (snd r1))) = None)
    by (vm_compute; reflexivity).
  assert (H3 : disk (snd r1) !! path = Some Sample.scriptFile) by (vm_compute; reflexivity).
  assert (H4 : 1000 <= Z.of_nat (String.length Sample.script)) by (vm_compute; discriminate).
  assert (H5 : Sample.script
               = Sample.spaces 1000 ++ "signatureTimestamp" ++ ":" ++ "" ++
                 numeral [1; 9; 9; 9; 9] ++ ",") by (vm_compute; reflexivity).
  split; [exact H1|]. split; [exact H3|]. split; [exact H2|]. split; [exact H4|].
  split; [exact H5|].
  destruct (C5_sts_from_script Sample.sha256hex Sample.fetch Sample.playerUrl
              Sample.worldWithScript (snd r1) path Sample.scriptFile H1 H3)
    as (_ & Hmiss & Hscan & _).
  assert (H6 : Handlers.firstMatch Handlers.patterns Sample.script = Some "19999").
  { apply (Hscan (Sample.spaces 1000) "signatureTimestamp" "" [1; 9; 9; 9; 9] ","
             H5).
    - apply not_in_chars. vm_compute. reflexivity.
    - left. reflexivity.
    - constructor.
    - discriminate.
    - repeat constructor; lia.
    - intros ch rest' [= <- _]. left. vm_compute. lia. }
  split; [exact H6|].
  destruct (Hmiss (f_equal JS.truthy_opt H2)) as (_ & Hlong).
  destruct (Hlong H4) as (_ & Hm).
  destruct (Hm "19999" H6) as (_ & ds & v & _ & _ & Hds & Hv & Hparse & _ & _ & Hok).
  assert (v = 19999) as -> by (vm_compute in Hparse; congruence).
  destruct Hok as (Hresp & _ & Hget); [lia|].
  split; [exact Hresp|].
  apply Hget; vm_compute; discriminate.
Defined.

(** C8 at a directory of one stale and one fresh file, on day 21. *)
Lemma C8_sweep_by_first_available_time_witness :
  let dateNow := fun _ : nat => 21 * Sample.day in
  let r := PlayerCache.initializeCache dateNow [Sample.oldEntry; Sample.freshEntry] in
  PlayerCache.doomed dateNow 0 Sample.oldEntry = true /\
  PlayerCache.doomed dateNow 1 Sample.freshEntry = false /\
  "old.js" ∈ PlayerCache.removed r /\
  Sample.freshEntry ∈ PlayerCache.kept r /\
  PlayerCache.fileCount r
  = Z.of_nat (length (filter (fun e => PlayerCache.isFile e = true) (PlayerCache.kept r))).
Proof.
  intros dateNow r.
  assert (H1 : PlayerCache.doomed dateNow 0 Sample.oldEntry = true) by reflexivity.
  assert (H2 : PlayerCache.doomed dateNow 1 Sample.freshEntry = false) by reflexivity.
  split; [exact H1|]. split; [exact H2|].
  destruct (C8_sweep_by_first_available_time dateNow [Sample.oldEntry; Sample.freshEntry])
    as (Hfwd & _ & _ & Hcount & _).
  split; [|split; [|exact Hcount]].
  - apply (proj1 (Hfwd 0%nat Sample.oldEntry eq_refl) H1).
  - apply (proj2 (Hfwd 1%nat Sample.freshEntry eq_refl) H2).
Defined.

(** C3 at two calls for the sample player, one second apart. *)
Lemma C3_one_pipeline_per_call_witness :
  let path := Pipeline.filePathOf Sample.sha256hex Sample.playerUrl in
  let getSolvers := Pipeline.getSolvers Sample.sha256hex Sample.fetch Sample.execInPool
                      Sample.getFromPrepared in
  faults coldWorld = noFaults /\
  disk coldWorld !! path = None /\
  Pipeline.ok 200 = true /\
  fst (InstrumentedLRU.get (clock coldWorld) path (solverCache coldWorld)) = None /\
  1 <= LRU.maxSize (InstrumentedLRU.lru (solverCache coldWorld)) /\
  exists w1 w2,
    getSolvers Sample.playerUrl coldWorld = (JS.Returned (Some Sample.solvers), w1) /\
    getSolvers Sample.playerUrl (set_clock w1 1000) = (JS.Returned (Some Sample.solvers), w2) /\
    playerScriptFetches w2 = 1%nat /\
    poolRuns w2 = 1%nat.
Proof.
  intros path getSolvers.
  assert (H1 : disk coldWorld !! path = None) by (vm_compute; reflexivity).
  assert (H2 : Pipeline.ok 200 = true) by reflexivity.
  assert (H3 : fst (InstrumentedLRU.get (clock coldWorld) path (solverCache coldWorld)) = None)
    by (vm_compute; reflexivity).
  assert (H4 : JS.truthy_opt (fst (InstrumentedLRU.get (clock coldWorld) path
                                     (preprocessedCache coldWorld))) = false)
    by (vm_compute; reflexivity).
  assert (H5 : 1 <= LRU.maxSize (InstrumentedLRU.lru (solverCache coldWorld)))
    by (vm_compute; discriminate).
  split; [reflexivity|].
  split; [exact H1|]. split; [exact H2|]. split; [exact H3|]. split; [exact H5|].
  destruct (C3_one_pipeline_per_call Sample.sha256hex Sample.fetch Sample.execInPool
              Sample.getFromPrepared Sample.playerUrl coldWorld 200
              ("raw:" ++ Sample.playerUrl) ("pp:raw:" ++ Sample.playerUrl) Sample.solvers
              eq_refl H1 eq_refl H2 H3 H4 eq_refl eq_refl H5) as (Hseq & _).
  destruct (Hseq 1000) as (w1 & w2 & Hc1 & Hc2 & Hf & Hp).
  { vm_compute. discriminate. }
  exists w1, w2. split; [exact Hc1|]. split; [exact Hc2|]. split; [exact Hf|exact Hp].
Defined.

(* ===================================================================== *)
(** * Further properties of the code *)
(* ===================================================================== *)

(** ** src/instrumentedCache.ts *)

Section cache_extras.
Context {T : Type}.
Implicit Types (c : InstrumentedLRU.t T) (key : string).

Lemma fold_delete_stores (keys : list string) c key :
  let c' := foldl (fun acc k => InstrumentedLRU.delete k acc) c keys in
  InstrumentedLRU.ttl c' = InstrumentedLRU.ttl c /\
  InstrumentedLRU.entries c' !! key
  = (if decide (key ∈ keys) then None else InstrumentedLRU.entries c !! key) /\
  LRU.lookup key (LRU.items (InstrumentedLRU.lru c'))
  = (if decide (key ∈ keys) then None
     else LRU.lookup key (LRU.items (InstrumentedLRU.lru c))).
Proof.
  revert c. induction keys as [|k keys IH]; intros c.
  - cbn [foldl]. split; [done|].
    split; (destruct (decide (key ∈ [])) as [H|_]; [by apply not_elem_of_nil in H|done]).
  - cbn [foldl]. destruct (IH (InstrumentedLRU.delete k c)) as (Ht & He & Hl).
    cbv zeta. rewrite Ht, He, Hl. split; [done|].
    unfold InstrumentedLRU.delete. simpl.
    destruct (decide (key ∈ keys)) as [Hin|Hnin].
    + rewrite !decide_True by (by apply elem_of_cons; right). done.
    + destruct (decide (key = k)) as [->|Hne].
      * rewrite !decide_True by (by apply elem_of_cons; left).
        by rewrite lookup_delete_eq, lookup_remove_key_eq.
      * rewrite !decide_False by (rewrite elem_of_cons; tauto).
        by rewrite lookup_delete_ne, lookup_remove_key_ne.
Qed.

Lemma elem_of_expiredKeys now c key :
  key ∈ InstrumentedLRU.expiredKeys now c <->
  exists e, InstrumentedLRU.entries c !! key = Some e /\
            InstrumentedLRU.expired now c e = true.
Proof.
  unfold InstrumentedLRU.expiredKeys. rewrite list_elem_of_fmap. split.
  - intros ([k e] & -> & Hin). apply elem_of_map_to_list in Hin.
    apply map_lookup_filter_Some in Hin as [He Hx]. by exists e.
  - intros (e & He & Hx). exists (key, e). split; [done|].
    apply elem_of_map_to_list. by apply map_lookup_filter_Some.
Qed.

(** X1.  The sweep deletes exactly the expired entries: an entry whose age
    exceeds the TTL is gone from both stores, every other entry and every
    other held value is as before, so nothing left is expired; and the time
    of the sweep is recorded. *)
Theorem cleanup_deletes_exactly_expired now c key :
  let c' := InstrumentedLRU.cleanup now c in
  InstrumentedLRU.entries c' !! key
  = match InstrumentedLRU.entries c !! key with
    | Some e => if InstrumentedLRU.expired now c e then None else Some e
    | None => None
    end /\
  (forall e, InstrumentedLRU.entries c !! key = Some e ->
     InstrumentedLRU.expired now c e = true -> ~ InstrumentedLRU.holds c' key) /\
  (forall e, InstrumentedLRU.entries c !! key = Some e ->
     InstrumentedLRU.expired now c e = false ->
     LRU.lookup key (LRU.items (InstrumentedLRU.lru c'))
     = LRU.lookup key (LRU.items (InstrumentedLRU.lru c))) /\
  (forall e, InstrumentedLRU.entries c' !! key = Some e ->
     now - InstrumentedLRU.timestamp e <= InstrumentedLRU.ttl c') /\
  InstrumentedLRU.lastCleanup c' = now.
Proof.
  intros c'. unfold c', InstrumentedLRU.cleanup, InstrumentedLRU.with_lastCleanup.
  cbv zeta. unfold InstrumentedLRU.holds.
  cbn [InstrumentedLRU.entries InstrumentedLRU.lru InstrumentedLRU.ttl
       InstrumentedLRU.lastCleanup].
  destruct (fold_delete_stores (InstrumentedLRU.expiredKeys now c) c key)
    as (Ht & He & Hl). cbv zeta in Ht, He, Hl.
  assert (Hentries :
    InstrumentedLRU.entries
      (foldl (fun acc k => InstrumentedLRU.delete k acc) c
         (InstrumentedLRU.expiredKeys now c)) !! key
    = match InstrumentedLRU.entries c !! key with
      | Some e => if InstrumentedLRU.expired now c e then None else Some e
      | None => None
      end).
  { rewrite He. destruct (decide _) as [Hin|Hnin].
    - apply elem_of_expiredKeys in Hin as (e & -> & ->). done.
    - destruct (InstrumentedLRU.entries c !! key) as [e|] eqn:Hk; [|done].
      destruct (InstrumentedLRU.expired now c e) eqn:Hx; [|done].
      destruct Hnin. apply elem_of_expiredKeys. eauto. }
  split; [exact Hentries|]. split; [|split; [|split; [|done]]].
  - intros e Hk Hx. rewrite Hl. rewrite decide_True by (apply elem_of_expiredKeys; eauto). by intros [? ?].
  - intros e Hk Hx. rewrite Hl. rewrite decide_False; [done|].
    intros Hin. apply elem_of_expiredKeys in Hin as (e' & He' & Hx'). congruence.
  - intros e. rewrite Hentries, Ht.
    destruct (InstrumentedLRU.entries c !! key) as [e0|]; [|done].
    destruct (InstrumentedLRU.expired now c e0) eqn:Hx; [done|].
    intros [= <-]. unfold InstrumentedLRU.expired in Hx.
    destruct (Z.gtb_spec (now - InstrumentedLRU.timestamp e0) (InstrumentedLRU.ttl c));
      [done|lia].
Qed.

Lemma has_true_iff_get now key c :
  fst (InstrumentedLRU.has now key c) = true <->
  is_Some (fst (InstrumentedLRU.get now key c)).
Proof.
  unfold InstrumentedLRU.has, InstrumentedLRU.get, InstrumentedLRU.super_get,
    LRU.get, LRU.has.
  destruct (InstrumentedLRU.entries c !! key) as [e|];
    [destruct (InstrumentedLRU.expired now c e)|]; simpl.
  - split; [done|]. by intros [? ?].
  - destruct (LRU.lookup key _) as [v|]; simpl.
    + split; [eauto|done].
    + split; [done|]. by intros [? ?].
  - destruct (LRU.lookup key _) as [v|]; simpl.
    + split; [eauto|done].
    + split; [done|]. by intros [? ?].
Qed.

(** X2.  [has] answers as [get] would: true exactly when [get] at the same
    time yields a value; both drop an expired entry, and both leave the same
    entries behind. *)
Theorem has_agrees_with_get now key c :
  (fst (InstrumentedLRU.has now key c) = true <->
   is_Some (fst (InstrumentedLRU.get now key c))) /\
  InstrumentedLRU.entries (snd (InstrumentedLRU.has now key c))
  = InstrumentedLRU.entries (snd (InstrumentedLRU.get now key c)).
Proof.
  unfold InstrumentedLRU.has, InstrumentedLRU.get, InstrumentedLRU.super_get,
    LRU.get, LRU.has.
  destruct (InstrumentedLRU.entries c !! key) as [e|];
    [destruct (InstrumentedLRU.expired now c e)|]; simpl.
  - split; [|done]. split; [done|]. by intros [? ?].
  - destruct (LRU.lookup key _) as [v|]; simpl; (split; [|done]).
    + split; [eauto|done].
    + split; [done|]. by intros [? ?].
  - destruct (LRU.lookup key _) as [v|]; simpl; (split; [|done]).
    + split; [eauto|done].
    + split; [done|]. by intros [? ?].
Qed.

Lemma tally_run_op c (o : InstrumentedLRU.op) :
  (InstrumentedLRU.hits (InstrumentedLRU.run_op c o)
   + InstrumentedLRU.misses (InstrumentedLRU.run_op c o))%nat
  = match o with
    | InstrumentedLRU.OpGet _ _ => S (InstrumentedLRU.hits c + InstrumentedLRU.misses c)
    | InstrumentedLRU.OpClear => 0%nat
    | _ => (InstrumentedLRU.hits c + InstrumentedLRU.misses c)%nat
    end.
Proof.
  destruct o as [now k|now k v|k| |now k|now k|now]; simpl.
  - unfold InstrumentedLRU.get, InstrumentedLRU.super_get, LRU.get.
    destruct (InstrumentedLRU.entries c !! k) as [e|];
      [destruct (InstrumentedLRU.expired now c e)|]; simpl;
      try (destruct (LRU.lookup k _); simpl); lia.
  - done.
  - done.
  - done.
  - unfold InstrumentedLRU.has.
    destruct (InstrumentedLRU.entries c !! k) as [e|];
      [destruct (InstrumentedLRU.expired now c e)|]; done.
  - unfold InstrumentedLRU.touch. by destruct (InstrumentedLRU.entries c !! k).
  - unfold InstrumentedLRU.cleanup. simpl.
    generalize (InstrumentedLRU.expiredKeys now c). intros keys. revert c.
    induction keys as [|k keys IH]; intros c; [done|]. cbn [foldl]. by rewrite IH.
Qed.

(** X3.  The statistics count every read once: after any sequence of
    operations, [hits + misses] is the number of [get] calls made since the
    last [clear]. *)
Theorem hits_plus_misses_counts_gets (ops : list InstrumentedLRU.op) c :
  (InstrumentedLRU.hits (InstrumentedLRU.run ops c)
   + InstrumentedLRU.misses (InstrumentedLRU.run ops c))%nat
  = getsSinceClear (InstrumentedLRU.hits c + InstrumentedLRU.misses c) ops.
Proof.
  revert c. induction ops as [|o ops IH]; intros c; [done|].
  unfold InstrumentedLRU.run, getsSinceClear in *. cbn [foldl].
  rewrite IH, tally_run_op. by destruct o.
Qed.

End cache_extras.

Section cache_extras2.
Context {T : Type}.
Implicit Types (c : InstrumentedLRU.t T) (key : string).

Lemma get_other_after_delete now key k c :
  key <> k ->
  fst (InstrumentedLRU.get now key (InstrumentedLRU.delete k c))
  = fst (InstrumentedLRU.get now key c).
Proof.
  intros Hne. unfold InstrumentedLRU.get, InstrumentedLRU.delete,
    InstrumentedLRU.super_get, LRU.get, InstrumentedLRU.expired. simpl.
  rewrite lookup_delete_ne by done. rewrite lookup_remove_key_ne by done.
  destruct (InstrumentedLRU.entries c !! key) as [e|];
    [destruct (_ >? _)|]; simpl; try done;
    by destruct (LRU.lookup key _).
Qed.

(** X4.  After [delete] the cache holds neither a value nor a timestamp
    for the key, the key is read as absent at any time, by [get] and by
    [has], and the answer of [get] for every other key is what it was. *)
Theorem delete_forgets_only_its_key key c :
  ~ InstrumentedLRU.holds (InstrumentedLRU.delete key c) key /\
  InstrumentedLRU.entries (InstrumentedLRU.delete key c) !! key = None /\
  (forall now, fst (InstrumentedLRU.get now key (InstrumentedLRU.delete key c)) = None) /\
  (forall now, fst (InstrumentedLRU.has now key (InstrumentedLRU.delete key c)) = false) /\
  (forall now k, k <> key ->
     fst (InstrumentedLRU.get now k (InstrumentedLRU.delete key c))
     = fst (InstrumentedLRU.get now k c)).
Proof.
  assert (Hget : forall now,
    fst (InstrumentedLRU.get now key (InstrumentedLRU.delete key c)) = None).
  { intros now. unfold InstrumentedLRU.get, InstrumentedLRU.delete,
      InstrumentedLRU.super_get, LRU.get. simpl.
    by rewrite lookup_delete_eq, lookup_remove_key_eq. }
  split; [|split; [|split; [exact Hget|split]]].
  - unfold InstrumentedLRU.delete, InstrumentedLRU.holds, LRU.remove. simpl.
    rewrite lookup_remove_key_eq. by intros [? ?].
  - unfold InstrumentedLRU.delete. simpl. apply lookup_delete_eq.
  - intros now.
    destruct (has_true_iff_get now key (InstrumentedLRU.delete key c))
      as [Hh _].
    destruct (fst (InstrumentedLRU.has now key _)); [|done].
    specialize (Hh eq_refl). rewrite Hget in Hh. by destruct Hh.
  - intros now k Hne. by apply get_other_after_delete.
Qed.

(** X5.  [touch] restarts the TTL of an entry without reading it: a held
    entry touched at [t1] is served by [get] at any time up to [t1 + ttl],
    whatever its age was, with its value unchanged; touching a key without
    entry answers false and changes nothing. *)
Theorem touch_restarts_ttl t1 t2 key c :
  InstrumentedLRU.consistent c ->
  (forall v, LRU.lookup key (LRU.items (InstrumentedLRU.lru c)) = Some v ->
     t2 - t1 <= InstrumentedLRU.ttl c ->
     fst (InstrumentedLRU.touch t1 key c) = true /\
     fst (InstrumentedLRU.get t2 key (snd (InstrumentedLRU.touch t1 key c))) = Some v) /\
  (InstrumentedLRU.entries c !! key = None ->
     InstrumentedLRU.touch t1 key c = (false, c)).
Proof.
  intros Hc. split.
  - intros v Hv Httl. destruct (Hc _ _ Hv) as [ts Hts].
    unfold InstrumentedLRU.touch. rewrite Hts. simpl. split; [done|].
    apply (get_fresh t2 key _ (InstrumentedLRU.Entry v t1) v); simpl; try done.
    apply lookup_insert_eq.
  - intros Hn. unfold InstrumentedLRU.touch. by rewrite Hn.
Qed.

(** X6.  What is put is served for [ttl] milliseconds and not longer: in a
    cache of capacity at least 1, a [get] of the key made [ttl] or less
    after the put answers the value put, whatever the cache held before, and
    a [get] made later answers absent. *)
Theorem put_then_get_within_ttl t1 t2 key (v : T) c :
  1 <= LRU.maxSize (InstrumentedLRU.lru c) ->
  (t2 - t1 <= InstrumentedLRU.ttl c ->
   fst (InstrumentedLRU.get t2 key (InstrumentedLRU.set t1 key v c)) = Some v) /\
  (InstrumentedLRU.ttl c < t2 - t1 ->
   fst (InstrumentedLRU.get t2 key (InstrumentedLRU.set t1 key v c)) = None).
Proof.
  intros Hcap. split.
  - intros Httl. by apply get_after_set.
  - intros Hexp.
    apply (get_expired t2 key (InstrumentedLRU.set t1 key v c)
             (InstrumentedLRU.Entry v t1)); [apply set_entry|done].
Qed.

End cache_extras2.

(** ** src/middleware.ts: the rate limiter *)

Section rate_limit_extras.
Implicit Types (store : gmap string RateLimit.Bucket) (a : RateLimit.Arrival)
  (config : RateLimit.RateLimitConfig).

Lemma withRateLimit_live config a store c0 r :
  store !! RateLimit.rateLimitKey a = Some {| RateLimit.count := c0; RateLimit.resetTime := r |} ->
  RateLimit.atGet a <= r ->
  RateLimit.withRateLimit config a store
  = (RateLimit.verdictFor config r (c0 + 1) a,
     <[RateLimit.rateLimitKey a :=
         {| RateLimit.count := c0 + 1; RateLimit.resetTime := r |}]> store).
Proof.
  intros Hs Hg. unfold RateLimit.withRateLimit, RateLimit.increment, RateLimit.get.
  rewrite Hs. simpl. destruct (Z.gtb_spec (RateLimit.atGet a) r); [lia|].
  unfold RateLimit.verdictFor, RateLimit.set. simpl.
  by destruct (c0 + 1 >? RateLimit.maxRequests config).
Qed.

Lemma withRateLimit_fresh config a store :
  fst (RateLimit.get (RateLimit.atGet a) (RateLimit.rateLimitKey a) store) = None ->
  let reset := RateLimit.atIncrement a + RateLimit.windowMs config in
  fst (RateLimit.withRateLimit config a store) = RateLimit.verdictFor config reset 1 a /\
  snd (RateLimit.withRateLimit config a store) !! RateLimit.rateLimitKey a
  = Some {| RateLimit.count := 1; RateLimit.resetTime := reset |}.
Proof.
  intros Hg reset. unfold RateLimit.withRateLimit, RateLimit.increment.
  destruct (RateLimit.get _ _ store) as [e store1]. simpl in Hg. subst e. simpl.
  unfold RateLimit.verdictFor, RateLimit.set.
  destruct (1 >? RateLimit.maxRequests config); simpl;
    (split; [done|by apply lookup_insert_eq]).
Qed.

Lemma serve_live config (arrivals : list RateLimit.Arrival) store key c0 r :
  store !! key = Some {| RateLimit.count := c0; RateLimit.resetTime := r |} ->
  Forall (fun a => RateLimit.rateLimitKey a = key /\ RateLimit.atGet a <= r) arrivals ->
  fst (RateLimit.serve config arrivals store)
  = imap (fun i a => RateLimit.verdictFor config r (c0 + Z.of_nat i + 1) a) arrivals.
Proof.
  revert store c0. induction arrivals as [|a rest IH]; intros store c0 Hs Hall; [done|].
  inversion Hall as [|? ? [Hk Hg] Hrest]; subst. cbn [RateLimit.serve].
  rewrite (withRateLimit_live config a store c0 r Hs Hg).
  specialize (IH (<[RateLimit.rateLimitKey a :=
                      {| RateLimit.count := c0 + 1; RateLimit.resetTime := r |}]> store)
                 (c0 + 1) (lookup_insert_eq _ _ _) Hrest).
  destruct (RateLimit.serve config rest _) as [vs store2]. simpl in *. subst vs.
  rewrite Z.add_0_r. f_equal. apply imap_ext. intros i x _. simpl.
  f_equal. lia.
Qed.

(** X7.  Within a window the limiter counts: when a client's first request
    to a path finds no live bucket, it opens a window that ends [windowMs]
    after it, and as long as the later requests of that client to that path
    arrive before the window ends, the request number [i] is handed on with
    [remaining = max(0, maxRequests - i)] when [i <= maxRequests] and is
    answered 429 when [i > maxRequests], all with the same reset time. *)
Theorem rate_limit_counts_within_window config a0 (rest : list RateLimit.Arrival) store :
  let key := RateLimit.rateLimitKey a0 in
  let reset := RateLimit.atIncrement a0 + RateLimit.windowMs config in
  fst (RateLimit.get (RateLimit.atGet a0) key store) = None ->
  Forall (fun a => RateLimit.rateLimitKey a = key /\ RateLimit.atGet a <= reset) rest ->
  fst (RateLimit.serve config (a0 :: rest) store)
  = imap (fun i a => RateLimit.verdictFor config reset (Z.of_nat i + 1) a) (a0 :: rest).
Proof.
  intros key reset Hfresh Hall. cbn [RateLimit.serve].
  destruct (withRateLimit_fresh config a0 store Hfresh) as [Hv Hs].
  destruct (RateLimit.withRateLimit config a0 store) as [v store1]. simpl in Hv, Hs.
  pose proof (serve_live config rest store1 key 1 reset Hs Hall) as Hrest.
  destruct (RateLimit.serve config rest store1) as [vs store2]. simpl in *.
  subst v vs. f_equal. apply imap_ext. intros i x _. simpl. f_equal. lia.
Qed.

(** X8.  A bucket whose reset time has passed counts for nothing: the next
    request of that key is number 1 of a new window; and a request changes
    the bucket of no other key. *)
Theorem rate_limit_restarts_after_window config a store :
  (forall b, store !! RateLimit.rateLimitKey a = Some b ->
     RateLimit.resetTime b < RateLimit.atGet a ->
     fst (RateLimit.withRateLimit config a store)
     = RateLimit.verdictFor config
         (RateLimit.atIncrement a + RateLimit.windowMs config) 1 a) /\
  (forall key, key <> RateLimit.rateLimitKey a ->
     snd (RateLimit.withRateLimit config a store) !! key = store !! key).
Proof.
  split.
  - intros b Hb Hexp. apply withRateLimit_fresh. unfold RateLimit.get. rewrite Hb.
    destruct (Z.gtb_spec (RateLimit.atGet a) (RateLimit.resetTime b)); [done|lia].
  - intros key Hne. unfold RateLimit.withRateLimit, RateLimit.increment, RateLimit.get,
      RateLimit.set.
    destruct (store !! RateLimit.rateLimitKey a) as [e|];
      [destruct (_ >? RateLimit.resetTime e)|]; simpl;
      match goal with |- context [if ?b then _ else _] => destruct b end; simpl;
      rewrite lookup_insert_ne by done; rewrite ?lookup_delete_ne by done; done.
Qed.

Lemma get_after_sweep t now key store :
  t <= now ->
  fst (RateLimit.get now key (RateLimit.sweep t store)) = fst (RateLimit.get now key store).
Proof.
  intros Hle. unfold RateLimit.get, RateLimit.sweep.
  destruct (store !! key) as [e|] eqn:He.
  - destruct (decide (RateLimit.resetTime e < t)) as [Hold|Hlive].
    + assert (filter (fun kv : string * RateLimit.Bucket => ~ RateLimit.resetTime kv.2 < t)
                store !! key = None) as ->.
      { apply map_lookup_filter_None. right. intros x Hx. simpl.
        rewrite He in Hx. injection Hx as <-. tauto. }
      destruct (Z.gtb_spec now (RateLimit.resetTime e)); [done|lia].
    + assert (filter (fun kv : string * RateLimit.Bucket => ~ RateLimit.resetTime kv.2 < t)
                store !! key = Some e) as ->.
      { by apply map_lookup_filter_Some. }
      by destruct (now >? RateLimit.resetTime e).
  - assert (filter (fun kv : string * RateLimit.Bucket => ~ RateLimit.resetTime kv.2 < t)
              store !! key = None) as ->; [|done].
    apply map_lookup_filter_None. by left.
Qed.

(** X9.  The periodic sweep of the store is not observable: a sweep run
    at any time before a request leaves the verdict on that request what it
    would have been without it. *)
Theorem rate_limit_sweep_keeps_verdicts config a store t :
  t <= RateLimit.atGet a ->
  fst (RateLimit.withRateLimit config a (RateLimit.sweep t store))
  = fst (RateLimit.withRateLimit config a store).
Proof.
  intros Hle. unfold RateLimit.withRateLimit, RateLimit.increment.
  pose proof (get_after_sweep t (RateLimit.atGet a) (RateLimit.rateLimitKey a) store Hle) as Hg.
  destruct (RateLimit.get _ _ (RateLimit.sweep t store)) as [e1 s1].
  destruct (RateLimit.get _ _ store) as [e2 s2]. simpl in Hg. subst e2.
  destruct e1 as [e|]; simpl; by destruct (_ >? RateLimit.maxRequests config).
Qed.

(** X10.  The [Retry-After] of a 429 is the time to the window's end in
    whole seconds, rounded up: waiting that long reaches the reset time, and
    one second less does not. *)
Theorem rate_limit_retry_after_bounds config a store ra limit reset :
  fst (RateLimit.withRateLimit config a store) = RateLimit.Limited ra limit reset ->
  reset - RateLimit.atReject a <= 1000 * ra /\
  1000 * (ra - 1) < reset - RateLimit.atReject a /\
  limit = RateLimit.maxRequests config.
Proof.
  unfold RateLimit.withRateLimit.
  destruct (RateLimit.increment _ _ _ _ store) as [b store'].
  destruct (_ >? _); simpl; [|done]. intros [= <- <- <-].
  unfold Str.ceilDiv1000. split; [|split; [|done]]; Z.div_mod_to_equations; lia.
Qed.

End rate_limit_extras.

(** ** src/utils.ts and src/validation.ts *)

Section url_extras.
Variable parse : string -> option Utils.ParsedUrl.

Lemma trimEnd_idem s : Str.trimEnd (Str.trimEnd s) = Str.trimEnd s.
Proof.
  induction s as [|ch s IH]; [done|]. cbn [Str.trimEnd]. cbv zeta.
  destruct (Regex.is_space ch && String.eqb (Str.trimEnd s) "") eqn:E; [done|].
  cbn [Str.trimEnd]. cbv zeta. by rewrite IH, E.
Qed.

Lemma trimStart_no_leading s : Str.no_leading_space (Str.trimStart s).
Proof.
  induction s as [|ch s IH]; [done|]. cbn [Str.trimStart].
  by destruct (Regex.is_space ch) eqn:E.
Qed.

Lemma trimStart_fixed s : Str.no_leading_space s -> Str.trimStart s = s.
Proof. destruct s as [|ch s]; [done|]. simpl. by intros ->. Qed.

Lemma trimEnd_no_leading s : Str.no_leading_space s -> Str.no_leading_space (Str.trimEnd s).
Proof.
  destruct s as [|ch s]; [done|]. cbn [Str.trimEnd Str.no_leading_space]. cbv zeta.
  intros H. rewrite H. done.
Qed.

Lemma trim_idem s : Str.trim (Str.trim s) = Str.trim s.
Proof.
  unfold Str.trim.
  rewrite (trimStart_fixed (Str.trimEnd (Str.trimStart s))).
  - apply trimEnd_idem.
  - apply trimEnd_no_leading, trimStart_no_leading.
Qed.

Lemma includes_cons s p ch : JS.includes s p = true -> JS.includes (String ch s) p = true.
Proof. intros H. cbn [JS.includes]. rewrite H. apply orb_true_r. Qed.

(** A path that holds [/s/player/] holds [/player/]. *)
Lemma includes_s_player s :
  JS.includes s "/s/player/" = true -> JS.includes s "/player/" = true.
Proof.
  induction s as [|ch s IH]; [done|]. cbn [JS.includes].
  intros [Hp|Hs]%orb_true_iff.
  - apply prefix_split in Hp as [r Hr]. simpl in Hr. injection Hr as -> ->.
    apply orb_true_iff. right.
    change ("s/player/" ++ r) with (String "s" ("/player/" ++ r)).
    apply includes_cons. destruct r; simpl; done.
  - rewrite (IH Hs). apply orb_true_r.
Qed.

Lemma mem_In s l : Utils.mem s l = true <-> In s l.
Proof.
  unfold Utils.mem. rewrite existsb_exists. split.
  - intros (x & Hx & ->%String.eqb_eq). done.
  - intros H. exists s. split; [done|]. apply String.eqb_refl.
Qed.

(** X11.  What [validateAndNormalizePlayerUrl] returns is a player URL on
    YouTube: either [https://www.youtube.com] followed by the trimmed input,
    which began with [/s/player/], or the trimmed input itself, which parses
    as a URL of scheme http or https whose host is one of the three allowed
    and whose path holds [/player/]; values that are not strings, empty
    strings and strings of white space are refused. *)
Theorem normalized_player_url_is_youtube (v : Json.value) (u : string) :
  Utils.validateAndNormalizePlayerUrl parse v = JS.Returned u ->
  exists s, v = Json.Str s /\ Str.trim s <> "" /\
    ((JS.startsWith (Str.trim s) "/s/player/" = true /\
      u = "https://www.youtube.com" ++ Str.trim s) \/
     (JS.startsWith (Str.trim s) "/" = false /\ u = Str.trim s /\
      exists url, parse u = Some url /\
        (Utils.protocol url = "http:" \/ Utils.protocol url = "https:") /\
        In (Utils.hostname url) Utils.ALLOWED_HOSTNAMES /\
        JS.includes (Utils.pathname url) "/player/" = true)).
Proof.
  destruct v as [s|]; [|discriminate]. cbn [Utils.validateAndNormalizePlayerUrl]. cbv zeta.
  destruct (JS.truthy s) eqn:Hs; [|discriminate]. cbn [negb].
  destruct (JS.truthy (Str.trim s)) eqn:Ht; [|discriminate]. cbn [negb].
  apply truthy_nonempty in Ht.
  destruct (JS.startsWith (Str.trim s) "/") eqn:Hrel.
  - destruct (JS.startsWith (Str.trim s) "/s/player/") eqn:Hpl; [|discriminate].
    intros [= <-]. exists s. split; [done|]. split; [done|]. by left.
  - destruct (parse (Str.trim s)) as [url|] eqn:Hparse; [|discriminate].
    destruct (Utils.mem (Utils.protocol url) _) eqn:Hproto; [|discriminate]. cbn [negb].
    destruct (Utils.mem (Utils.hostname url) _) eqn:Hhost; [|discriminate]. cbn [negb].
    destruct (negb (JS.includes (Utils.pathname url) "/player/") &&
              negb (JS.includes (Utils.pathname url) "/s/player/")) eqn:Hpath;
      [discriminate|].
    intros [= <-]. exists s. split; [done|]. split; [done|]. right.
    split; [done|]. split; [done|]. exists url. split; [done|].
    apply mem_In in Hproto. apply mem_In in Hhost. split; [|split; [done|]].
    + simpl in Hproto. destruct Hproto as [E|[E|[]]]; rewrite <- E; tauto.
    + apply andb_false_iff in Hpath as [H|H]; apply negb_false_iff in H; [done|].
      by apply includes_s_player.
Qed.

(** X12.  Normalising is idempotent on absolute URLs: a result that was
    not made from a relative path is accepted again, and returned as it
    is. *)
Theorem normalize_absolute_idempotent (s u : string) :
  JS.startsWith (Str.trim s) "/" = false ->
  Utils.validateAndNormalizePlayerUrl parse (Json.Str s) = JS.Returned u ->
  Utils.validateAndNormalizePlayerUrl parse (Json.Str u) = JS.Returned u.
Proof.
  intros Habs. cbn [Utils.validateAndNormalizePlayerUrl]. cbv zeta.
  destruct (JS.truthy s); [|discriminate]. cbn [negb].
  destruct (JS.truthy (Str.trim s)) eqn:Ht; [|discriminate]. cbn [negb].
  rewrite Habs.
  destruct (parse (Str.trim s)) as [url|] eqn:Hparse; [|discriminate].
  destruct (Utils.mem (Utils.protocol url) _) eqn:Hproto; [|discriminate]. cbn [negb].
  destruct (Utils.mem (Utils.hostname url) _) eqn:Hhost; [|discriminate]. cbn [negb].
  destruct (negb (JS.includes (Utils.pathname url) "/player/") &&
            negb (JS.includes (Utils.pathname url) "/s/player/")) eqn:Hpath;
    [discriminate|].
  intros [= <-]. rewrite trim_idem, Ht. cbn [negb]. rewrite Habs, Hparse, Hproto, Hhost.
  cbn [negb]. by rewrite Hpath.
Qed.

End url_extras.

Section validation_extras.
Variable parse : string -> option Utils.ParsedUrl.
Variable sha256hex : string -> string.
Variable fetch : string -> JS.outcome (Z * string).
Variable execInPool : string -> JS.outcome string.
Variable getFromPrepared : string -> JS.outcome (option Solvers).
Variable parseURL : string -> option URL.

Lemma validate_truthy v u :
  Utils.validateAndNormalizePlayerUrl parse v = JS.Returned u -> JS.truthy u = true.
Proof.
  destruct v as [s|]; [|discriminate]. cbn [Utils.validateAndNormalizePlayerUrl]. cbv zeta.
  destruct (JS.truthy s); [|discriminate]. cbn [negb].
  destruct (JS.truthy (Str.trim s)) eqn:Ht; [|discriminate]. cbn [negb].
  destruct (JS.startsWith (Str.trim s) "/").
  - destruct (JS.startsWith (Str.trim s) "/s/player/"); [|discriminate].
    by intros [= <-].
  - destruct (parse (Str.trim s)) as [url|]; [|discriminate].
    destruct (negb (Utils.mem (Utils.protocol url) _)); [discriminate|].
    destruct (negb (Utils.mem (Utils.hostname url) _)); [discriminate|].
    destruct (_ && _); [discriminate|]. by intros [= <-].
Qed.

(** The three validated paths. *)
Lemma withValidation_validated {R} (handler : gmap string Json.value -> R) pathname body r :
  pathname = "/decrypt_signature" \/ pathname = "/get_sts" \/ pathname = "/resolve_url" ->
  Validation.withValidation parse handler pathname body = Validation.FromHandler r ->
  exists s u,
    body !! "player_url" = Some (Json.Str s) /\
    Utils.validateAndNormalizePlayerUrl parse (Json.Str s) = JS.Returned u /\
    r = handler (<["player_url" := Json.Str u]> body) /\
    (pathname = "/resolve_url" -> exists t, body !! "stream_url" = Some (Json.Str t)).
Proof.
  intros Hp. unfold Validation.withValidation, Validation.validateObject.
  set (V := Utils.validateAndNormalizePlayerUrl parse). clearbody V.
  destruct Hp as [-> | [-> | ->]]; cbn [String.eqb Ascii.eqb Bool.eqb];
    cbn [flat_map Validation.signatureRequestSchema Validation.stsRequestSchema
         Validation.resolveUrlRequestSchema fst snd];
    destruct (body !! "player_url") as [[s|]|] eqn:Hpu; cbn; try discriminate.
  - destruct (V (Json.Str s)) as [u|] eqn:Hv; [|discriminate].
    intros [= <-]. exists s, u. repeat split; try done.
  - destruct (V (Json.Str s)) as [u|] eqn:Hv; [|discriminate].
    intros [= <-]. exists s, u. repeat split; try done.
  - destruct (body !! "stream_url") as [[t|]|] eqn:Hsu; cbn; try discriminate.
    destruct (V (Json.Str s)) as [u|] eqn:Hv; [|discriminate].
    intros [= <-]. exists s, u. repeat split; try done. intros _. by exists t.
Qed.

(** X13.  Behind [withValidation] the handlers of [/decrypt_signature],
    [/get_sts] and [/resolve_url] are called only on a body whose
    [player_url] was a string and now holds its normalised form, the other
    fields as they arrived; requests to any other path reach the handler
    with the body untouched. *)
Theorem validation_hands_on_normalized_url {R} (handler : gmap string Json.value -> R)
    pathname body r :
  Validation.withValidation parse handler pathname body = Validation.FromHandler r ->
  (pathname = "/decrypt_signature" \/ pathname = "/get_sts" \/ pathname = "/resolve_url") /\
    (exists s u,
       body !! "player_url" = Some (Json.Str s) /\
       Utils.validateAndNormalizePlayerUrl parse (Json.Str s) = JS.Returned u /\
       JS.truthy u = true /\
       r = handler (<["player_url" := Json.Str u]> body)) \/
  (pathname <> "/decrypt_signature" /\ pathname <> "/get_sts" /\ pathname <> "/resolve_url") /\
    r = handler body.
Proof.
  intros H.
  destruct (String.eqb_spec pathname "/decrypt_signature") as [E1|N1];
    [|destruct (String.eqb_spec pathname "/get_sts") as [E2|N2];
      [|destruct (String.eqb_spec pathname "/resolve_url") as [E3|N3]]].
  4: { right. split; [done|]. revert H. unfold Validation.withValidation.
       apply String.eqb_neq in N1, N2, N3. rewrite N1, N2, N3. by intros [= <-]. }
  all: assert (pathname = "/decrypt_signature" \/ pathname = "/get_sts" \/
               pathname = "/resolve_url") as Hp
         by first [by left | by right; left | by right; right];
    left; split; [exact Hp|];
    destruct (withValidation_validated handler pathname body r Hp H)
      as (s & u & ? & Hv & ? & _);
    exists s, u; repeat split; try done; by apply (validate_truthy _ _ Hv).
Qed.

(** X14.  Behind [withValidation] the 400 [MISSING_PLAYER_URL] of
    [handleDecryptSignature] cannot occur: when the handler is reached it
    answers 200 or 500, so that a 400 at [/decrypt_signature] is always the
    validation's own.  The handler reads the body as a [SignatureRequest];
    [reqOf] is any such reading that finds a string [player_url] where the
    body has one. *)
Theorem decrypt_behind_validation_never_400
    (reqOf : gmap string Json.value -> Handlers.SignatureRequest)
    body (w w' : World) resp :
  (forall b s, b !! "player_url" = Some (Json.Str s) ->
     Handlers.player_url (reqOf b) = Some s) ->
  Validation.withValidation parse
    (fun b => Handlers.handleDecryptSignature sha256hex fetch execInPool getFromPrepared
                (reqOf b) w)
    "/decrypt_signature" body = Validation.FromHandler (resp, w') ->
  Handlers.status resp = 200 \/ Handlers.status resp = 500.
Proof.
  intros Hread H.
  apply withValidation_validated in H as (s & u & _ & Hv & Hr & _); [|by left].
  apply validate_truthy in Hv. revert Hr.
  unfold Handlers.handleDecryptSignature.
  rewrite (Hread _ u (lookup_insert_eq _ _ _)). cbn [JS.truthy_opt default]. unfold id.
  rewrite Hv.
  destruct (Pipeline.getSolvers _ _ _ _ u w) as [[[sv|]|msg] w1];
    intros [= -> _]; simpl; first [by left | by right].
Qed.

(** X15.  Behind [withValidation], which asks of [stream_url] only that it
    be a string, [handleResolveUrl] answers its 400
    [MISSING_REQUIRED_PARAMS] exactly when [stream_url] is the empty
    string.  The handler reads the body as a [ResolveUrlRequest]; [reqOf] is
    any such reading that finds a string [player_url] and a string
    [stream_url] where the body has them. *)
Theorem resolve_behind_validation_400_iff_empty_stream
    (reqOf : gmap string Json.value -> Handlers.ResolveUrlRequest)
    body (w w' : World) resp :
  (forall b s, b !! "player_url" = Some (Json.Str s) ->
     Handlers.rplayer_url (reqOf b) = Some s) ->
  (forall b s, b !! "stream_url" = Some (Json.Str s) ->
     Handlers.stream_url (reqOf b) = Some s) ->
  Validation.withValidation parse
    (fun b => Handlers.handleResolveUrl sha256hex fetch execInPool getFromPrepared parseURL
                (reqOf b) w)
    "/resolve_url" body = Validation.FromHandler (resp, w') ->
  (Handlers.status resp = 400 <-> body !! "stream_url" = Some (Json.Str "")).
Proof.
  intros Hplayer Hstream H.
  apply withValidation_validated in H as (s & u & _ & Hv & Hr & Ht);
    [|by right; right].
  destruct Ht as [t Ht]; [done|].
  apply validate_truthy in Hv. revert Hr.
  unfold Handlers.handleResolveUrl.
  rewrite (Hplayer _ u (lookup_insert_eq _ _ _)).
  rewrite (Hstream (<["player_url" := Json.Str u]> body) t)
    by by rewrite lookup_insert_ne.
  rewrite Ht.
  cbn [JS.truthy_opt default]. unfold id. rewrite Hv. cbn [negb orb].
  destruct (JS.truthy t) eqn:Htt; cbn [negb orb].
  - assert (t <> "") as Hne by by apply truthy_nonempty.
    assert (forall st, st = 200 \/ st = 500 ->
              st = 400 <-> Some (Json.Str t) = Some (Json.Str "")) as Hst.
    { intros st Hst. split; [lia|]. intros [= E]. done. }
    destruct (Pipeline.getSolvers _ _ _ _ u w) as [[[sv|]|msg] w1].
    + destruct (parseURL t) as [url|].
      * destruct (Handlers.applySignature _ sv url) as [url1|];
          intros [= -> _]; simpl; apply Hst; first [by left | by right].
      * intros [= -> _]; simpl; apply Hst; first [by left | by right].
    + intros [= -> _]; simpl; apply Hst; first [by left | by right].
    + intros [= -> _]; simpl; apply Hst; first [by left | by right].
  - assert (t = "") as -> by (destruct t; [done|discriminate]).
    intros [= -> _]. simpl. done.
Qed.

End validation_extras.

(** ** src/handlers/validateSignature.ts *)

(** X16.  The verdict of [/validate_signature] is the conjunction of the
    three checks it reports, and the type it names follows from them: a
    player URL that fails its check gives [invalid_player_url] whatever the
    signature; otherwise a signature that fails the length or the pattern
    check is [unknown], and one that passes both is [short] up to 50 code
    units, [medium] up to 100 and [long] beyond. *)
Theorem validate_signature_verdict req v ty len puv lc pc puc :
  ValidateSignature.handleValidateSignature req
  = ValidateSignature.Validation v ty len puv lc pc puc ->
  v = lc && pc && puc /\
  puv = puc /\
  (lc = true <-> 10 <= len <= 200) /\
  ty = (if negb puc then "invalid_player_url"
        else if negb (lc && pc) then "unknown"
        else if len <=? 50 then "short"
        else if len <=? 100 then "medium"
        else "long").
Proof.
  unfold ValidateSignature.handleValidateSignature.
  destruct (negb _ || negb _); [discriminate|].
  set (sig := default "" (ValidateSignature.encrypted_signature req)).
  set (n := Z.of_nat (String.length sig)).
  set (P := JS.includes _ _ || JS.includes _ _).
  assert ((10 <=? n) && (n <=? 200) = true <-> 10 <= n <= 200) as Hlen by lia.
  destruct ((10 <=? n) && (n <=? 200)) eqn:Hl;
    destruct (ValidateSignature.matches sig) eqn:Hm; destruct P; cbn;
    intros [= <- <- <- <- <- <- <-]; done.
Qed.

(** ** server.ts: [updateRealTimeData] *)

Section realtime_extras.

Lemma update_responseTimes now rt isError d :
  RealTime.responseTimes (RealTime.updateRealTimeData now rt isError d)
  = let l := (RealTime.responseTimes d ++ [rt])%list in drop (length l - 100) l.
Proof.
  unfold RealTime.updateRealTimeData. cbn [RealTime.responseTimes]. cbv zeta.
  destruct (Nat.ltb_spec 100 (length (RealTime.responseTimes d ++ [rt]))); [done|].
  replace (length (RealTime.responseTimes d ++ [rt]) - 100)%nat with 0%nat by lia. done.
Qed.

Lemma record_snoc served s d :
  RealTime.record (served ++ [s])%list d
  = RealTime.updateRealTimeData (RealTime.endedAt s) (RealTime.took s) (RealTime.failed s)
      (RealTime.record served d).
Proof. unfold RealTime.record. by rewrite foldl_app. Qed.

(** X17.  The running figures after any number of requests: every request
    is counted, the error count is the number of failed ones and so never
    exceeds the total, and the response times kept are those of the last
    100 requests, in the order they ended. *)
Theorem realtime_figures (start : Z) (served : list RealTime.Served) :
  let d := RealTime.record served (RealTime.initial start) in
  RealTime.totalRequests d = Z.of_nat (length served) /\
  RealTime.errorCount d
  = Z.of_nat (length (filter (fun s => RealTime.failed s = true) served)) /\
  0 <= RealTime.errorCount d <= RealTime.totalRequests d /\
  RealTime.responseTimes d
  = drop (length served - 100) (map RealTime.took served) /\
  RealTime.lastRequestTime d = default start (last (map RealTime.endedAt served)).
Proof.
  cbv zeta. induction served as [|s served IH] using rev_ind; [done|].
  rewrite record_snoc. destruct IH as (Ht & He & Hb & Hr & Hlast).
  assert (RealTime.errorCount
            (RealTime.updateRealTimeData (RealTime.endedAt s) (RealTime.took s)
               (RealTime.failed s) (RealTime.record served (RealTime.initial start)))
          = Z.of_nat (length (filter (fun s => RealTime.failed s = true) (served ++ [s])%list)))
    as He'.
  { rewrite filter_app, length_app. cbn [RealTime.updateRealTimeData RealTime.errorCount].
    destruct (RealTime.failed s) eqn:Hf.
    - rewrite filter_cons_True by done. simpl. lia.
    - rewrite filter_cons_False by (rewrite Hf; done). simpl. lia. }
  split; [|split; [done|split; [|split]]].
  - cbn [RealTime.updateRealTimeData RealTime.totalRequests]. rewrite length_app. simpl. lia.
  - rewrite He'. cbn [RealTime.updateRealTimeData RealTime.totalRequests].
    rewrite Ht. pose proof (length_filter (fun s => RealTime.failed s = true) (served ++ [s])%list) as Hle.
    rewrite length_app in Hle. simpl in Hle. lia.
  - rewrite update_responseTimes. cbv zeta. rewrite Hr.
    rewrite map_app, !length_app, length_drop, length_map. cbn [map length].
    destruct (Nat.le_gt_cases (length served) 100) as [Hsmall|Hbig].
    + replace (length served - 100)%nat with 0%nat by lia. cbn [drop].
      f_equal. lia.
    + rewrite <- (drop_app_le (map RealTime.took served) [RealTime.took s])
        by (rewrite length_map; lia).
      rewrite drop_drop. f_equal. lia.
  - cbn [RealTime.updateRealTimeData RealTime.lastRequestTime].
    rewrite map_app. cbn [map]. by rewrite last_snoc.
Qed.

End realtime_extras.

(** ** src/utils.ts: times *)

(** X18.  [calculateRetryAfter] is never negative, is 0 once the reset
    time has come, and before that is the time to wait in whole seconds,
    rounded up. *)
Theorem calculateRetryAfter_bounds (now windowMs resetTime : Z) :
  let r := Utils.calculateRetryAfter now windowMs resetTime in
  0 <= r /\
  (resetTime <= now -> r = 0) /\
  (now < resetTime -> 1000 * (r - 1) < resetTime - now <= 1000 * r).
Proof.
  unfold Utils.calculateRetryAfter, Str.ceilDiv1000. cbv zeta.
  split; [|split]; [|intros H|intros H]; Z.div_mod_to_equations; lia.
Qed.

(** X19.  The fields [formatUptime] prints add up to the uptime in whole
    seconds; none is negative, every field after the first is below 60, and
    the first field printed is not 0 unless the uptime is under a second. *)
Theorem uptime_fields_add_up (ms : Z) :
  0 <= ms ->
  foldr (fun f acc => fst f * Utils.unitSeconds (snd f) + acc) 0 (Utils.uptimeFields ms)
  = ms / 1000 /\
  (forall f, f ∈ Utils.uptimeFields ms -> 0 <= fst f) /\
  (forall i f, Utils.uptimeFields ms !! S i = Some f -> fst f < 60) /\
  (forall f, head (Utils.uptimeFields ms) = Some f -> fst f = 0 -> ms < 1000).
Proof.
  intros Hms. unfold Utils.uptimeFields. cbv zeta.
  set (seconds := ms / 1000).
  assert (0 <= seconds) by (subst seconds; Z.div_mod_to_equations; lia).
  destruct (Z.gtb_spec (seconds / 60 / 60 / 24) 0) as [Hd|Hd];
    [|destruct (Z.gtb_spec (seconds / 60 / 60) 0) as [Hh|Hh];
      [|destruct (Z.gtb_spec (seconds / 60) 0) as [Hm|Hm]]];
    (split; [cbn; Z.div_mod_to_equations; lia|split; [|split]]).
  all: try (intros f Hf; repeat (apply elem_of_cons in Hf as [->|Hf]);
            [..|by apply not_elem_of_nil in Hf]; cbn; Z.div_mod_to_equations; lia).
  all: try (intros [|[|[|i]]] f; cbn; intros [= <-]; cbn; Z.div_mod_to_equations; lia).
  all: intros f [= <-]; cbn; intros; subst seconds; Z.div_mod_to_equations; lia.
Qed.

(** ** src/playerCache.ts: [getPlayerFilePath] *)

Section player_file_extras.
Variable sha256hex : string -> string.
Variable fetch : string -> JS.outcome (Z * string).

Local Ltac path_step :=
  cbn [Pipeline.runPath Pipeline.stepPath faults disk clock count_fetch set_disk
       set_playerGauge].

(** [getPlayerFilePath] as one function of the state it is called in. *)
Lemma getPlayerFilePath_unfold url (w : World) :
  let path := Pipeline.filePathOf sha256hex url in
  Pipeline.getPlayerFilePath sha256hex fetch url w
  = match statFault (faults w) path with
    | Some msg => (JS.Threw msg, w)
    | None =>
        match disk w !! path with
        | Some f =>
            match utimeFault (faults w) path with
            | Some msg => (JS.Threw msg, w)
            | None =>
                (JS.Returned path,
                 set_disk w (<[path := {| content := content f; atime := Some (clock w);
                                          mtime := Some (default (clock w) (mtime f));
                                          birthtime := birthtime f |}]> (disk w)))
            end
        | None =>
            match fetch url with
            | JS.Threw msg => (JS.Threw msg, w)
            | JS.Returned (st, body) =>
                if Pipeline.ok st then
                  match textFault (faults w) url with
                  | Some msg => (JS.Threw msg, count_fetch w)
                  | None =>
                      match writeFault (faults w) path with
                      | Some (msg, Some partial) =>
                          (JS.Threw msg,
                           set_disk (count_fetch w) (Pipeline.written path partial w))
                      | Some (msg, None) => (JS.Threw msg, count_fetch w)
                      | None =>
                          match readDirFault (faults w) with
                          | Some msg =>
                              (JS.Threw msg,
                               set_disk (count_fetch w) (Pipeline.written path body w))
                          | None =>
                              (JS.Returned path,
                               set_playerGauge
                                 (set_disk (count_fetch w) (Pipeline.written path body w))
                                 (Z.of_nat (size (Pipeline.written path body w))))
                          end
                      end
                  end
                else (JS.Threw ("Failed to fetch player from " ++ url ++ ": " ++
                                Pipeline.showStatus st), count_fetch w)
            end
        end
    end.
Proof.
  intros path. unfold Pipeline.getPlayerFilePath.
  destruct w as [now files platform solved prepared stamps fetches runs gauge].
  path_step. fold path.
  destruct (statFault platform path) as [m|]; [reflexivity|].
  destruct (files !! path) as [f|] eqn:Hdisk; path_step.
  - destruct (utimeFault platform path) as [m|]; [reflexivity|].
    rewrite Hdisk. reflexivity.
  - destruct (fetch url) as [[st body]|m]; [|reflexivity].
    destruct (Pipeline.ok st); [|reflexivity]. path_step.
    destruct (textFault platform url) as [m|]; [reflexivity|]. path_step.
    destruct (writeFault platform path) as [[m [partial|]]|]; [reflexivity|reflexivity|].
    path_step. destruct (readDirFault platform) as [m|]; reflexivity.
Qed.

(** X20.  When [getPlayerFilePath] returns, the path is the one of the
    URL's hash and the file is on disk with the time of the call as its
    access time, so that a start-up sweep within fourteen days of the call
    keeps it.  A file that was there keeps its content and costs no fetch;
    one that was not holds the body of a 2xx answer to a single fetch. *)
Theorem player_file_returned_is_fresh url (w w' : World) path :
  Pipeline.getPlayerFilePath sha256hex fetch url w = (JS.Returned path, w') ->
  path = Pipeline.filePathOf sha256hex url /\
  exists f, disk w' !! path = Some f /\
    atime f = Some (clock w) /\
    (forall now, now - clock w <= PlayerCache.fourteenDays ->
       PlayerCache.stale now f = false) /\
    match disk w !! path with
    | Some f0 =>
        content f = content f0 /\ playerScriptFetches w' = playerScriptFetches w
    | None =>
        (exists st, fetch url = JS.Returned (st, content f) /\ Pipeline.ok st = true) /\
        playerScriptFetches w' = S (playerScriptFetches w)
    end.
Proof.
  intros H.
  assert (forall f : File, atime f = Some (clock w) ->
            forall now, now - clock w <= PlayerCache.fourteenDays ->
              PlayerCache.stale now f = false) as Hfresh.
  { intros f Ha now Hnow. unfold PlayerCache.stale, PlayerCache.lastAccessed.
    rewrite Ha. destruct (Z.gtb_spec (now - clock w) PlayerCache.fourteenDays); [lia|].
    apply andb_false_r. }
  rewrite getPlayerFilePath_unfold in H.
  destruct (statFault (faults w) _) as [m|]; [discriminate|].
  destruct (disk w !! Pipeline.filePathOf sha256hex url) as [f0|] eqn:Hdisk.
  - destruct (utimeFault (faults w) _) as [m|]; [discriminate|].
    injection H as <- <-.
    split; [done|]. rewrite Hdisk. eexists. split; [apply lookup_insert_eq|].
    split; [done|]. split; [by apply Hfresh|done].
  - destruct (fetch url) as [[st body]|m] eqn:Hfetch; [|discriminate].
    destruct (Pipeline.ok st) eqn:Hok; [|discriminate].
    destruct (textFault (faults w) url) as [m|]; [discriminate|].
    destruct (writeFault (faults w) _) as [[m [partial|]]|]; [discriminate|discriminate|].
    destruct (readDirFault (faults w)) as [m|]; [discriminate|].
    injection H as <- <-. split; [done|]. rewrite Hdisk.
    eexists. split; [apply lookup_insert_eq|].
    split; [done|]. split; [by apply Hfresh|]. split; [|done]. by exists st.
Qed.

(** X21.  When [getPlayerFilePath] throws, every file but the one of the
    URL's hash is as it was.  If that file was on disk, the error is the one
    of [stat] or of [utime] and nothing has changed at all; the same holds
    when [stat] fails with an error other than [NotFound].  If the file was
    absent: a fetch that itself fails is not counted, its error is the one
    thrown and nothing has changed; an upstream answer is counted as one
    fetch, and when it is not 2xx nothing is written and the error reads
    [Failed to fetch player from <url>: <status>]; after a 2xx answer the
    error is the one of reading the body, with nothing written, or the one
    of the write, with the directory as the write left it, or the one of
    listing the directory, with the body written to the path. *)
Theorem player_file_failure_writes_nothing url (w w' : World) msg :
  Pipeline.getPlayerFilePath sha256hex fetch url w = (JS.Threw msg, w') ->
  let path := Pipeline.filePathOf sha256hex url in
  (forall p, p <> path -> disk w' !! p = disk w !! p) /\
  (is_Some (disk w !! path) ->
   w' = w /\
   (statFault (faults w) path = Some msg \/
    statFault (faults w) path = None /\ utimeFault (faults w) path = Some msg)) /\
  (forall m, statFault (faults w) path = Some m -> msg = m /\ w' = w) /\
  (disk w !! path = None -> statFault (faults w) path = None ->
   match fetch url with
   | JS.Threw m => msg = m /\ w' = w
   | JS.Returned (st, body) =>
       playerScriptFetches w' = S (playerScriptFetches w) /\
       (Pipeline.ok st = false ->
        w' = count_fetch w /\
        msg = "Failed to fetch player from " ++ url ++ ": " ++ Pipeline.showStatus st) /\
       (Pipeline.ok st = true ->
        match textFault (faults w) url with
        | Some m => msg = m /\ w' = count_fetch w
        | None =>
            match writeFault (faults w) path with
            | Some (m, Some partial) =>
                msg = m /\
                w' = set_disk (count_fetch w) (Pipeline.written path partial w)
            | Some (m, None) => msg = m /\ w' = count_fetch w
            | None =>
                readDirFault (faults w) = Some msg /\
                w' = set_disk (count_fetch w) (Pipeline.written path body w)
            end
        end)
   end).
Proof.
  intros H path. rewrite getPlayerFilePath_unfold in H. fold path in H.
  destruct (statFault (faults w) path) as [m|].
  { injection H as <- <-. split; [done|]. split; [intros _; split; [done|by left]|].
    split; [|done]. by intros ? [= <-]. }
  destruct (disk w !! path) as [f0|] eqn:Hdisk.
  { destruct (utimeFault (faults w) path) as [m|]; [|discriminate].
    injection H as <- <-. split; [done|]. split; [intros _; split; [done|by right]|].
    done. }
  assert (forall c p, p <> path -> Pipeline.written path c w !! p = disk w !! p) as Hw.
  { intros c p Hp. unfold Pipeline.written. cbv zeta. by rewrite lookup_insert_ne. }
  destruct (fetch url) as [[st body]|m] eqn:Hfetch.
  2: { injection H as <- <-. split; [done|]. split; [by intros [? ?]|]. done. }
  destruct (Pipeline.ok st) eqn:Hok.
  2: { injection H as <- <-. split; [done|]. split; [by intros [? ?]|]. done. }
  destruct (textFault (faults w) url) as [m|].
  { injection H as <- <-. split; [done|]. split; [by intros [? ?]|]. done. }
  destruct (writeFault (faults w) path) as [[m [partial|]]|].
  - injection H as <- <-. split; [intros p Hp; by apply Hw|].
    split; [by intros [? ?]|]. done.
  - injection H as <- <-. split; [done|]. split; [by intros [? ?]|]. done.
  - destruct (readDirFault (faults w)) as [m|]; [|discriminate].
    injection H as <- <-. split; [intros p Hp; by apply Hw|].
    split; [by intros [? ?]|]. done.
Qed.

End player_file_extras.

(** ** src/handlers/getSts.ts: a repeated request *)

Section sts_repeat_extras.
Variable sha256hex : string -> string.
Variable fetch : string -> JS.outcome (Z * string).

Lemma firstMatch_truthy ps s m : Handlers.firstMatch ps s = Some m -> JS.truthy m = true.
Proof.
  induction ps as [|p ps IH]; [discriminate|]. cbn [Handlers.firstMatch].
  destruct (Regex.search p s) as [[m1|]|]; try done.
  destruct (JS.truthy m1) eqn:Ht; [|done]. by intros [= <-].
Qed.

Lemma scanPlayer_200 path script (w w' : World) resp :
  Handlers.scanPlayer path script w = (resp, w') ->
  Handlers.status resp = 200 ->
  exists sts, JS.truthy sts = true /\
    resp = {| Handlers.status := 200; Handlers.body := Handlers.Sts sts;
              Handlers.xCacheHit := Some "false" |} /\
    w' = set_stsCache w (InstrumentedLRU.set (clock w) path sts (stsCache w)).
Proof.
  unfold Handlers.scanPlayer. destruct (negb _ || _).
  { intros [= <- _]. simpl. lia. }
  destruct (Handlers.firstMatch Handlers.patterns script) as [sts|] eqn:Hm.
  - destruct (Handlers.invalidSts sts).
    + intros [= <- _]. simpl. lia.
    + intros [= <- <-] _. exists sts. split; [by apply (firstMatch_truthy _ _ _ Hm)|done].
  - intros [= <- _]. simpl. lia.
Qed.

Lemma get_twice {T} now key (c : InstrumentedLRU.t T) v :
  fst (InstrumentedLRU.get now key c) = Some v ->
  fst (InstrumentedLRU.get now key (snd (InstrumentedLRU.get now key c))) = Some v.
Proof.
  unfold InstrumentedLRU.get at 1 3.
  destruct (InstrumentedLRU.entries c !! key) as [e|] eqn:He.
  - unfold InstrumentedLRU.expired.
    destruct (Z.gtb_spec (now - InstrumentedLRU.timestamp e) (InstrumentedLRU.ttl c)) as [|Hf];
      [discriminate|].
    unfold InstrumentedLRU.super_get, LRU.get.
    destruct (LRU.lookup key (LRU.items (InstrumentedLRU.lru c))) as [x|] eqn:Hl;
      simpl; [|discriminate].
    intros [= ->]. apply (get_fresh now key _ e v); simpl; try done.
    by rewrite String.eqb_refl.
  - unfold InstrumentedLRU.super_get, LRU.get.
    destruct (LRU.lookup key (LRU.items (InstrumentedLRU.lru c))) as [x|] eqn:Hl;
      simpl; [|discriminate].
    intros [= ->]. unfold InstrumentedLRU.get. simpl. rewrite He.
    unfold InstrumentedLRU.super_get, LRU.get. simpl. by rewrite String.eqb_refl.
Qed.

Lemma getPlayerFilePath_keeps url (w w' : World) path :
  Pipeline.getPlayerFilePath sha256hex fetch url w = (JS.Returned path, w') ->
  path = Pipeline.filePathOf sha256hex url /\
  clock w' = clock w /\ stsCache w' = stsCache w /\ faults w' = faults w /\
  is_Some (disk w' !! path).
Proof.
  intros H. rewrite getPlayerFilePath_unfold in H.
  destruct (statFault (faults w) _) as [m|]; [discriminate|].
  destruct (disk w !! Pipeline.filePathOf sha256hex url) as [f0|] eqn:Hdisk.
  - destruct (utimeFault (faults w) _) as [m|]; [discriminate|].
    injection H as <- <-. simpl. rewrite lookup_insert_eq. by eauto.
  - destruct (fetch url) as [[st body]|m] eqn:Hfetch; [|discriminate].
    destruct (Pipeline.ok st) eqn:Hok; [|discriminate].
    destruct (textFault (faults w) url) as [m|]; [discriminate|].
    destruct (writeFault (faults w) _) as [[m [partial|]]|]; [discriminate|discriminate|].
    destruct (readDirFault (faults w)) as [m|]; [discriminate|].
    injection H as <- <-. simpl. unfold Pipeline.written. cbv zeta.
    rewrite lookup_insert_eq. by eauto.
Qed.

(** The handler on a world whose STS cache serves the path of the URL. *)
Lemma handleGetSts_hit url (w : World) f sts :
  let path := Pipeline.filePathOf sha256hex url in
  statFault (faults w) path = None ->
  utimeFault (faults w) path = None ->
  disk w !! path = Some f ->
  fst (InstrumentedLRU.get (clock w) path (stsCache w)) = Some sts ->
  JS.truthy sts = true ->
  exists w2,
    Handlers.handleGetSts sha256hex fetch url w
    = ({| Handlers.status := 200; Handlers.body := Handlers.Sts sts;
          Handlers.xCacheHit := Some "true" |}, w2) /\
    playerScriptFetches w2 = playerScriptFetches w.
Proof.
  intros path Hstat Hutime Hdisk Hget Ht. unfold Handlers.handleGetSts.
  rewrite (getPlayerFilePath_unfold sha256hex fetch url w). fold path.
  rewrite Hstat, Hdisk, Hutime.
  cbn [clock stsCache set_disk].
  destruct (InstrumentedLRU.get (clock w) path (stsCache w)) as [r c]. simpl in Hget.
  subst r. rewrite Ht. eexists. split; [reflexivity|]. done.
Qed.

(** X22.  A [get_sts] request answered 200 is followed by a cache hit: with
    an STS cache of capacity at least 1 and a TTL that is not negative, the
    same request made again straight after it, when its [stat] and [utime]
    of the player file go through, is answered 200 with the same body and
    [X-Cache-Hit: true], and fetches nothing. *)
Theorem sts_repeat_is_cache_hit url (w w1 : World) resp :
  1 <= LRU.maxSize (InstrumentedLRU.lru (stsCache w)) ->
  0 <= InstrumentedLRU.ttl (stsCache w) ->
  Handlers.handleGetSts sha256hex fetch url w = (resp, w1) ->
  Handlers.status resp = 200 ->
  statFault (faults w1) (Pipeline.filePathOf sha256hex url) = None ->
  utimeFault (faults w1) (Pipeline.filePathOf sha256hex url) = None ->
  exists w2,
    Handlers.handleGetSts sha256hex fetch url w1
    = ({| Handlers.status := 200; Handlers.body := Handlers.body resp;
          Handlers.xCacheHit := Some "true" |}, w2) /\
    playerScriptFetches w2 = playerScriptFetches w1.
Proof.
  intros Hcap Httl. unfold Handlers.handleGetSts at 1.
  destruct (Pipeline.getPlayerFilePath sha256hex fetch url w) as [[path|msg] wa] eqn:Hp.
  2: { intros [= <- _]. simpl. lia. }
  destruct (getPlayerFilePath_keeps url w wa path Hp) as (-> & Hclock & Hsts & _ & [f Hf]).
  set (path := Pipeline.filePathOf sha256hex url) in *.
  destruct (InstrumentedLRU.get (clock wa) path (stsCache wa)) as [cached c] eqn:Hg.
  assert (c = snd (InstrumentedLRU.get (clock wa) path (stsCache wa))) as Hc
    by by rewrite Hg.
  destruct (ttl_get (clock wa) path (stsCache wa)) as [Httl' Hcap'].
  rewrite <- Hc in Httl', Hcap'. rewrite Hsts in Httl', Hcap'.
  cbn [disk set_stsCache]. rewrite Hf.
  assert (forall sts, JS.truthy sts = true ->
            Handlers.scanPlayer path (content f) (set_stsCache wa c) = (resp, w1) ->
            Handlers.status resp = 200 ->
            statFault (faults w1) path = None ->
            utimeFault (faults w1) path = None ->
            exists w2,
              Handlers.handleGetSts sha256hex fetch url w1
              = ({| Handlers.status := 200; Handlers.body := Handlers.body resp;
                    Handlers.xCacheHit := Some "true" |}, w2) /\
              playerScriptFetches w2 = playerScriptFetches w1) as Hscan.
  { intros _ _ Hs H200.
    destruct (scanPlayer_200 _ _ _ _ _ Hs H200) as (sts & Ht & -> & ->).
    intros Hstat Hutime.
    apply (handleGetSts_hit url _ f sts); [done|done|done| |done].
    cbn [clock stsCache set_stsCache]. apply get_after_set; lia. }
  destruct cached as [sts|].
  - destruct (JS.truthy sts) eqn:Ht.
    + intros [= <- <-] _ Hstat Hutime.
      apply (handleGetSts_hit url _ f sts); [done|done|done| |done].
      cbn [clock stsCache set_stsCache]. rewrite Hc. apply get_twice. by rewrite Hg.
    + intros Hs H200. by apply (Hscan "x").
  - intros Hs H200. by apply (Hscan "x").
Qed.

End sts_repeat_extras.

(** ** src/solver.ts: a call that yields no solvers *)

Section solver_failure_extras.
Variable sha256hex : string -> string.
Variable fetch : string -> JS.outcome (Z * string).
Variable execInPool : string -> JS.outcome string.
Variable getFromPrepared : string -> JS.outcome (option Solvers).

Lemma entries_get_subseteq {T} now key (c : InstrumentedLRU.t T) :
  InstrumentedLRU.entries (snd (InstrumentedLRU.get now key c)) ⊆ InstrumentedLRU.entries c.
Proof.
  unfold InstrumentedLRU.get, InstrumentedLRU.super_get, LRU.get.
  destruct (InstrumentedLRU.entries c !! key) as [e|];
    [destruct (InstrumentedLRU.expired now c e); [simpl; apply delete_subseteq|]|];
    by destruct (LRU.lookup key _).
Qed.

Lemma stepPath_solverCache t (w : World) :
  solverCache (snd (Pipeline.stepPath sha256hex fetch t w)) = solverCache w.
Proof.
  destruct t; simpl; try done.
  - destruct (statFault (faults w) filePath); [done|]. by destruct (disk w !! filePath).
  - destruct (utimeFault (faults w) filePath); [done|]. by destruct (disk w !! filePath).
  - destruct (fetch playerUrl) as [[st body]|msg]; [by destruct (Pipeline.ok st)|done].
  - by destruct (textFault (faults w) playerUrl).
  - by destruct (writeFault (faults w) filePath) as [[m [partial|]]|].
  - by destruct (readDirFault (faults w)).
Qed.

Lemma extractSolvers_stores_nothing key pp (w : World) :
  (forall s, fst (Pipeline.extractSolvers getFromPrepared key pp w)
             <> Pipeline.Done (Some s)) ->
  snd (Pipeline.extractSolvers getFromPrepared key pp w) = w.
Proof.
  unfold Pipeline.extractSolvers.
  destruct (getFromPrepared pp) as [[s|]|msg]; simpl; try done.
  intros H. by destruct (H s).
Qed.

Lemma step_stores_nothing t (w : World) :
  (forall s, fst (Pipeline.step sha256hex fetch execInPool getFromPrepared t w)
             <> Pipeline.Done (Some s)) ->
  InstrumentedLRU.entries
    (solverCache (snd (Pipeline.step sha256hex fetch execInPool getFromPrepared t w)))
  ⊆ InstrumentedLRU.entries (solverCache w).
Proof.
  destruct t as [p| | | |]; cbn [Pipeline.step]; try done.
  - assert (forall p', (let '(p'', w') := Pipeline.stepPath sha256hex fetch p' w in
                        (Pipeline.InGetPlayerFilePath p'', w')).2.(solverCache)
                       = solverCache w) as Hpath.
    { intros p'. pose proof (stepPath_solverCache p' w) as H.
      by destruct (Pipeline.stepPath sha256hex fetch p' w). }
    destruct p; try (intros _; by rewrite Hpath); [|done].
    unfold Pipeline.resume.
    pose proof (entries_get_subseteq (clock w) filePath (solverCache w)) as Hsub.
    destruct (InstrumentedLRU.get (clock w) filePath (solverCache w)) as [[s|] sc].
    { intros H. by destruct (H s). }
    cbn [clock preprocessedCache set_solverCache].
    destruct (InstrumentedLRU.get (clock w) filePath (preprocessedCache w)) as [pp pc].
    destruct (JS.truthy_opt pp).
    + intros H. rewrite extractSolvers_stores_nothing by done. done.
    + intros _. done.
  - by destruct (disk w !! playerCacheKey).
  - destruct (execInPool rawPlayer) as [pp|msg]; [|done].
    intros H. rewrite extractSolvers_stores_nothing by done. done.
Qed.

Lemma run_Done k r (w : World) :
  Pipeline.run sha256hex fetch execInPool getFromPrepared k (Pipeline.Done r) w = (Pipeline.Done r, w).
Proof. induction k as [|k IH]; [done|]. simpl. apply IH. Qed.

Lemma run_stores_nothing k t (w : World) :
  (forall s, fst (Pipeline.run sha256hex fetch execInPool getFromPrepared k t w)
             <> Pipeline.Done (Some s)) ->
  InstrumentedLRU.entries
    (solverCache (snd (Pipeline.run sha256hex fetch execInPool getFromPrepared k t w)))
  ⊆ InstrumentedLRU.entries (solverCache w).
Proof.
  revert t w. induction k as [|k IH]; intros t w H; [done|].
  cbn [Pipeline.run] in *.
  pose proof (step_stores_nothing t w) as Hstep.
  destruct (Pipeline.step sha256hex fetch execInPool getFromPrepared t w) as [t' w'].
  cbn [fst snd] in Hstep. etrans; [by apply IH|]. apply Hstep.
  intros s ->. rewrite run_Done in H. by destruct (H s).
Qed.

(** X23.  A call of [getSolvers] that does not return a pair of solvers,
    because it throws or because the extractor finds none, adds nothing to
    the solver cache: every entry the cache has after the call it had
    before, so that the failure is not remembered and the next call tries
    again. *)
Theorem getSolvers_failure_stores_nothing url (w w' : World) r :
  Pipeline.getSolvers sha256hex fetch execInPool getFromPrepared url w = (r, w') ->
  (forall s, r <> JS.Returned (Some s)) ->
  InstrumentedLRU.entries (solverCache w') ⊆ InstrumentedLRU.entries (solverCache w).
Proof.
  unfold Pipeline.getSolvers. intros H Hr.
  pose proof (run_stores_nothing 11
                (Pipeline.InGetPlayerFilePath (Pipeline.Hashing url)) w) as Hrun.
  destruct (Pipeline.run sha256hex fetch execInPool getFromPrepared 11 _ w) as [t w1].
  cbn [fst snd] in Hrun.
  assert (w1 = w') as <- by (destruct t as [p| | | |]; by injection H).
  apply Hrun. intros s ->. injection H as <-. by destruct (Hr s).
Qed.

End solver_failure_extras.

(** ** The further properties at concrete inputs *)

(** X5 at the sample cache, touched at 100 and read at 105. *)
Lemma touch_restarts_ttl_witness :
  InstrumentedLRU.consistent Probe.smallCache /\
  fst (InstrumentedLRU.touch 100 "k" Probe.smallCache) = true /\
  fst (InstrumentedLRU.get 105 "k" (snd (InstrumentedLRU.touch 100 "k" Probe.smallCache)))
  = Some "v".
Proof.
  assert (Hc : InstrumentedLRU.consistent Probe.smallCache).
  { intros key v. unfold Probe.smallCache. simpl.
    destruct (String.eqb key "k") eqn:E; [|discriminate].
    apply String.eqb_eq in E. subst key. intros [= <-]. exists 0.
    vm_compute. reflexivity. }
  split; [exact Hc|].
  destruct (touch_restarts_ttl 100 105 "k" Probe.smallCache Hc) as (H & _).
  apply (H "v"); [vm_compute; reflexivity|vm_compute; discriminate].
Defined.

(** X6 at the sample cache: a value put at 0, read at 5 and at 50. *)
Lemma put_then_get_within_ttl_witness :
  1 <= LRU.maxSize (InstrumentedLRU.lru Probe.smallCache) /\
  fst (InstrumentedLRU.get 5 "k" (InstrumentedLRU.set 0 "k" "w" Probe.smallCache)) = Some "w".
Proof.
  assert (Hcap : 1 <= LRU.maxSize (InstrumentedLRU.lru Probe.smallCache))
    by (vm_compute; discriminate).
  split; [exact Hcap|].
  destruct (put_then_get_within_ttl 0 5 "k" "w" Probe.smallCache Hcap) as (H & _).
  apply H. vm_compute. discriminate.
Defined.

(** X7 at three requests of one client within a minute, two allowed. *)
Lemma rate_limit_counts_within_window_witness :
  fst (RateLimit.get 0 (RateLimit.rateLimitKey (Probe.arrival 0)) ∅) = None /\
  fst (RateLimit.serve Probe.limits
         [Probe.arrival 0; Probe.arrival 10; Probe.arrival 20] ∅)
  = [RateLimit.Forwarded 2 1 60000; RateLimit.Forwarded 2 0 60000;
     RateLimit.Limited 60 2 60000].
Proof.
  assert (H0 : fst (RateLimit.get (RateLimit.atGet (Probe.arrival 0))
                      (RateLimit.rateLimitKey (Probe.arrival 0)) ∅) = None)
    by (vm_compute; reflexivity).
  split; [exact H0|].
  rewrite (rate_limit_counts_within_window Probe.limits (Probe.arrival 0)
             [Probe.arrival 10; Probe.arrival 20] ∅ H0).
  - vm_compute. reflexivity.
  - repeat (constructor; [split; [reflexivity|vm_compute; discriminate]|]). constructor.
Defined.

(** X9 at a store holding a bucket that ended at 100, swept at 150, for a
    request at 200. *)
Lemma rate_limit_sweep_keeps_verdicts_witness :
  150 <= RateLimit.atGet (Probe.arrival 200) /\
  fst (RateLimit.withRateLimit Probe.limits (Probe.arrival 200)
         (RateLimit.sweep 150 (Probe.bucketed 5 100)))
  = fst (RateLimit.withRateLimit Probe.limits (Probe.arrival 200) (Probe.bucketed 5 100)).
Proof.
  assert (H : 150 <= RateLimit.atGet (Probe.arrival 200)) by (vm_compute; discriminate).
  split; [exact H|].
  exact (rate_limit_sweep_keeps_verdicts Probe.limits (Probe.arrival 200)
           (Probe.bucketed 5 100) 150 H).
Defined.

(** X10 at the third request of a window that ends at 60000, made at 20. *)
Lemma rate_limit_retry_after_bounds_witness :
  fst (RateLimit.withRateLimit Probe.limits (Probe.arrival 20) (Probe.bucketed 2 60000))
  = RateLimit.Limited 60 2 60000 /\
  60000 - 20 <= 1000 * 60 /\ 1000 * (60 - 1) < 60000 - 20.
Proof.
  assert (H : fst (RateLimit.withRateLimit Probe.limits (Probe.arrival 20)
                     (Probe.bucketed 2 60000))
              = RateLimit.Limited 60 2 60000) by (vm_compute; reflexivity).
  split; [exact H|].
  destruct (rate_limit_retry_after_bounds Probe.limits (Probe.arrival 20)
              (Probe.bucketed 2 60000) 60 2 60000 H) as (H1 & H2 & _).
  split; [exact H1|exact H2].
Defined.

(** X11 at the sample player URL with white space around it. *)
Lemma normalized_player_url_is_youtube_witness :
  Utils.validateAndNormalizePlayerUrl Probe.parse (Json.Str Probe.paddedUrl)
  = JS.Returned Sample.playerUrl /\
  exists url, Probe.parse Sample.playerUrl = Some url /\
    In (Utils.hostname url) Utils.ALLOWED_HOSTNAMES.
Proof.
  assert (H : Utils.validateAndNormalizePlayerUrl Probe.parse (Json.Str Probe.paddedUrl)
              = JS.Returned Sample.playerUrl) by (vm_compute; reflexivity).
  split; [exact H|].
  destruct (normalized_player_url_is_youtube Probe.parse _ _ H)
    as (s & Hs & _ & [[Hrel _]|(_ & _ & url & Hp & _ & Hh & _)]).
  - injection Hs as <-. vm_compute in Hrel. discriminate.
  - exists url. split; [exact Hp|exact Hh].
Defined.

(** X12 at the same URL. *)
Lemma normalize_absolute_idempotent_witness :
  JS.startsWith (Str.trim Probe.paddedUrl) "/" = false /\
  Utils.validateAndNormalizePlayerUrl Probe.parse (Json.Str Probe.paddedUrl)
  = JS.Returned Sample.playerUrl /\
  Utils.validateAndNormalizePlayerUrl Probe.parse (Json.Str Sample.playerUrl)
  = JS.Returned Sample.playerUrl.
Proof.
  assert (H1 : JS.startsWith (Str.trim Probe.paddedUrl) "/" = false)
    by (vm_compute; reflexivity).
  assert (H2 : Utils.validateAndNormalizePlayerUrl Probe.parse (Json.Str Probe.paddedUrl)
               = JS.Returned Sample.playerUrl) by (vm_compute; reflexivity).
  split; [exact H1|]. split; [exact H2|].
  exact (normalize_absolute_idempotent Probe.parse _ _ H1 H2).
Defined.

(** X13 at a request to [/get_sts], with a handler that answers the
    [player_url] it is given. *)
Lemma validation_hands_on_normalized_url_witness :
  Validation.withValidation Probe.parse (fun b => b !! "player_url")
    "/get_sts" Probe.body
  = Validation.FromHandler (Some (Json.Str Sample.playerUrl)) /\
  exists s u,
    Probe.body !! "player_url" = Some (Json.Str s) /\
    Utils.validateAndNormalizePlayerUrl Probe.parse (Json.Str s) = JS.Returned u /\
    Some (Json.Str Sample.playerUrl)
    = <["player_url" := Json.Str u]> Probe.body !! "player_url".
Proof.
  assert (H : Validation.withValidation Probe.parse (fun b => b !! "player_url")
                "/get_sts" Probe.body
              = Validation.FromHandler (Some (Json.Str Sample.playerUrl)))
    by (vm_compute; reflexivity).
  split; [exact H|].
  destruct (validation_hands_on_normalized_url Probe.parse _ _ _ _ H)
    as [(_ & s & u & H1 & H2 & _ & H3)|((_ & N & _) & _)].
  - exists s, u. split; [exact H1|]. split; [exact H2|exact H3].
  - destruct (N eq_refl).
Defined.

(** X14 at a request to [/decrypt_signature] on a cold process. *)
Lemma decrypt_behind_validation_never_400_witness :
  (forall b s, b !! "player_url" = Some (Json.Str s) ->
     Handlers.player_url (Probe.signatureRequestOf b) = Some s) /\
  exists resp w',
    Validation.withValidation Probe.parse
      (fun b => Handlers.handleDecryptSignature Sample.sha256hex Sample.fetch
                  Sample.execInPool Sample.getFromPrepared
                  (Probe.signatureRequestOf b) coldWorld)
      "/decrypt_signature" Probe.body = Validation.FromHandler (resp, w') /\
    (Handlers.status resp = 200 \/ Handlers.status resp = 500).
Proof.
  assert (Hread : forall b s, b !! "player_url" = Some (Json.Str s) ->
            Handlers.player_url (Probe.signatureRequestOf b) = Some s).
  { intros b s Hb. simpl. unfold Probe.stringAt. rewrite Hb. reflexivity. }
  split; [exact Hread|].
  eexists. eexists.
  assert (H : Validation.withValidation Probe.parse
      (fun b => Handlers.handleDecryptSignature Sample.sha256hex Sample.fetch
                  Sample.execInPool Sample.getFromPrepared
                  (Probe.signatureRequestOf b) coldWorld)
      "/decrypt_signature" Probe.body = Validation.FromHandler (_, _))
    by (vm_compute; reflexivity).
  split; [exact H|].
  exact (decrypt_behind_validation_never_400 Probe.parse Sample.sha256hex Sample.fetch
           Sample.execInPool Sample.getFromPrepared Probe.signatureRequestOf _ _ _ _
           Hread H).
Defined.

(** X15 at a request to [/resolve_url] whose [stream_url] is empty. *)
Lemma resolve_behind_validation_400_iff_empty_stream_witness :
  (forall b s, b !! "player_url" = Some (Json.Str s) ->
     Handlers.rplayer_url (Probe.resolveUrlRequestOf b) = Some s) /\
  (forall b s, b !! "stream_url" = Some (Json.Str s) ->
     Handlers.stream_url (Probe.resolveUrlRequestOf b) = Some s) /\
  exists resp w',
    Validation.withValidation Probe.parse
      (fun b => Handlers.handleResolveUrl Sample.sha256hex Sample.fetch
                  Sample.execInPool Sample.getFromPrepared Sample.parseURL
                  (Probe.resolveUrlRequestOf b) coldWorld)
      "/resolve_url" Probe.body = Validation.FromHandler (resp, w') /\
    Handlers.status resp = 400.
Proof.
  assert (Hplayer : forall b s, b !! "player_url" = Some (Json.Str s) ->
            Handlers.rplayer_url (Probe.resolveUrlRequestOf b) = Some s).
  { intros b s Hb. simpl. unfold Probe.stringAt. rewrite Hb. reflexivity. }
  assert (Hstream : forall b s, b !! "stream_url" = Some (Json.Str s) ->
            Handlers.stream_url (Probe.resolveUrlRequestOf b) = Some s).
  { intros b s Hb. simpl. unfold Probe.stringAt. rewrite Hb. reflexivity. }
  split; [exact Hplayer|]. split; [exact Hstream|].
  eexists. eexists.
  assert (H : Validation.withValidation Probe.parse
      (fun b => Handlers.handleResolveUrl Sample.sha256hex Sample.fetch
                  Sample.execInPool Sample.getFromPrepared Sample.parseURL
                  (Probe.resolveUrlRequestOf b) coldWorld)
      "/resolve_url" Probe.body = Validation.FromHandler (_, _))
    by (vm_compute; reflexivity).
  split; [exact H|].
  apply (resolve_behind_validation_400_iff_empty_stream Probe.parse Sample.sha256hex
           Sample.fetch Sample.execInPool Sample.getFromPrepared Sample.parseURL
           Probe.resolveUrlRequestOf _ _ _ _ Hplayer Hstream H).
  vm_compute. reflexivity.
Defined.

(** X16 at a signature of twelve letters for the sample player. *)
Lemma validate_signature_verdict_witness :
  ValidateSignature.handleValidateSignature
    {| ValidateSignature.encrypted_signature := Some "AAAAAAAAAAAA";
       ValidateSignature.player_url := Some Sample.playerUrl |}
  = ValidateSignature.Validation true "short" 12 true true true true /\
  true = true && true && true.
Proof.
  assert (H : ValidateSignature.handleValidateSignature
    {| ValidateSignature.encrypted_signature := Some "AAAAAAAAAAAA";
       ValidateSignature.player_url := Some Sample.playerUrl |}
  = ValidateSignature.Validation true "short" 12 true true true true)
    by (vm_compute; reflexivity).
  split; [exact H|].
  destruct (validate_signature_verdict _ _ _ _ _ _ _ _ H) as (Hv & _). exact Hv.
Defined.

(** X19 at one day, one hour, one minute, one second and one
    millisecond. *)
Lemma uptime_fields_add_up_witness :
  0 <= 90061001 /\
  foldr (fun f acc => fst f * Utils.unitSeconds (snd f) + acc) 0
    (Utils.uptimeFields 90061001) = 90061001 / 1000.
Proof.
  assert (H : 0 <= 90061001) by lia.
  split; [exact H|].
  destruct (uptime_fields_add_up 90061001 H) as (Hs & _). exact Hs.
Defined.

(** X20 at the sample player on a cold process. *)
Lemma player_file_returned_is_fresh_witness :
  let path := Pipeline.filePathOf Sample.sha256hex Sample.playerUrl in
  let r := Pipeline.getPlayerFilePath Sample.sha256hex Sample.fetch Sample.playerUrl
             coldWorld in
  r = (JS.Returned path, snd r) /\
  exists f, disk (snd r) !! path = Some f /\
    PlayerCache.stale PlayerCache.fourteenDays f = false.
Proof.
  intros path r.
  assert (H : r = (JS.Returned path, snd r)) by (vm_compute; reflexivity).
  split; [exact H|].
  destruct (player_file_returned_is_fresh Sample.sha256hex Sample.fetch Sample.playerUrl
              coldWorld (snd r) path H) as (_ & f & Hf & _ & Hfresh & _).
  exists f. split; [exact Hf|]. apply Hfresh. vm_compute. discriminate.
Defined.

(** X21 at an upstream that answers 404. *)
Lemma player_file_failure_writes_nothing_witness :
  let r := Pipeline.getPlayerFilePath Sample.sha256hex Probe.fetch404 Sample.playerUrl
             coldWorld in
  r = (JS.Threw ("Failed to fetch player from " ++ Sample.playerUrl ++ ": 404"), snd r) /\
  snd r = count_fetch coldWorld /\
  playerScriptFetches (snd r) = 1%nat.
Proof.
  intros r.
  assert (H : r = (JS.Threw ("Failed to fetch player from " ++ Sample.playerUrl ++ ": 404"),
                   snd r)) by (vm_compute; reflexivity).
  split; [exact H|].
  destruct (player_file_failure_writes_nothing Sample.sha256hex Probe.fetch404
              Sample.playerUrl coldWorld (snd r) _ H) as (_ & _ & _ & Hfetch).
  destruct (Hfetch eq_refl eq_refl) as (Hn & Hrefused & _).
  split; [exact (proj1 (Hrefused eq_refl))|exact Hn].
Defined.

(** X22 at the process with the sample script on disk. *)
Lemma sts_repeat_is_cache_hit_witness :
  let r := Handlers.handleGetSts Sample.sha256hex Sample.fetch Sample.playerUrl
             Sample.worldWithScript in
  let path := Pipeline.filePathOf Sample.sha256hex Sample.playerUrl in
  1 <= LRU.maxSize (InstrumentedLRU.lru (stsCache Sample.worldWithScript)) /\
  0 <= InstrumentedLRU.ttl (stsCache Sample.worldWithScript) /\
  Handlers.status (fst r) = 200 /\
  statFault (faults (snd r)) path = None /\
  utimeFault (faults (snd r)) path = None /\
  exists w2,
    Handlers.handleGetSts Sample.sha256hex Sample.fetch Sample.playerUrl (snd r)
    = ({| Handlers.status := 200; Handlers.body := Handlers.body (fst r);
          Handlers.xCacheHit := Some "true" |}, w2) /\
    playerScriptFetches w2 = playerScriptFetches (snd r).
Proof.
  intros r path.
  assert (H1 : 1 <= LRU.maxSize (InstrumentedLRU.lru (stsCache Sample.worldWithScript)))
    by (vm_compute; discriminate).
  assert (H2 : 0 <= InstrumentedLRU.ttl (stsCache Sample.worldWithScript))
    by (vm_compute; discriminate).
  assert (H3 : r = (fst r, snd r)) by (by destruct r).
  assert (H4 : Handlers.status (fst r) = 200) by (vm_compute; reflexivity).
  assert (H5 : statFault (faults (snd r)) path = None) by (vm_compute; reflexivity).
  assert (H6 : utimeFault (faults (snd r)) path = None) by (vm_compute; reflexivity).
  split; [exact H1|]. split; [exact H2|]. split; [exact H4|].
  split; [exact H5|]. split; [exact H6|].
  exact (sts_repeat_is_cache_hit Sample.sha256hex Sample.fetch Sample.playerUrl
           Sample.worldWithScript (snd r) (fst r) H1 H2 H3 H4 H5 H6).
Defined.

(** X23 at an upstream that answers 404. *)
Lemma getSolvers_failure_stores_nothing_witness :
  let r := Pipeline.getSolvers Sample.sha256hex Probe.fetch404 Sample.execInPool
             Sample.getFromPrepared Sample.playerUrl coldWorld in
  fst r = JS.Threw ("Failed to fetch player from " ++ Sample.playerUrl ++ ": 404") /\
  InstrumentedLRU.entries (solverCache (snd r))
  ⊆ InstrumentedLRU.entries (solverCache coldWorld).
Proof.
  intros r.
  assert (H1 : fst r = JS.Threw ("Failed to fetch player from " ++ Sample.playerUrl ++ ": 404"))
    by (vm_compute; reflexivity).
  assert (H2 : r = (fst r, snd r)) by (by destruct r).
  split; [exact H1|].
  apply (getSolvers_failure_stores_nothing Sample.sha256hex Probe.fetch404
           Sample.execInPool Sample.getFromPrepared Sample.playerUrl coldWorld (snd r)
           (fst r) H2).
  intros s. rewrite H1. discriminate.
Defined.


(** ** src/middleware.ts: the order of the layers *)

Section compose_extras.
Variable atob : string -> JS.outcome string.

Lemma compose_serve_live config env (l : list Compose.Incoming) store key c0 r :
  store !! key = Some {| RateLimit.count := c0; RateLimit.resetTime := r |} ->
  Forall (fun x => RateLimit.rateLimitKey (Compose.arrivalOf x) = key /\
                   Compose.t_get x <= r) l ->
  fst (Compose.serve atob config env l store)
  = imap (fun i x =>
            if c0 + Z.of_nat i + 1 >? RateLimit.maxRequests config
            then Compose.TooMany (Str.ceilDiv1000 (r - Compose.t_reject x))
            else Compose.behindLimit atob env x) l.
Proof.
  revert store c0. induction l as [|x rest IH]; intros store c0 Hs Hall; [done|].
  inversion Hall as [|? ? [Hk Hg] Hrest]; subst. cbn [Compose.serve].
  unfold Compose.composeMiddleware.
  rewrite (withRateLimit_live config (Compose.arrivalOf x) store c0 r Hs Hg).
  specialize (IH (<[RateLimit.rateLimitKey (Compose.arrivalOf x) :=
                      {| RateLimit.count := c0 + 1; RateLimit.resetTime := r |}]> store)
                 (c0 + 1) (lookup_insert_eq _ _ _) Hrest).
  unfold RateLimit.verdictFor.
  destruct (c0 + 1 >? RateLimit.maxRequests config) eqn:Hover;
    destruct (Compose.serve atob config env rest _) as [answers store2];
    simpl in *; subst answers; rewrite Z.add_0_r, Hover; f_equal;
    apply imap_ext; intros i y _; simpl;
    by replace (c0 + 1 + Z.of_nat i + 1) with (c0 + Z.of_nat (S i) + 1) by lia.
Qed.

(** X24.  The limiter is the outermost layer and counts every request
    before anything looks at it: among the requests of one client to one
    path within a window, those beyond [maxRequests] are answered 429
    whatever their credentials, and the ones before them use up the window
    whether they then fail in the metrics layer, are answered by the CORS
    layer (every [OPTIONS] request, which is never authenticated), are
    refused by [withAuth] or are handed to the handler. *)
Theorem limiter_counts_before_auth config env x0 (rest : list Compose.Incoming) store :
  let key := RateLimit.rateLimitKey (Compose.arrivalOf x0) in
  let reset := Compose.t_increment x0 + RateLimit.windowMs config in
  fst (RateLimit.get (Compose.t_get x0) key store) = None ->
  Forall (fun x => RateLimit.rateLimitKey (Compose.arrivalOf x) = key /\
                   Compose.t_get x <= reset) rest ->
  fst (Compose.serve atob config env (x0 :: rest) store)
  = imap (fun i x =>
            if Z.of_nat i + 1 >? RateLimit.maxRequests config
            then Compose.TooMany (Str.ceilDiv1000 (reset - Compose.t_reject x))
            else if Compose.playerIdThrows x then Compose.Thrown
            else if String.eqb (Server.method (Compose.req x)) "OPTIONS"
            then Compose.Preflight
            else match Middleware.withAuth atob env (Compose.req x) with
                 | Middleware.Next => Compose.Reached
                 | a => Compose.Denied a
                 end) (x0 :: rest).
Proof.
  intros key reset Hfresh Hall. cbn [Compose.serve]. unfold Compose.composeMiddleware.
  destruct (withRateLimit_fresh config (Compose.arrivalOf x0) store Hfresh) as [Hv Hs].
  destruct (RateLimit.withRateLimit config (Compose.arrivalOf x0) store) as [v store1].
  simpl in Hv, Hs. fold key reset in Hs.
  pose proof (compose_serve_live config env rest store1 key 1 reset Hs Hall) as Hrest.
  subst v. unfold RateLimit.verdictFor. cbn [Compose.t_reject Compose.arrivalOf
    RateLimit.atReject RateLimit.atIncrement]. fold reset.
  cbn [imap]. change (Z.of_nat 0 + 1) with 1.
  assert (imap (fun i x =>
                  if 1 + Z.of_nat i + 1 >? RateLimit.maxRequests config
                  then Compose.TooMany (Str.ceilDiv1000 (reset - Compose.t_reject x))
                  else Compose.behindLimit atob env x) rest
          = imap ((fun i x =>
                  if Z.of_nat i + 1 >? RateLimit.maxRequests config
                  then Compose.TooMany (Str.ceilDiv1000 (reset - Compose.t_reject x))
                  else if Compose.playerIdThrows x then Compose.Thrown
                  else if String.eqb (Server.method (Compose.req x)) "OPTIONS"
                  then Compose.Preflight
                  else match Middleware.withAuth atob env (Compose.req x) with
                       | Middleware.Next => Compose.Reached
                       | a => Compose.Denied a
                       end) ∘ S) rest) as E.
  { apply imap_ext. intros i y _. cbn [compose].
    by replace (1 + Z.of_nat i + 1) with (Z.of_nat (S i) + 1) by lia. }
  rewrite <- E, <- Hrest.
  destruct (1 >? RateLimit.maxRequests config);
    by destruct (Compose.serve atob config env rest store1).
Qed.

End compose_extras.

(** X24 at an unauthenticated request, a preflight and a request with the
    right token, one client within a minute, two requests allowed. *)
Lemma limiter_counts_before_auth_witness :
  fst (RateLimit.get 0 (RateLimit.rateLimitKey (Probe.arrival 0)) ∅) = None /\
  fst (Compose.serve Sample.atob Probe.limits Probe.secretEnv
         [Probe.incoming "POST" None 0; Probe.incoming "OPTIONS" None 10;
          Probe.incoming "POST" (Some "Bearer secret") 20] ∅)
  = [Compose.Denied Middleware.AuthRequired; Compose.Preflight; Compose.TooMany 60].
Proof.
  assert (H0 : fst (RateLimit.get (Compose.t_get (Probe.incoming "POST" None 0))
                      (RateLimit.rateLimitKey
                         (Compose.arrivalOf (Probe.incoming "POST" None 0))) ∅) = None)
    by (vm_compute; reflexivity).
  split; [exact H0|].
  rewrite (limiter_counts_before_auth Sample.atob Probe.limits Probe.secretEnv
             (Probe.incoming "POST" None 0)
             [Probe.incoming "OPTIONS" None 10;
              Probe.incoming "POST" (Some "Bearer secret") 20] ∅ H0).
  - vm_compute. reflexivity.
  - repeat (constructor; [split; [reflexivity|vm_compute; discriminate]|]). constructor.
Defined.


(** ** batchDecrypt.ts: the element named in the 400 *)

(** X25.  [/batch_decrypt] stops at the first element that is not an
    object with the three fields.  When the elements before position [k]
    are complete: an object at [k] that lacks a field gives the 400
    [Invalid signature object at index k]; a [null] at [k], whose field
    cannot be read, gives the 500 [PROCESSING_ERROR] of the handler's
    [catch]; either way whatever follows [k] is not looked at and no element
    is processed. *)
Theorem batch_names_first_incomplete (pre : list Handlers.SignatureRequest)
    (e : Handlers.BatchElement) (post : list Handlers.BatchElement) :
  Forall (fun s => Handlers.incomplete s = false) pre ->
  let resp :=
    Handlers.handleBatchDecrypt
      {| Handlers.signatures := Some (map Handlers.Element pre ++ e :: post)%list |} in
  (forall sig, e = Handlers.Element sig -> Handlers.incomplete sig = true ->
     resp = Handlers.respond 400
              (Handlers.ApiError
                 ("Invalid signature object at index " ++
                  DecimalString.NilEmpty.string_of_uint (Nat.to_uint (length pre)))
                 "INVALID_REQUEST")) /\
  (e = Handlers.NullElement ->
     resp = Handlers.respond 500
              (Handlers.ApiError "Batch decrypt processing failed" "PROCESSING_ERROR")).
Proof.
  intros Hpre resp. subst resp. unfold Handlers.handleBatchDecrypt.
  cbn [Handlers.signatures]. rewrite (validate_stops 0 pre e post Hpre). split.
  - intros sig -> Hsig. by rewrite Hsig.
  - by intros ->.
Qed.

(** X25 at a batch whose second element has no [n_param], and at one whose
    second element is [null]. *)
Lemma batch_names_first_incomplete_witness :
  let full := {| Handlers.encrypted_signature := Some "AA"; Handlers.n_param := Some "BB";
                 Handlers.player_url := Some Sample.playerUrl |} in
  let partial := {| Handlers.encrypted_signature := Some "AA"; Handlers.n_param := None;
                    Handlers.player_url := Some Sample.playerUrl |} in
  Forall (fun s => Handlers.incomplete s = false) [full] /\
  Handlers.incomplete partial = true /\
  Handlers.handleBatchDecrypt
    {| Handlers.signatures :=
         Some [Handlers.Element full; Handlers.Element partial; Handlers.Element full] |}
  = Handlers.respond 400
      (Handlers.ApiError "Invalid signature object at index 1" "INVALID_REQUEST") /\
  Handlers.handleBatchDecrypt
    {| Handlers.signatures :=
         Some [Handlers.Element full; Handlers.NullElement; Handlers.Element partial] |}
  = Handlers.respond 500
      (Handlers.ApiError "Batch decrypt processing failed" "PROCESSING_ERROR").
Proof.
  intros full partial.
  assert (H1 : Forall (fun s => Handlers.incomplete s = false) [full])
    by (repeat constructor).
  assert (H2 : Handlers.incomplete partial = true) by reflexivity.
  split; [exact H1|]. split; [exact H2|]. split.
  - exact (proj1 (batch_names_first_incomplete [full] (Handlers.Element partial)
                    [Handlers.Element full] H1) partial eq_refl H2).
  - exact (proj2 (batch_names_first_incomplete [full] Handlers.NullElement
                    [Handlers.Element partial] H1) eq_refl).
Defined.
